(** * Ark: the execution core of Ursa

    A shallow embedding of the Ark interpreter and of the properties its
    specification states about it.

    Two generations of the interpreter are embedded, each in its own module
    and under the names of its source:

    - [Ark]: the evaluator built on frames of references ([ArkState],
      [ArkFrame], [makeLocals], [ArkFn], [ArkCall], [ArkSet], [ArkLet],
      [ArkPropertyRef], [ArkList] and its iterator, the intern table of
      weak references);
    - [Interp]: [src/ark/interp.ts], the early evaluator
      ([ConcreteInterned], [bindArgsToParams], [toJs], the [=] intrinsic),
      and in its submodule [Interp.Eval] the evaluation itself (the stack,
      the references, [Let] and [Call], closures, the native functions of
      dictionaries, lists and control, [link]).

    JavaScript objects have identity and are mutable: an object is an
    address in an explicit heap, which every operation takes and gives
    back, and [===] on objects is equality of addresses.  No embedded
    operation waits for the host, so that [await] only puts evaluations in
    sequence and an [async] method is a function of the state.  Numbers
    are the integral numbers (type [Z]) and NaN.

    Of the frame-based interpreter, [ArkMap], [NativeAsyncFn],
    [NativeObject], the natives of strings and the [get] and [set] of
    lists are not embedded (the last need [toJs], which lives in the
    foreign-value bridge, outside this development); an evaluation that
    reaches them ends with the outcome [Unmodelled].  Of
    [src/ark/interp.ts], [jsToVal], [serialize], [globals] and the
    intrinsics that compute with numbers are not embedded. *)

From Stdlib Require Import ZArith Lia.
From stdpp Require Import base option list gmap strings.

Set Warnings "-register-all".

Open Scope string_scope.
Open Scope list_scope.

(* ================================================================== *)
(** * Host scalars *)
(* ================================================================== *)

(** The raw JavaScript scalars that the interpreter wraps: [null], the
    booleans, the numbers and the strings.  A number is an integral number
    or NaN, the number that [===] finds equal to nothing, not even to
    itself.  Two raw scalars are the same key of a host [Map] exactly when
    they are equal here: a [Map] finds NaN under NaN. *)
Inductive Raw :=
| RawNull
| RawBoolean (b : bool)
| RawNumber (n : Z)
| RawNaN
| RawString (s : string).

#[global] Instance Raw_eq_dec : EqDecision Raw.
Proof. solve_decision. Defined.

Definition Raw_to_sum (r : Raw) : unit + bool + option Z + string :=
  match r with
  | RawNull => inl (inl (inl tt))
  | RawBoolean b => inl (inl (inr b))
  | RawNumber n => inl (inr (Some n))
  | RawNaN => inl (inr None)
  | RawString s => inr s
  end.

Definition Raw_of_sum (x : unit + bool + option Z + string) : Raw :=
  match x with
  | inl (inl (inl _)) => RawNull
  | inl (inl (inr b)) => RawBoolean b
  | inl (inr (Some n)) => RawNumber n
  | inl (inr None) => RawNaN
  | inr s => RawString s
  end.

#[global] Instance Raw_countable : Countable Raw.
Proof.
  apply (inj_countable' Raw_to_sum Raw_of_sum).
  intros []; reflexivity.
Defined.

(* ================================================================== *)
(** * The frame-based interpreter *)
(* ================================================================== *)

Module Ark.

(** A heap address: the identity of a JavaScript object. *)
Abbreviation loc := nat (only parsing).

(** The class a value was made by, the [constructor] property that
    [ArkSet] compares.  [ArkUndefined] is a bare [ArkVal]. *)
Inductive Class :=
| ArkVal_class
| ArkNullVal_class
| ArkBooleanVal_class
| ArkNumberVal_class
| ArkStringVal_class
| ArkObject_class
| ArkList_class
| ArkClosure_class
| NativeFn_class.

#[global] Instance Class_eq_dec : EqDecision Class.
Proof. solve_decision. Defined.

(** The bodies of the native functions an [ArkList] is born with, each
    closed over [this] (the list at [l]); [ListIterNext g] is the function
    [() => generator.next().value] closed over the generator at [g]. *)
Inductive NativeBody :=
| ListLen (l : loc)
| ListGet (l : loc)
| ListSet (l : loc)
| ListPush (l : loc)
| ListPop (l : loc)
| ListIter (l : loc)
| ListIterNext (g : loc).

(** Compiled code, values and references.  [ArkLexp] is the subclass of
    expressions that can be evaluated to a reference; [ArkLexpE] is the
    inclusion of [ArkLexp] in [ArkExp].  Interned scalars are represented
    by their raw value (see [ConcreteInterned] below for the table that
    makes raw equality coincide with identity). *)
Inductive ArkExp :=
| ArkLiteral (val : ArkVal)
| ArkBreak (exp : ArkExp)
| ArkContinue
| ArkReturn (exp : ArkExp)
| ArkFn (params : list string) (capturedVars : list ArkLexp) (body : ArkExp)
| ArkCall (fn : ArkExp) (args : list ArkExp)
| ArkLexpE (lexp : ArkLexp)
| ArkSet (lexp : ArkLexp) (exp : ArkExp)
| ArkObjectLiteral (properties : list (string * ArkExp))
| ArkListLiteral (list : list ArkExp)
| ArkLet (boundVars : list (string * ArkExp)) (body : ArkExp)
| ArkSequence (exps : list ArkExp)
| ArkIf (cond thenExp : ArkExp) (elseExp : option ArkExp)
| ArkAnd (left right : ArkExp)
| ArkOr (left right : ArkExp)
| ArkLoop (body : ArkExp)
with ArkLexp :=
| ArkLocal (index : nat)
| ArkCapture (index : nat)
| ArkProperty (obj : ArkExp) (prop : string)
with ArkVal :=
| ArkUndefined
| ArkNullVal
| ArkBooleanVal (val : bool)
| ArkNumberVal (val : Z)
| ArkStringVal (val : string)
| ArkObject (l : loc)
| ArkList (l : loc)
| ArkClosure (params : list string) (captures : list ArkRef) (body : ArkExp)
| NativeFn (params : list string) (body : NativeBody)
with ArkRef :=
| ArkValRef (l : loc)
| ArkPropertyRef (obj : ArkVal) (prop : string).

Definition constructorOf (v : ArkVal) : Class :=
  match v with
  | ArkUndefined => ArkVal_class
  | ArkNullVal => ArkNullVal_class
  | ArkBooleanVal _ => ArkBooleanVal_class
  | ArkNumberVal _ => ArkNumberVal_class
  | ArkStringVal _ => ArkStringVal_class
  | ArkObject _ => ArkObject_class
  | ArkList _ => ArkList_class
  | ArkClosure _ _ _ => ArkClosure_class
  | NativeFn _ _ => NativeFn_class
  end.

(** [val === ArkUndefined] *)
Definition isArkUndefined (v : ArkVal) : bool :=
  match v with ArkUndefined => true | _ => false end.

(** [fnVal instanceof ArkCallable] *)
Definition isArkCallable (v : ArkVal) : bool :=
  match v with ArkClosure _ _ _ | NativeFn _ _ => true | _ => false end.

(** [obj instanceof ArkAbstractObjectBase]: every [ArkObjectBase], which
    includes the interned scalars. *)
Definition isArkAbstractObjectBase (v : ArkVal) : bool :=
  match v with
  | ArkNullVal | ArkBooleanVal _ | ArkNumberVal _ | ArkStringVal _
  | ArkObject _ | ArkList _ => true
  | _ => false
  end.

(** ** The heap *)

(** An [ArkObjectBase] on the heap: its [properties] map and, for an
    [ArkList], its [list] array, here [listItems] (empty for a plain
    [ArkObject]). *)
Record HeapObj := mkHeapObj {
  properties : gmap string ArkVal;
  listItems : list ArkVal
}.

(** A suspended [listGenerator]: the array it iterates (that of the list
    at [genList]), the index of the array iterator, and whether the
    generator function has returned. *)
Record Generator := mkGenerator {
  genList : loc;
  genIndex : nat;
  genDone : bool
}.

(** The heap.  [refs] holds the [val] field of every [ArkValRef], by
    address, and [nextRef] is the address of the next one to be made;
    [objs] and [gens] hold the objects and the generators, a new one being
    allocated at the end of its table. *)
Record Heap := mkHeap {
  refs : gmap loc ArkVal;
  nextRef : loc;
  objs : list HeapObj;
  gens : list Generator
}.

Definition emptyHeap : Heap := mkHeap ∅ 0%nat [] [].

Definition setRefs (rs : gmap loc ArkVal) (h : Heap) : Heap :=
  mkHeap rs (nextRef h) (objs h) (gens h).

Definition setObjs (os : list HeapObj) (h : Heap) : Heap :=
  mkHeap (refs h) (nextRef h) os (gens h).

Definition setGens (gs : list Generator) (h : Heap) : Heap :=
  mkHeap (refs h) (nextRef h) (objs h) gs.

(** Each stack frame consists of local variables and captures. *)
Record ArkFrame := mkFrame {
  locals : list ArkRef;
  captures : list ArkRef
}.

(** The state an expression is evaluated in: the current [frame], and the
    heap, which is implicit in the source.  ([outerState] and the frames'
    debug information take no part in evaluation.) *)
Record ArkState := mkState {
  frame : ArkFrame;
  heap : Heap
}.

Definition initialState : ArkState := mkState (mkFrame [] []) emptyHeap.

Definition setHeap (h : Heap) (ark : ArkState) : ArkState :=
  mkState (frame ark) h.

(** [ArkState.push]: [this.frame.locals.push(...items)] *)
Definition push (items : list ArkRef) (ark : ArkState) : ArkState :=
  mkState (mkFrame (locals (frame ark) ++ items) (captures (frame ark))) (heap ark).

(** [ArkState.pop]: [nItems] times [this.frame.locals.pop()]; popping an
    empty array does nothing. *)
Definition pop (nItems : nat) (ark : ArkState) : ArkState :=
  mkState (mkFrame (Nat.iter nItems (@removelast ArkRef) (locals (frame ark)))
                   (captures (frame ark))) (heap ark).

(** ** Objects and references *)

(** [ArkObjectBase.get]: [this.properties.get(prop) ?? ArkUndefined] *)
Definition ArkObjectBase_get (props : gmap string ArkVal) (prop : string) : ArkVal :=
  default ArkUndefined (props !! prop).

(** [ArkObjectBase.set]: [this.properties.set(prop, val); return val] *)
Definition ArkObjectBase_set (props : gmap string ArkVal) (prop : string) (val : ArkVal)
  : gmap string ArkVal * ArkVal :=
  (<[prop := val]> props, val).

(** What is thrown: the interpreter's own errors and control signals, and
    the host's [TypeError]. *)
Inductive Thrown :=
| ArkRuntimeError (message : string)
| ArkBreakException (val : ArkVal)
| ArkContinueException (val : ArkVal)
| ArkReturnException (val : ArkVal)
| TypeError (message : string).

(** [e instanceof ArkNonLocalReturn] *)
Definition isArkNonLocalReturn (e : Thrown) : bool :=
  match e with
  | ArkBreakException _ | ArkContinueException _ | ArkReturnException _ => true
  | _ => false
  end.

(** The outcome of a computation.  [HostUndefined]: the computation
    returned the host's [undefined], which is no [ArkVal].  [Unmodelled]:
    the run left the embedded part of the program (a dangling address, a
    native that needs the foreign-value bridge, a property of an interned
    scalar that was written to, the host's [undefined] kept as a value).
    [OutOfFuel]: the run needs more steps than it was given. *)
Inductive Outcome (A : Type) :=
| Ok (a : A)
| Throw (e : Thrown)
| HostUndefined
| Unmodelled
| OutOfFuel.
Arguments Ok {A} a.
Arguments Throw {A} e.
Arguments HostUndefined {A}.
Arguments Unmodelled {A}.
Arguments OutOfFuel {A}.

(** [new ArkValRef(val)] *)
Definition newValRef (val : ArkVal) (h : Heap) : ArkRef * Heap :=
  (ArkValRef (nextRef h),
   mkHeap (<[nextRef h := val]> (refs h)) (S (nextRef h)) (objs h) (gens h)).

(** [names.map((_val, index) => new ArkValRef(vals[index] ?? ArkUndefined))] *)
Fixpoint makeParamRefs (names : list string) (vals : list ArkVal) (h : Heap)
  : list ArkRef * Heap :=
  match names with
  | [] => ([], h)
  | _ :: names' =>
      let '(r, h1) := newValRef (default ArkUndefined (head vals)) h in
      let '(rs, h2) := makeParamRefs names' (tail vals) h1 in
      (r :: rs, h2)
  end.

(** [vals.map((val) => new ArkValRef(val))] *)
Fixpoint makeValRefs (vals : list ArkVal) (h : Heap) : list ArkRef * Heap :=
  match vals with
  | [] => ([], h)
  | v :: vals' =>
      let '(r, h1) := newValRef v h in
      let '(rs, h2) := makeValRefs vals' h1 in
      (r :: rs, h2)
  end.

(** [makeLocals]: one reference per name, then, when there are more
    values than names, one more reference per surplus value. *)
Definition makeLocals (names : list string) (vals : list ArkVal) (h : Heap)
  : list ArkRef * Heap :=
  let '(locals, h1) := makeParamRefs names vals h in
  if (length names <? length vals)%nat then
    let '(extra, h2) := makeValRefs (drop (length names) vals) h1 in
    (locals ++ extra, h2)
  else (locals, h1).

(** The properties of an [ArkObjectBase] value.  The property maps of the
    interned null, booleans and numbers are empty; those of strings hold
    natives that are not embedded. *)
Definition objGet (h : Heap) (obj : ArkVal) (prop : string) : Outcome ArkVal :=
  match obj with
  | ArkObject l | ArkList l =>
      match objs h !! l with
      | Some o => Ok (ArkObjectBase_get (properties o) prop)
      | None => Unmodelled
      end
  | ArkNullVal | ArkBooleanVal _ | ArkNumberVal _ => Ok ArkUndefined
  | _ => Unmodelled
  end.

Definition objSet (h : Heap) (obj : ArkVal) (prop : string) (val : ArkVal) : Outcome Heap :=
  match obj with
  | ArkObject l | ArkList l =>
      match objs h !! l with
      | Some o =>
          Ok (setObjs
                (<[l := mkHeapObj (fst (ArkObjectBase_set (properties o) prop val))
                                  (listItems o)]> (objs h)) h)
      | None => Unmodelled
      end
  | _ => Unmodelled
  end.

(** [ArkValRef.get], [ArkPropertyRef.get] *)
Definition refGet (ref : ArkRef) (h : Heap) : Outcome ArkVal :=
  match ref with
  | ArkValRef l =>
      match refs h !! l with Some v => Ok v | None => Unmodelled end
  | ArkPropertyRef obj prop =>
      match objGet h obj prop with
      | Ok val =>
          if isArkUndefined val
          then Throw (ArkRuntimeError ("Invalid property '" ++ prop ++ "'"))
          else Ok val
      | other => other
      end
  end.

(** [ArkValRef.set], [ArkPropertyRef.set]; both return [val]. *)
Definition refSet (ref : ArkRef) (val : ArkVal) (h : Heap) : Outcome Heap :=
  match ref with
  | ArkValRef l => Ok (setRefs (<[l := val]> (refs h)) h)
  | ArkPropertyRef obj prop => objSet h obj prop val
  end.

(** ** Interning of scalars *)

Module ConcreteInterned.

(** The static state of the class, and what the host knows of its
    objects.  [intern] maps a raw scalar to a [WeakRef], represented by
    what its [deref()] gives: [Some val] while the target is alive, [None]
    once the collector has reclaimed it.  [concreteVals] is the heap of the
    [ArkConcreteVal] objects made so far, each with its class and its raw
    [val]; [registry] lists the registrations [(target, heldValue)] of the
    finalization registry whose callback has not run; [reclaimed] lists
    the objects that the collector has reclaimed.  The host reclaims an
    object that the program holds no longer when it pleases ([reclaim]),
    and runs the callback of the registry for it some time later
    ([cleanup]). *)
Record State := mkState {
  intern : gmap Raw (option loc);
  concreteVals : list (Class * Raw);
  registry : list (loc * Raw);
  reclaimed : list loc
}.

Definition empty : State := mkState ∅ [] [] [].

(** [ConcreteInterned.value(TConstructor, rawVal)] *)
Definition value (TConstructor : Class) (rawVal : Raw) (st : State) : loc * State :=
  let create :=
    let val := length (concreteVals st) in
    (val,
     mkState (<[rawVal := Some val]> (intern st))
             (concreteVals st ++ [(TConstructor, rawVal)])
             (registry st ++ [(val, rawVal)])
             (reclaimed st)) in
  match intern st !! rawVal with
  | None => create
  | Some ref =>
      match ref with
      | None => create
      | Some val => (val, st)
      end
  end.

(** The collector reclaims the object [val]: the [deref()] of every
    [WeakRef] to it gives [undefined] from now on. *)
Definition reclaim (val : loc) (st : State) : State :=
  mkState ((fun ref => if decide (ref = Some val) then None else ref) <$> intern st)
          (concreteVals st) (registry st) (val :: reclaimed st).

(** The host runs the callback of the registry,
    [(key) => this.intern.delete(key)], on the held value of the
    registration of the reclaimed object [val], and drops the
    registration. *)
Definition cleanup (val : loc) (st : State) : State :=
  if decide (val ∈ reclaimed st) then
    mkState (foldl (fun m reg => if decide (fst reg = val) then delete (snd reg) m else m)
                   (intern st) (registry st))
            (concreteVals st)
            (filter (fun reg => fst reg ≠ val) (registry st))
            (reclaimed st)
  else st.

(** The table is well formed when every live entry for a raw scalar points
    to an object that holds that scalar. *)
Definition wf (st : State) : Prop :=
  ∀ rawVal val,
    intern st !! rawVal = Some (Some val) →
    ∃ TConstructor, concreteVals st !! val = Some (TConstructor, rawVal).

(** A run of constructions, one after the other. *)
Definition values (calls : list (Class * Raw)) (st : State) : State :=
  foldl (fun st call => snd (value (fst call) (snd call) st)) st calls.

Definition ArkNull := value ArkNullVal_class RawNull.
Definition ArkBoolean (b : bool) := value ArkBooleanVal_class (RawBoolean b).
Definition ArkNumber (n : Z) := value ArkNumberVal_class (RawNumber n).
Definition ArkString (s : string) := value ArkStringVal_class (RawString s).

End ConcreteInterned.

(** ** The evaluation monad

    The source evaluates by side effect on the heap and on the frame's
    [locals] array, and leaves by [return] or [throw]; a computation is a
    function of the state that gives an outcome and the state it leaves
    behind, also when it throws. *)
Definition M (A : Type) : Type := ArkState → Outcome A * ArkState.

Definition ret {A} (a : A) : M A := fun ark => (Ok a, ark).

Definition throw {A} (e : Thrown) : M A := fun ark => (Throw e, ark).

(** [const a = await m; k(a)] where [k] keeps [a] or hands it to the
    foreign-value bridge.  The source does so as well when [a] is the
    host's [undefined] (an [undefined] element of a list, an [undefined]
    initializer or argument, the truth value of [undefined]); such a run
    leaves the embedded part of the program. *)
Definition bind {A B} (m : M A) (k : A → M B) : M B := fun ark =>
  match m ark with
  | (Ok a, ark') => k a ark'
  | (Throw e, ark') => (Throw e, ark')
  | (HostUndefined, ark') => (Unmodelled, ark')
  | (Unmodelled, ark') => (Unmodelled, ark')
  | (OutOfFuel, ark') => (OutOfFuel, ark')
  end.

Notation "'let*' x ':=' m 'in' k" := (bind m (fun x => k))
  (at level 10, x pattern, m at level 100, k at level 200).

(** [try { m } catch (e) { handler e }] *)
Definition tryCatch {A} (m : M A) (handler : Thrown → M A) : M A := fun ark =>
  match m ark with
  | (Throw e, ark') => handler e ark'
  | r => r
  end.

(** [m], and [handler] where [m] returns the host's [undefined] and the
    source goes on with it: [undefined] where a default applies
    ([new ArkBreakException(undefined)] holds [ArkNull()]), where a class
    is tested ([undefined instanceof ArkCallable] is false), where a
    method is called ([undefined.get(ark)] throws a [TypeError]). *)
Definition onUndefined {A} (m : M A) (handler : M A) : M A := fun ark =>
  match m ark with
  | (HostUndefined, ark') => handler ark'
  | r => r
  end.

(** [const res = await m; after(); return res]: [after] runs when [m]
    returns, whatever it returns. *)
Definition andThen {A} (m : M A) (after : ArkState → ArkState) : M A := fun ark =>
  match m ark with
  | (Ok a, ark') => (Ok a, after ark')
  | (HostUndefined, ark') => (HostUndefined, after ark')
  | r => r
  end.

(** [for (const x of l) { res = await f(x) }; return res]: what each turn
    returns replaces [res], the host's [undefined] like a value. *)
Fixpoint lastOf {A} (f : A → M ArkVal) (l : list A) (res : Outcome ArkVal) : M ArkVal :=
  match l with
  | [] => fun ark => (res, ark)
  | x :: l' => fun ark =>
      match f x ark with
      | (Ok val, ark') => lastOf f l' (Ok val) ark'
      | (HostUndefined, ark') => lastOf f l' HostUndefined ark'
      | r => r
      end
  end.

(** The host's error for a method call on [undefined]. *)
Definition undefinedGet : Thrown :=
  TypeError "Cannot read properties of undefined (reading 'get')".

(** [m2] does all that [m1] does within its fuel. *)
Definition extends {A} (m1 m2 : M A) : Prop :=
  ∀ ark o ark', m1 ark = (o, ark') → o ≠ OutOfFuel → m2 ark = (o, ark').

(** [for (const x of l) { ys.push(await f(x)) }] *)
Fixpoint mapM {A B} (f : A → M B) (l : list A) : M (list B) :=
  match l with
  | [] => ret []
  | x :: l' => let* y := f x in let* ys := mapM f l' in ret (y :: ys)
  end.

(** [ref.get(ark)] and [ref.set(ark, val)] as computations. *)
Definition getRef (ref : ArkRef) : M ArkVal := fun ark =>
  (refGet ref (heap ark), ark).

Definition setRef (ref : ArkRef) (val : ArkVal) : M ArkVal := fun ark =>
  match refSet ref val (heap ark) with
  | Ok h => (Ok val, setHeap h ark)
  | Throw e => (Throw e, ark)
  | HostUndefined => (HostUndefined, ark)
  | Unmodelled => (Unmodelled, ark)
  | OutOfFuel => (OutOfFuel, ark)
  end.

(** ** Objects, lists and their natives *)

(** [new ArkObject(inits)] *)
Definition newArkObject (inits : gmap string ArkVal) (h : Heap) : ArkVal * Heap :=
  (ArkObject (length (objs h)), setObjs (objs h ++ [mkHeapObj inits []]) h).

(** The property map an [ArkList] is constructed with. *)
Definition ArkList_properties (l : loc) : gmap string ArkVal :=
  list_to_map
    [("len", NativeFn ["len"] (ListLen l));
     ("get", NativeFn ["index"] (ListGet l));
     ("set", NativeFn ["index"; "val"] (ListSet l));
     ("push", NativeFn ["item"] (ListPush l));
     ("pop", NativeFn [] (ListPop l));
     ("iter", NativeFn [] (ListIter l))].

(** [new ArkList(list)] *)
Definition newArkList (items : list ArkVal) (h : Heap) : ArkVal * Heap :=
  let l := length (objs h) in
  (ArkList l, setObjs (objs h ++ [mkHeapObj (ArkList_properties l) items]) h).

Definition setListItems (l : loc) (items : list ArkVal) (h : Heap) : Heap :=
  match objs h !! l with
  | Some o => setObjs (<[l := mkHeapObj (properties o) items]> (objs h)) h
  | None => h
  end.

(** [listGenerator()]: a generator over the array of the list at [l],
    suspended at its start. *)
Definition newGenerator (l : loc) (h : Heap) : loc * Heap :=
  (length (gens h), setGens (gens h ++ [mkGenerator l 0 false]) h).

(** [generator.next().value] for
    [function* () { for (const elem of list) { yield elem }; return ArkNull() }]:
    while the array iterator finds an element at its index the generator
    yields it; when it does not, the generator function returns
    [ArkNull()] and is finished; the [next()] of a finished generator
    gives [{value: undefined, done: true}]. *)
Definition generatorNext (g : loc) (h : Heap) : Outcome ArkVal * Heap :=
  match gens h !! g with
  | None => (Unmodelled, h)
  | Some gen =>
      if genDone gen then (HostUndefined, h)
      else
        match objs h !! genList gen with
        | None => (Unmodelled, h)
        | Some o =>
            match listItems o !! genIndex gen with
            | Some elem =>
                (Ok elem,
                 setGens (<[g := mkGenerator (genList gen) (S (genIndex gen)) false]>
                            (gens h)) h)
            | None =>
                (Ok ArkNullVal,
                 setGens (<[g := mkGenerator (genList gen) (genIndex gen) true]>
                            (gens h)) h)
            end
        end
  end.

(** The values of [n] successive [generator.next().value]. *)
Fixpoint generatorNexts (n : nat) (g : loc) (h : Heap) : list (Outcome ArkVal) :=
  match n with
  | O => []
  | S n => let '(o, h') := generatorNext g h in o :: generatorNexts n g h'
  end.

(** The body of a native function applied to its arguments.  [get] and
    [set] index the array by [toJs(index)], which is not embedded. *)
Definition callNative (body : NativeBody) (args : list ArkVal) (h : Heap)
  : Outcome ArkVal * Heap :=
  match body with
  | ListLen l =>
      match objs h !! l with
      | Some o => (Ok (ArkNumberVal (Z.of_nat (length (listItems o)))), h)
      | None => (Unmodelled, h)
      end
  | ListGet _ | ListSet _ => (Unmodelled, h)
  | ListPush l =>
      match objs h !! l, args with
      | Some o, item :: _ => (Ok (ArkList l), setListItems l (listItems o ++ [item]) h)
      | _, _ => (Unmodelled, h)
      end
  | ListPop l =>
      match objs h !! l with
      | Some o => (Ok (ArkList l), setListItems l (removelast (listItems o)) h)
      | None => (Unmodelled, h)
      end
  | ListIter l =>
      let '(g, h') := newGenerator l h in
      (Ok (NativeFn [] (ListIterNext g)), h')
  | ListIterNext g => generatorNext g h
  end.

(** The [params] and [captures] of an [ArkCallable]. *)
Definition paramsOf (fnVal : ArkVal) : list string :=
  match fnVal with
  | ArkClosure params _ _ | NativeFn params _ => params
  | _ => []
  end.

Definition capturesOf (fnVal : ArkVal) : list ArkRef :=
  match fnVal with
  | ArkClosure _ captures _ => captures
  | _ => []
  end.

(** [ark.frame.locals.map((ref) => ref.get(ark))] *)
Definition localValues : M (list ArkVal) := fun ark =>
  mapM getRef (locals (frame ark)) ark.

(** [for (i = 0; i < lets.length; i += 1) { lets[i].set(ark, vals[i]) }] *)
Fixpoint setLets (lets : list ArkRef) (vals : list ArkVal) : M unit :=
  match lets, vals with
  | ref :: lets', val :: vals' => let* _ := setRef ref val in setLets lets' vals'
  | _, _ => ret tt
  end.

(** [oldVal !== ArkUndefined && oldVal.constructor !== ArkNullVal
     && res.constructor !== oldVal.constructor] *)
Definition differentType (oldVal res : ArkVal) : bool :=
  negb (isArkUndefined oldVal)
  && negb (bool_decide (constructorOf oldVal = ArkNullVal_class))
  && negb (bool_decide (constructorOf res = constructorOf oldVal)).

(** ** The evaluator *)

Section Evaluator.

(** The truth value of [toJs(val)].  [toJs] lives in the foreign-value
    bridge, outside this development; [ArkIf], [ArkAnd] and [ArkOr] only
    test its result. *)
Variable toJs_truthy : ArkVal → bool.

(** [eval] embeds the [eval] methods of the [ArkExp] classes, [evalRef]
    the [evalRef] methods of the [ArkLexp] classes; [fuel] bounds the depth
    of the evaluation (and the number of turns of a loop).  Reading
    [locals[index]] or [captures[index]] past the end gives the host's
    [undefined], and so does a native function that returns it; an
    expression whose subexpression returns [undefined] goes on as the
    source does, up to where the [undefined] would be kept or handed to
    the bridge (see [bind]). *)
Fixpoint eval (fuel : nat) (e : ArkExp) : M ArkVal :=
  match fuel with
  | O => fun ark => (OutOfFuel, ark)
  | S fuel =>
    match e with
    | ArkLiteral val => ret val
    | ArkBreak exp =>
        let* val := onUndefined (eval fuel exp) (ret ArkNullVal) in
        throw (ArkBreakException val)
    | ArkContinue => throw (ArkContinueException ArkNullVal)
    | ArkReturn exp =>
        let* val := onUndefined (eval fuel exp) (ret ArkNullVal) in
        throw (ArkReturnException val)
    | ArkFn params capturedVars body =>
        let* captures := mapM (evalRef fuel) capturedVars in
        ret (ArkClosure params captures body)
    | ArkCall fn args =>
        let* fnVal :=
          onUndefined (eval fuel fn) (throw (ArkRuntimeError "Invalid call")) in
        if negb (isArkCallable fnVal) then throw (ArkRuntimeError "Invalid call")
        else
          let* evaluatedArgs := mapM (eval fuel) args in
          fun ark =>
            let '(locals, h) := makeLocals (paramsOf fnVal) evaluatedArgs (heap ark) in
            let '(res, callee) :=
              call fuel fnVal (mkState (mkFrame locals (capturesOf fnVal)) h) in
            (res, mkState (frame ark) (heap callee))
    | ArkLexpE lexp =>
        let* ref := onUndefined (evalRef fuel lexp) (throw undefinedGet) in
        getRef ref
    | ArkSet lexp exp =>
        (* with [ref] undefined, [ref.get(ark)] throws once the right-hand
           side has been evaluated, whatever it has returned *)
        let* ref :=
          onUndefined (evalRef fuel lexp)
            (let* _ := onUndefined (eval fuel exp) (ret ArkNullVal) in
             throw undefinedGet) in
        let* res := eval fuel exp in
        let* oldVal := getRef ref in
        if differentType oldVal res
        then throw (ArkRuntimeError "Assignment to different type")
        else setRef ref res
    | ArkObjectLiteral properties =>
        let* inits :=
          mapM (fun kv => let* val := eval fuel (snd kv) in ret (fst kv, val)) properties in
        fun ark =>
          let '(obj, h) :=
            newArkObject (foldl (fun m kv => <[fst kv := snd kv]> m) ∅ inits) (heap ark) in
          (Ok obj, setHeap h ark)
    | ArkListLiteral list =>
        let* evaluatedList := mapM (eval fuel) list in
        fun ark =>
          let '(obj, h) := newArkList evaluatedList (heap ark) in
          (Ok obj, setHeap h ark)
    | ArkLet boundVars body =>
        let* nLets := pushLets fuel boundVars in
        andThen
          (tryCatch (eval fuel body)
             (fun e =>
                if isArkNonLocalReturn e
                then fun ark => (Throw e, pop nLets ark)
                else throw e))
          (pop nLets)
    | ArkSequence exps => lastOf (eval fuel) exps (Ok ArkNullVal)
    | ArkIf cond thenExp elseExp =>
        let* condVal := eval fuel cond in
        if toJs_truthy condVal then eval fuel thenExp
        else
          match elseExp with
          | Some elseExp => eval fuel elseExp
          | None => ret ArkNullVal
          end
    | ArkAnd left' right' =>
        let* leftVal := eval fuel left' in
        if toJs_truthy leftVal then eval fuel right' else ret leftVal
    | ArkOr left' right' =>
        let* leftVal := eval fuel left' in
        if toJs_truthy leftVal then ret leftVal else eval fuel right'
    | ArkLoop body =>
        fun ark =>
          match eval fuel body ark with
          | (Ok _, ark') | (HostUndefined, ark') => eval fuel (ArkLoop body) ark'
          | (Throw (ArkBreakException val), ark') => (Ok val, ark')
          | (Throw (ArkContinueException _), ark') => eval fuel (ArkLoop body) ark'
          | r => r
          end
    end
  end

with evalRef (fuel : nat) (lexp : ArkLexp) : M ArkRef :=
  match fuel with
  | O => fun ark => (OutOfFuel, ark)
  | S fuel =>
    match lexp with
    | ArkLocal index =>
        fun ark =>
          match locals (frame ark) !! index with
          | Some ref => (Ok ref, ark)
          | None => (HostUndefined, ark)
          end
    | ArkCapture index =>
        fun ark =>
          match captures (frame ark) !! index with
          | Some ref => (Ok ref, ark)
          | None => (HostUndefined, ark)
          end
    | ArkProperty obj prop =>
        let* obj :=
          onUndefined (eval fuel obj)
            (throw (ArkRuntimeError "Attempt to read property of non-object")) in
        if negb (isArkAbstractObjectBase obj)
        then throw (ArkRuntimeError "Attempt to read property of non-object")
        else ret (ArkPropertyRef obj prop)
    end
  end

(** [ArkClosure.call] and [NativeFn.call], in the state of the callee. *)
with call (fuel : nat) (fnVal : ArkVal) : M ArkVal :=
  match fuel with
  | O => fun ark => (OutOfFuel, ark)
  | S fuel =>
    match fnVal with
    | ArkClosure _ _ body =>
        tryCatch (eval fuel body)
          (fun e =>
             match e with
             | ArkReturnException val => ret val
             | _ => throw e
             end)
    | NativeFn _ body =>
        let* args := localValues in
        fun ark =>
          let '(res, h) := callNative body args (heap ark) in
          (res, setHeap h ark)
    | _ => fun ark => (Unmodelled, ark)
    end
  end

(** [pushLets] *)
with pushLets (fuel : nat) (boundVars : list (string * ArkExp)) : M nat :=
  match fuel with
  | O => fun ark => (OutOfFuel, ark)
  | S fuel =>
      fun ark =>
        let '(lets, h) := makeLocals (map fst boundVars) [] (heap ark) in
        (let* vals := mapM (fun bv => eval fuel (snd bv)) boundVars in
         let* _ := setLets lets vals in
         ret (length lets))
          (push lets (setHeap h ark))
  end.

(** [ArkState.run] *)
Definition run (fuel : nat) (compiledVal : ArkExp) : Outcome ArkVal * ArkState :=
  eval fuel compiledVal initialState.

End Evaluator.

(** The values that [makeLocals] binds, in order: the arguments, then
    [ArkUndefined] for every parameter left without one. *)
Definition boundVals (names : list string) (vals : list ArkVal) : list ArkVal :=
  vals ++ replicate (length names - length vals) ArkUndefined.

(** What a reference currently holds: the cell of a value reference; for
    a property reference [obj.get(prop)], which is [ArkUndefined] when the
    object has no such property. *)
Definition currentValue (ref : ArkRef) (h : Heap) : Outcome ArkVal :=
  match ref with
  | ArkValRef _ => refGet ref h
  | ArkPropertyRef obj prop => objGet h obj prop
  end.

(** Assignment in the words of the specification: once the lvalue has
    given [ref] and the right-hand side [res], the assignment fails with
    "Assignment to different type", the state left as it is, exactly when
    the reference holds a value that is neither null nor undefined and
    whose constructor is not that of [res]; otherwise the reference is
    updated and [res] returned. *)
Definition ArkSet_as_specified (toJs_truthy : ArkVal → bool) (fuel : nat)
    (lexp : ArkLexp) (exp : ArkExp) (ark : ArkState) : Prop :=
  ∀ ref ark1 res ark2 oldVal,
    evalRef toJs_truthy fuel lexp ark = (Ok ref, ark1) →
    eval toJs_truthy fuel exp ark1 = (Ok res, ark2) →
    currentValue ref (heap ark2) = Ok oldVal →
    let different :=
      oldVal ≠ ArkNullVal ∧ oldVal ≠ ArkUndefined
      ∧ constructorOf res ≠ constructorOf oldVal in
    (different →
     eval toJs_truthy (S fuel) (ArkSet lexp exp) ark
     = (Throw (ArkRuntimeError "Assignment to different type"), ark2))
    ∧ (¬ different →
       ∃ h, refSet ref res (heap ark2) = Ok h
            ∧ eval toJs_truthy (S fuel) (ArkSet lexp exp) ark
              = (Ok res, setHeap h ark2)).

(** ** Programs used as examples *)

(** A frame whose only local holds the string ["s"]. *)
Definition stringState : ArkState :=
  mkState (mkFrame [ArkValRef 0] [])
          (mkHeap {[0%nat := ArkStringVal "s"]} 1 [] []).

Definition num (n : Z) : ArkExp := ArkLiteral (ArkNumberVal n).
Definition boolean (b : bool) : ArkExp := ArkLiteral (ArkBooleanVal b).
Definition local (index : nat) : ArkExp := ArkLexpE (ArkLocal index).
Definition capture (index : nat) : ArkExp := ArkLexpE (ArkCapture index).

(** A truth value for [toJs] that agrees with JavaScript on the booleans;
    the examples with a condition are run with it. *)
Definition booleanTruth (val : ArkVal) : bool :=
  match val with ArkBooleanVal b => b | _ => false end.

(** [let x = 0 in let f = fn() { x } in (set x 5; f())] *)
Definition captureProgram : ArkExp :=
  ArkLet [("x", num 0)]
    (ArkLet [("f", ArkFn [] [ArkLocal 0] (capture 0))]
       (ArkSequence [ArkSet (ArkLocal 0) (num 5); ArkCall (local 1) []])).

(** [let f = fn(b) { if b { g(false) } else { 1 } }
     and g = fn(b) { if b { f(false) } else { 2 } }
     in [f(true), g(true)]]: [f] captures the slot of [g] and [g] that of
    [f]. *)
Definition mutualProgram : ArkExp :=
  ArkLet
    [("f", ArkFn ["b"] [ArkLocal 1]
             (ArkIf (local 0) (ArkCall (capture 0) [boolean false]) (Some (num 1))));
     ("g", ArkFn ["b"] [ArkLocal 0]
             (ArkIf (local 0) (ArkCall (capture 0) [boolean false]) (Some (num 2))))]
    (ArkListLiteral [ArkCall (local 0) [boolean true]; ArkCall (local 1) [boolean true]]).

(** [let x = break 5 in x] *)
Definition letBreakInit : ArkExp :=
  ArkLet [("x", ArkBreak (num 5))] (local 0).

(** [let a = 1 in loop { let x = break 5 in x }] *)
Definition letLoopLeak : ArkExp :=
  ArkLet [("a", num 1)] (ArkLoop letBreakInit).

(** [{}.p := 1] *)
Definition setNewProperty : ArkExp :=
  ArkSet (ArkProperty (ArkObjectLiteral []) "p") (num 1).

(** [(fn(x) { {p: x} })().p]: the parameter [x] is given no argument. *)
Definition readUndefinedProperty : ArkExp :=
  ArkLexpE
    (ArkProperty
       (ArkCall (ArkFn ["x"] [] (ArkObjectLiteral [("p", local 0)])) []) "p").

(** [let l = [1, 2] in let it = l.iter() in let again = l.iter() in
     [it(), it(), it(), again(), again(), again()]] and the same program
    with a fourth [it()] as its body. *)
Definition iterBindings : list (string * ArkExp) → ArkExp → ArkExp :=
  fun more body =>
    ArkLet [("l", ArkListLiteral [num 1; num 2])]
      (ArkLet [("it", ArkCall (ArkLexpE (ArkProperty (local 0) "iter")) [])]
         (ArkLet more body)).

Definition iterThrice : ArkExp :=
  iterBindings [("again", ArkCall (ArkLexpE (ArkProperty (local 0) "iter")) [])]
    (ArkListLiteral
       [ArkCall (local 1) []; ArkCall (local 1) []; ArkCall (local 1) [];
        ArkCall (local 2) []; ArkCall (local 2) []; ArkCall (local 2) []]).

Definition iterFourTimes : ArkExp :=
  iterBindings []
    (ArkSequence
       [ArkCall (local 1) []; ArkCall (local 1) []; ArkCall (local 1) [];
        ArkCall (local 1) []]).

(** ** Predicates used in the statements below *)

(** [ark'] has the captures of [ark], and the locals of [ark], in place, at
    the start of its own. *)
Definition keepsFrame (ark ark' : ArkState) : Prop :=
  captures (frame ark') = captures (frame ark)
  ∧ locals (frame ark) `prefix_of` locals (frame ark').

(** No target of the intern table has been reclaimed. *)
Definition allLive (st : ConcreteInterned.State) : Prop :=
  ∀ raw, ConcreteInterned.intern st !! raw ≠ Some None.

(** [let l = [1, 2] in let it = l.iter() in let x = "s" in
     (it(); it(); it(); it(); x := "t"; x)]: the fourth [it()] returns the
    host's [undefined]. *)
Definition iterThenSet : ArkExp :=
  iterBindings [("x", ArkLiteral (ArkStringVal "s"))]
    (ArkSequence
       [ArkCall (local 1) []; ArkCall (local 1) []; ArkCall (local 1) [];
        ArkCall (local 1) [];
        ArkSet (ArkLocal 2) (ArkLiteral (ArkStringVal "t")); local 2]).

End Ark.

(* ================================================================== *)
(** * The early interpreter, [src/ark/interp.ts] *)
(* ================================================================== *)

Module Interp.

(** A value is an interned [ConcreteVal], represented by its raw value, or
    an object on the heap, known by its address. *)
Inductive Val :=
| ConcreteVal (val : Raw)
| Object (id : nat).

(** The objects on the heap, by class: an [Obj] with its property map
    [val], a [DictLiteral] with its [map], a [ListLiteral] with its [list],
    a [ValRef] with its [val], and a [NativeFexpr], which stands for every
    class that [toJs] passes through.  Maps are kept in insertion
    order. *)
Inductive Cell :=
| Obj (val : list (string * Val))
| DictLiteral (map : list (Val * Val))
| ListLiteral (list : list Val)
| ValRef (val : Val)
| NativeFexpr (name : string).

Module ConcreteInterned.

(** [intern] maps a raw scalar to its [ConcreteVal], an address in
    [concreteVals], the heap of the [ConcreteVal] objects made so far. *)
Record State := mkState {
  intern : gmap Raw nat;
  concreteVals : list Raw
}.

Definition empty : State := mkState ∅ [].

(** [ConcreteInterned.value(rawVal)] *)
Definition value (rawVal : Raw) (st : State) : nat * State :=
  match intern st !! rawVal with
  | None =>
      let val := length (concreteVals st) in
      (val, mkState (<[rawVal := val]> (intern st)) (concreteVals st ++ [rawVal]))
  | Some val => (val, st)
  end.

(** A run of constructions, one after the other. *)
Definition values (calls : list Raw) (st : State) : State :=
  foldl (fun st rawVal => snd (value rawVal st)) st calls.

End ConcreteInterned.

Definition Null : Val := ConcreteVal RawNull.
Definition Bool (b : bool) : Val := ConcreteVal (RawBoolean b).
Definition Num (n : Z) : Val := ConcreteVal (RawNumber n).
Definition Str (s : string) : Val := ConcreteVal (RawString s).

(** [new C(...)]: the new object is put at the end of the heap. *)
Definition new (c : Cell) (heap : list Cell) : Val * list Cell :=
  (Object (length heap), heap ++ [c]).

(** [params.map((_key, index) => new ValRef(args[index] ?? Null()))] *)
Fixpoint bindParams (params : list string) (args : list Val) (heap : list Cell)
  : list Val * list Cell :=
  match params with
  | [] => ([], heap)
  | _ :: params' =>
      let '(ref, heap1) := new (ValRef (default Null (head args))) heap in
      let '(frame, heap2) := bindParams params' (tail args) heap1 in
      (ref :: frame, heap2)
  end.

(** [bindArgsToParams] *)
Definition bindArgsToParams (params : list string) (args : list Val) (heap : list Cell)
  : list Val * list Cell :=
  let '(frame, heap1) := bindParams params args heap in
  if (length params <? length args)%nat then
    let '(rest, heap2) := new (ListLiteral (drop (length params) args)) heap1 in
    let '(ref, heap3) := new (ValRef rest) heap2 in
    (frame ++ [ref], heap3)
  else (frame, heap1).

(** Host values, as [toJs] builds them: raw scalars; host objects, maps
    and arrays, each with the identity it was given when it was made; and
    Ark objects passed through, known by their address. *)
Inductive JsVal :=
| JsRaw (r : Raw)
| JsObject (id : nat) (fields : list (string * JsVal))
| JsMap (id : nat) (entries : list (JsVal * JsVal))
| JsArray (id : nat) (elems : list JsVal)
| JsArk (id : nat).

(** The loops of [toJs] over the properties of an object, the entries of
    a map and the elements of a list, for a given export of their members;
    [next] is the next free identity for a host object. *)
Section ExportLoops.
Variable export : Val → nat → option (JsVal * nat).

Fixpoint exportFields (fields : list (string * Val)) (next : nat)
  : option (list (string * JsVal) * nat) :=
  match fields with
  | [] => Some ([], next)
  | (k, v) :: fields' =>
      '(j, next1) ← export v next;
      '(js, next2) ← exportFields fields' next1;
      Some ((k, j) :: js, next2)
  end.

Fixpoint exportEntries (kvs : list (Val * Val)) (next : nat)
  : option (list (JsVal * JsVal) * nat) :=
  match kvs with
  | [] => Some ([], next)
  | (k, v) :: kvs' =>
      '(jk, next1) ← export k next;
      '(jv, next2) ← export v next1;
      '(js, next3) ← exportEntries kvs' next2;
      Some ((jk, jv) :: js, next3)
  end.

Fixpoint exportElems (vals : list Val) (next : nat)
  : option (list JsVal * nat) :=
  match vals with
  | [] => Some ([], next)
  | v :: vals' =>
      '(j, next1) ← export v next;
      '(js, next2) ← exportElems vals' next1;
      Some (j :: js, next2)
  end.
End ExportLoops.

(** [toJs].  An [Obj] is exported to a new object, a [DictLiteral] to a
    new [Map], a [ListLiteral] to a new array, each made before its
    contents are exported; any other object is returned as it is.  [fuel]
    bounds the depth of the recursion: [None] means that [fuel] nested
    calls were not enough (or that an address is dangling). *)
Fixpoint toJs (fuel : nat) (heap : list Cell) (val : Val) (next : nat)
  : option (JsVal * nat) :=
  match fuel with
  | O => None
  | S fuel =>
    match val with
    | ConcreteVal r => Some (JsRaw r, next)
    | Object id =>
        match heap !! id with
        | Some (Obj fields) =>
            '(obj, next') ← exportFields (toJs fuel heap) fields (S next);
            Some (JsObject next obj, next')
        | Some (DictLiteral kvs) =>
            '(jsMap, next') ← exportEntries (toJs fuel heap) kvs (S next);
            Some (JsMap next jsMap, next')
        | Some (ListLiteral vals) =>
            '(arr, next') ← exportElems (toJs fuel heap) vals (S next);
            Some (JsArray next arr, next')
        | Some _ => Some (JsArk id, next)
        | None => None
        end
    end
  end.

(** The host's [===]: raw scalars by value, NaN being equal to nothing,
    itself included; objects by identity.  A host object made by [toJs]
    is never an Ark object. *)
Definition strictEq (a b : JsVal) : bool :=
  match a, b with
  | JsRaw r1, JsRaw r2 => bool_decide (r1 = r2 ∧ r1 ≠ RawNaN)
  | JsArk i, JsArk j => bool_decide (i = j)
  | (JsObject i _ | JsMap i _ | JsArray i _),
    (JsObject j _ | JsMap j _ | JsArray j _) => bool_decide (i = j)
  | _, _ => false
  end.

(** [intrinsics['=']]: [Bool(toJs(left) === toJs(right))] *)
Definition intrinsic_eq (fuel : nat) (heap : list Cell) (left right : Val) (next : nat)
  : option (Val * nat) :=
  '(l, next1) ← toJs fuel heap left next;
  '(r, next2) ← toJs fuel heap right next1;
  Some (Bool (strictEq l r), next2).



(** [Map.prototype.set] on a property map. *)
Fixpoint mapSet (prop : string) (val : Val) (m : list (string * Val))
  : list (string * Val) :=
  match m with
  | [] => [(prop, val)]
  | (k, v) :: m' =>
      if decide (k = prop) then (prop, val) :: m' else (k, v) :: mapSet prop val m'
  end.

(** [PropRef.set] for the reference to property [prop] of the [Obj] at [obj]:
    [this.obj.val.set(this.prop, val)] *)
Definition PropRef_set (heap : list Cell) (obj : nat) (prop : string) (val : Val)
  : list Cell :=
  match heap !! obj with
  | Some (Obj fields) => <[obj := Obj (mapSet prop val fields)]> heap
  | _ => heap
  end.


(** ** The evaluator of [src/ark/interp.ts]

    Every [Val] of the source is an object: compiled code, closures,
    references and data alike.  The interned scalars are represented by
    their raw value, as above; every other object is a [Node] on the heap,
    known by its address.  The arrays that make up the stack are mutable and
    shared between stacks: they are kept in a store of their own, and a
    stack is the list of the addresses of its frames, innermost first. *)
Module Eval.

#[global] Instance Val_eq_dec : EqDecision Val.
Proof. solve_decision. Defined.

(** The bodies of the native functions: those of [intrinsics] that do
    not compute with numbers, and those a [DictLiteral] or a [ListLiteral]
    is born with, closed over [this].  [OtherBody] stands for the
    remaining ones ([pos], [neg], the arithmetic and the comparisons of
    numbers, [print], [debug], [JSON]), which are not embedded. *)
Inductive NativeBody :=
| not_body
| seq_body
| if_body
| and_body
| or_body
| loop_body
| break_body
| continue_body
| return_body
| eq_body
| ne_body
| Dict_set (this : nat)
| Dict_get (this : nat)
| List_get (this : nat)
| List_set (this : nat)
| OtherBody.

(** The classes of [Val], apart from [ConcreteVal].  [FexprClosure] and
    [Fexpr] stand for their subclasses [FnClosure] and [Fn] too, and
    [NativeFexpr] for [NativeFn], told apart by [isFn]; [Dict] is
    [DictLiteral] and its subclass [Dict], [List] is [ListLiteral] and
    its subclass [List], which override nothing; [Prop'] is the class
    [Prop].  The [freeVars] of a closure is the address of an array; the
    [boundFreeVars] of an [Fexpr] are given by the [level] and [index] of
    their [StackRef]. *)
Inductive Node :=
| FexprClosure (isFn : bool) (params : list string) (freeVars : nat) (body : Val)
| Fexpr (isFn : bool) (params : list string) (boundFreeVars : list (nat * nat)) (body : Val)
| NativeFexpr (isFn : bool) (name : string) (body : NativeBody)
| ValRef (val : Val)
| Get (val : Val)
| Ass (ref : Val) (val : Val)
| StackRef (level index : nat)
| StackRefRef (level index : nat)
| SymRef (ref : option Val)
| Obj (val : list (string * Val))
| ObjLiteral (val : list (string * Val))
| PropRef (obj : Val) (prop : string)
| Dict (val : list (string * Val)) (map : list (Val * Val))
| List (val : list (string * Val)) (list : list Val)
| Let (boundVars : list string) (body : Val)
| Call (fn : Val) (args : list Val)
| Prop' (prop : string) (ref : Val).

(** The node as [toJs] sees it: [toJs] tells [Obj], [DictLiteral] and
    [ListLiteral] from the rest, which it passes through. *)
Definition cell (node : Node) : Cell :=
  match node with
  | ValRef val => Interp.ValRef val
  | Obj val | ObjLiteral val => Interp.Obj val
  | Dict _ map => Interp.DictLiteral map
  | List _ list => Interp.ListLiteral list
  | NativeFexpr _ name _ => Interp.NativeFexpr name
  | _ => Interp.NativeFexpr ""
  end.

(** What is thrown: the interpreter's exceptions, an [Error] with its
    message, the [AssertionError] of a failed [assert], and the host's
    [TypeError]. *)
Inductive Thrown :=
| BreakException (val : Val)
| ReturnException (val : Val)
| ContinueException (val : Val)
| AssException (message : string)
| Error (message : string)
| AssertionError
| TypeError.

(** The outcome of a computation.  [HostUndefined]: the computation
    returned the host's [undefined], which is no [Val].  [Unmodelled]: the
    run left the embedded part of the program (a native that is not
    embedded, a dangling address, the host's [undefined] kept as a
    value).  [OutOfFuel]: the run needs more steps than it was given. *)
Inductive Outcome (A : Type) :=
| Ok (a : A)
| Throw (e : Thrown)
| HostUndefined
| Unmodelled
| OutOfFuel.
Arguments Ok {A} a.
Arguments Throw {A} e.
Arguments HostUndefined {A}.
Arguments Unmodelled {A}.
Arguments OutOfFuel {A}.

(** The state of the interpreter: [stack] is the [RuntimeStack] of the
    [ArkState]; [arrays] is the store of the arrays that are frames, and
    [heap] that of the objects, both implicit in the source. *)
Record ArkState := mkState {
  stack : list nat;
  arrays : list (list Val);
  heap : list Node
}.

(** [new ArkState()]: the stack [[[]]]. *)
Definition initialState : ArkState := mkState [0%nat] [[]] [].

Definition M (A : Type) : Type := ArkState → Outcome A * ArkState.

Definition ret {A} (a : A) : M A := fun ark => (Ok a, ark).

Definition throw {A} (e : Thrown) : M A := fun ark => (Throw e, ark).

(** [const a = m; k(a)] where [k] keeps [a] or passes it on as an
    argument.  The source does so as well when [a] is the host's
    [undefined]; such a run leaves the embedded part of the program. *)
Definition bind {A B} (m : M A) (k : A → M B) : M B := fun ark =>
  match m ark with
  | (Ok a, ark') => k a ark'
  | (Throw e, ark') => (Throw e, ark')
  | (HostUndefined, ark') => (Unmodelled, ark')
  | (Unmodelled, ark') => (Unmodelled, ark')
  | (OutOfFuel, ark') => (OutOfFuel, ark')
  end.

#[local] Notation "'let*' x ':=' m 'in' k" := (bind m (fun x => k))
  (at level 10, x pattern, m at level 100, k at level 200).

(** [try { m } catch (e) { handler e }] *)
Definition tryCatch {A} (m : M A) (handler : Thrown → M A) : M A := fun ark =>
  match m ark with
  | (Throw e, ark') => handler e ark'
  | r => r
  end.

(** [const a = m], then [k a], or [undefined] where [a] is the host's
    [undefined] and the source goes on with it: [undefined] where a class
    is tested ([undefined instanceof FexprClosure] is false), where a
    method is called ([undefined.get(stack)] throws a [TypeError]), where
    a truth value is taken. *)
Definition bindOr {A B} (m : M A) (k : A → M B) (undefined : M B) : M B := fun ark =>
  match m ark with
  | (Ok a, ark') => k a ark'
  | (Throw e, ark') => (Throw e, ark')
  | (HostUndefined, ark') => undefined ark'
  | (Unmodelled, ark') => (Unmodelled, ark')
  | (OutOfFuel, ark') => (OutOfFuel, ark')
  end.

(** [const res = m; after(); return res]: [after] runs when [m] returns,
    whatever it returns. *)
Definition andThen {A} (m : M A) (after : ArkState → ArkState) : M A := fun ark =>
  match m ark with
  | (Ok a, ark') => (Ok a, after ark')
  | (HostUndefined, ark') => (HostUndefined, after ark')
  | r => r
  end.

(** [for (const x of l) { res = f(x) }; return res]: what each turn
    returns replaces [res], the host's [undefined] like a value. *)
Fixpoint lastOf {A} (f : A → M Val) (l : list A) (res : Outcome Val) : M Val :=
  match l with
  | [] => fun ark => (res, ark)
  | x :: l' => fun ark =>
      match f x ark with
      | (Ok val, ark') => lastOf f l' (Ok val) ark'
      | (HostUndefined, ark') => lastOf f l' HostUndefined ark'
      | r => r
      end
  end.

(** [for (const x of l) { ys.push(f(x)) }] *)
Fixpoint mapM {A B} (f : A → M B) (l : list A) : M (list B) :=
  match l with
  | [] => ret []
  | x :: l' => let* y := f x in let* ys := mapM f l' in ret (y :: ys)
  end.

(** An outcome that leaves the state as it is. *)
Definition lift {A} (o : Outcome A) : M A := fun ark => (o, ark).

(** [new C(...)]: the new object is put at the end of the heap. *)
Definition new (node : Node) : M Val := fun ark =>
  (Ok (Object (length (heap ark))),
   mkState (stack ark) (arrays ark) (heap ark ++ [node])).

(** An array that becomes a frame is put at the end of the store. *)
Definition newArray (items : list Val) : M nat := fun ark =>
  (Ok (length (arrays ark)),
   mkState (stack ark) (arrays ark ++ [items]) (heap ark)).

Definition getStack : M (list nat) := fun ark => (Ok (stack ark), ark).

(** [ark.stack = stack] *)
Definition setStack (stack : list nat) : M unit := fun ark =>
  (Ok tt, mkState stack (arrays ark) (heap ark)).

Definition setNode (id : nat) (node : Node) : M unit := fun ark =>
  (Ok tt, mkState (stack ark) (arrays ark) (<[id := node]> (heap ark))).

(** [ark.stack = oldStack] *)
Definition restoreStack (oldStack : list nat) (ark : ArkState) : ArkState :=
  mkState oldStack (arrays ark) (heap ark).

(** ** The stack *)

(** [Stack.push]: the new stack has a new innermost frame, [items]
    followed by the elements of the old one, and the other frames of the
    old stack. *)
Definition Stack_push (this : list nat) (items : list Val) : M (list nat) :=
  match this with
  | [] => throw TypeError
  | frame0 :: outer => fun ark =>
      match arrays ark !! frame0 with
      | Some old => (let* frame := newArray (items ++ old) in ret (frame :: outer)) ark
      | None => (Unmodelled, ark)
      end
  end.

(** [Stack.pushFrame] *)
Definition Stack_pushFrame (this : list nat) (frame : nat) : list nat :=
  frame :: this.

(** [stack.stack[level][index]] *)
Definition stackIndex (stack : list nat) (level index : nat) (ark : ArkState)
  : Outcome Val :=
  match stack !! level with
  | None => Throw TypeError
  | Some frame =>
      match arrays ark !! frame with
      | None => Unmodelled
      | Some items =>
          match items !! index with
          | Some val => Ok val
          | None => HostUndefined
          end
      end
  end.

(** [stack.stack[level][index] = val]: an index at the end of the
    array extends it; one past the end would leave holes, which are not
    embedded. *)
Definition stackAssign (stack : list nat) (level index : nat) (val : Val) : M unit :=
  fun ark =>
    match stack !! level with
    | None => (Throw TypeError, ark)
    | Some frame =>
        match arrays ark !! frame with
        | None => (Unmodelled, ark)
        | Some items =>
            if (index <? length items)%nat then
              (Ok tt, mkState (Eval.stack ark)
                        (<[frame := <[index := val]> items]> (arrays ark)) (heap ark))
            else if (index =? length items)%nat then
              (Ok tt, mkState (Eval.stack ark)
                        (<[frame := items ++ [val]]> (arrays ark)) (heap ark))
            else (Unmodelled, ark)
        end
    end.

(** ** Objects with properties *)

(** The [val] of a [Class]: its property map. *)
Definition classVal (node : Node) : option (list (string * Val)) :=
  match node with
  | Obj val | ObjLiteral val | Dict val _ | List val _ => Some val
  | _ => None
  end.

Definition setClassVal (node : Node) (val : list (string * Val)) : Node :=
  match node with
  | Obj _ => Obj val
  | ObjLiteral _ => ObjLiteral val
  | Dict _ map => Dict val map
  | List _ list => List val list
  | other => other
  end.

(** [Map.prototype.get] on a property map. *)
Fixpoint mapGet (prop : string) (m : list (string * Val)) : option Val :=
  match m with
  | [] => None
  | (k, v) :: m' => if decide (k = prop) then Some v else mapGet prop m'
  end.

(** [Map.prototype.get] and [Map.prototype.set] on the map of a
    dictionary; its keys are values, the same key when the same object. *)
Fixpoint dictGet (index : Val) (m : list (Val * Val)) : option Val :=
  match m with
  | [] => None
  | (k, v) :: m' => if decide (k = index) then Some v else dictGet index m'
  end.

Fixpoint dictSet (index val : Val) (m : list (Val * Val)) : list (Val * Val) :=
  match m with
  | [] => [(index, val)]
  | (k, v) :: m' =>
      if decide (k = index) then (index, val) :: m' else (k, v) :: dictSet index val m'
  end.

(** [PropRef.get]: [this.obj.val.get(this.prop) ?? Null()].  The [val]
    of an interned scalar is the raw scalar, which has no [get]; objects
    of the classes that are no [Class] are not followed. *)
Definition PropRef_get (obj : Val) (prop : string) : M Val := fun ark =>
  match obj with
  | ConcreteVal _ => (Throw TypeError, ark)
  | Object id =>
      match heap ark !! id ≫= classVal with
      | Some val => (Ok (default Null (mapGet prop val)), ark)
      | None => (Unmodelled, ark)
      end
  end.

(** [PropRef.set]: [this.obj.val.set(this.prop, val); return val] *)
Definition PropRef_set (obj : Val) (prop : string) (val : Val) : M Val := fun ark =>
  match obj with
  | ConcreteVal _ => (Throw TypeError, ark)
  | Object id =>
      match heap ark !! id with
      | Some node =>
          match classVal node with
          | Some m =>
              (Ok val, mkState (stack ark) (arrays ark)
                         (<[id := setClassVal node (mapSet prop val m)]> (heap ark)))
          | None => (Unmodelled, ark)
          end
      | None => (Unmodelled, ark)
      end
  end.

(** ** References *)

(** [ref.get(stack)], by the class of [ref]: [ValRef.get],
    [StackRef.get], [StackRefRef.get], [PropRef.get], [SymRef.get]; a
    value of another class has no [get]. *)
Fixpoint Ref_get (fuel : nat) (stack : list nat) (ref : Val) : M Val :=
  match fuel with
  | O => lift OutOfFuel
  | S fuel =>
    match ref with
    | ConcreteVal _ => throw TypeError
    | Object id => fun ark =>
        match heap ark !! id with
        | Some (ValRef val) => (Ok val, ark)
        | Some (StackRef level index) => (stackIndex stack level index ark, ark)
        | Some (StackRefRef level index) =>
            match stackIndex stack level index ark with
            | Ok ref' => Ref_get fuel stack ref' ark
            | HostUndefined => (Throw TypeError, ark)
            | other => (other, ark)
            end
        | Some (PropRef obj prop) => PropRef_get obj prop ark
        | Some (SymRef ref') =>
            match ref' with
            | Some ref' => Ref_get fuel stack ref' ark
            | None => (Throw TypeError, ark)
            end
        | Some _ => (Throw TypeError, ark)
        | None => (Unmodelled, ark)
        end
    end
  end.

(** [ref.set(stack, val)], by the class of [ref]; every [set] returns
    [val]. *)
Fixpoint Ref_set (fuel : nat) (stack : list nat) (ref val : Val) : M Val :=
  match fuel with
  | O => lift OutOfFuel
  | S fuel =>
    match ref with
    | ConcreteVal _ => throw TypeError
    | Object id => fun ark =>
        match heap ark !! id with
        | Some (ValRef _) => (let* _ := setNode id (ValRef val) in ret val) ark
        | Some (StackRef level index) =>
            (let* _ := stackAssign stack level index val in ret val) ark
        | Some (StackRefRef level index) =>
            match stackIndex stack level index ark with
            | Ok ref' => (let* _ := Ref_set fuel stack ref' val in ret val) ark
            | HostUndefined => (Throw TypeError, ark)
            | other => (other, ark)
            end
        | Some (PropRef obj prop) => PropRef_set obj prop val ark
        | Some (SymRef ref') =>
            match ref' with
            | Some ref' => Ref_set fuel stack ref' val ark
            | None => (Throw TypeError, ark)
            end
        | Some _ => (Throw TypeError, ark)
        | None => (Unmodelled, ark)
        end
    end
  end.

(** [ref instanceof Ref || ref instanceof SymRef] *)
Definition isRefOrSymRef (ref : Val) (ark : ArkState) : bool :=
  match ref with
  | ConcreteVal _ => false
  | Object id =>
      match heap ark !! id with
      | Some (ValRef _ | StackRef _ _ | StackRefRef _ _ | PropRef _ _ | SymRef _) => true
      | _ => false
      end
  end.

(** ** Dictionaries and lists *)

(** [new Dict(map)]: the property map is made of two new native
    functions, closed over the new dictionary. *)
Definition newDict (map : list (Val * Val)) : M Val := fun ark =>
  let this := (length (heap ark) + 2)%nat in
  (let* set := new (NativeFexpr true "Dict.set" (Dict_set this)) in
   let* get := new (NativeFexpr true "Dict.get" (Dict_get this)) in
   new (Dict [("set", set); ("get", get)] map)) ark.

(** [new List(list)]: two new native functions, and the [length] that
    the list has now. *)
Definition newList (list : list Val) : M Val := fun ark =>
  let this := (length (heap ark) + 2)%nat in
  (let* get := new (NativeFexpr true "List.get" (List_get this)) in
   let* set := new (NativeFexpr true "List.set" (List_set this)) in
   new (List (mapSet "length" (Num (Z.of_nat (length list)))
                [("get", get); ("set", set)]) list)) ark.

(** [bindArgsToParams] in the heap of nodes, where the [List] of the
    surplus arguments comes with its native functions; the result is the
    new array. *)
Fixpoint bindParams (params : list string) (args : list Val) : M (list Val) :=
  match params with
  | [] => ret []
  | _ :: params' =>
      let* ref := new (ValRef (default Null (head args))) in
      let* frame := bindParams params' (tail args) in
      ret (ref :: frame)
  end.

Definition bindArgsToParams (params : list string) (args : list Val) : M (list Val) :=
  let* frame := bindParams params args in
  if (length params <? length args)%nat then
    let* rest := newList (drop (length params) args) in
    let* ref := new (ValRef rest) in
    ret (frame ++ [ref])
  else ret frame.

(** [ArkState.captureFreeVars]: one new [ValRef] for each bound free
    variable, holding [this.stack.pushFrame([]).stack[loc.level][loc.index]];
    a [ValRef] made of [undefined] holds [Null()]. *)
Definition captureFreeVars (boundFreeVars : list (nat * nat)) : M (list Val) :=
  mapM (fun loc : nat * nat => fun ark =>
          match (0%nat :: stack ark) !! fst loc with
          | None => (Throw TypeError, ark)
          | Some _ =>
              match fst loc with
              | O => new (ValRef Null) ark
              | S level =>
                  match stackIndex (stack ark) level (snd loc) ark with
                  | Ok val => new (ValRef val) ark
                  | HostUndefined => new (ValRef Null) ark
                  | other => (other, ark)
                  end
              end
          end) boundFreeVars.

(** The truth value of a host value. *)
Definition truthy (j : JsVal) : bool :=
  match j with
  | JsRaw RawNull => false
  | JsRaw (RawBoolean b) => b
  | JsRaw (RawNumber n) => negb (n =? 0)%Z
  | JsRaw RawNaN => false
  | JsRaw (RawString s) => negb (String.eqb s "")
  | _ => true
  end.

(** [toJs(val)] in the current heap; the host objects it makes are
    numbered from [0]. *)
Definition export (fuel : nat) (val : Val) : M JsVal := fun ark =>
  match toJs fuel (cell <$> heap ark) val 0 with
  | Some (j, _) => (Ok j, ark)
  | None => (OutOfFuel, ark)
  end.

(** [intrinsics['!=']]: [Bool(toJs(left) !== toJs(right))] *)
Definition intrinsic_ne (fuel : nat) (heap : list Cell) (left' right' : Val) (next : nat)
  : option (Val * nat) :=
  '(l, next1) ← toJs fuel heap left' next;
  '(r, next2) ← toJs fuel heap right' next1;
  Some (Bool (negb (strictEq l r)), next2).

(** A native that exports its arguments, in the current heap. *)
Definition exporting (f : list Cell → nat → option (Val * nat)) : M Val := fun ark =>
  match f (cell <$> heap ark) 0%nat with
  | Some (val, _) => (Ok val, ark)
  | None => (OutOfFuel, ark)
  end.

(** [this.list[toJs(index)]] for a number [index]; an index that is
    no number is not embedded. *)
Definition List_index (items : list Val) (index : Val) : Outcome Val :=
  match index with
  | ConcreteVal (RawNumber n) =>
      if (n <? 0)%Z then HostUndefined
      else match items !! Z.to_nat n with
           | Some val => Ok val
           | None => HostUndefined
           end
  | ConcreteVal RawNaN => HostUndefined
  | _ => Unmodelled
  end.

(** [this.list[toJs(index)] = val] for an integral [index] within the
    list or at its end. *)
Definition List_assign (items : list Val) (index val : Val) : Outcome (list Val) :=
  match index with
  | ConcreteVal (RawNumber n) =>
      if (n <? 0)%Z then Unmodelled
      else if (Z.to_nat n <? length items)%nat then Ok (<[Z.to_nat n := val]> items)
      else if (Z.to_nat n =? length items)%nat then Ok (items ++ [val])
      else Unmodelled
  | _ => Unmodelled
  end.

(** ** Evaluation *)

(** [eval] embeds the [eval] methods of the classes, [callNative] the
    bodies of the native functions, applied to [args]; the natives of
    [Fexpr] kind are given their arguments unevaluated.  [fuel] bounds
    the depth of the evaluation and the number of turns of a loop.  An
    evaluation whose part returns the host's [undefined] goes on as the
    source does, up to where the [undefined] would be kept (see
    [bind]). *)
Fixpoint eval (fuel : nat) (this : Val) : M Val :=
  match fuel with
  | O => lift OutOfFuel
  | S fuel =>
    match this with
    | ConcreteVal _ => ret this
    | Object id => fun ark =>
      match heap ark !! id with
      | None => (Unmodelled, ark)
      | Some node =>
        match node with
        | Fexpr isFn params boundFreeVars body =>
            (let* frame := captureFreeVars boundFreeVars in
             let* freeVars := newArray frame in
             new (FexprClosure isFn params freeVars body)) ark
        | Get val =>
            bindOr (eval fuel val)
              (fun ref => let* stack := getStack in Ref_get fuel stack ref)
              (throw TypeError) ark
        | Ass ref val =>
            bindOr (eval fuel ref)
              (fun ref =>
                 let* res := eval fuel val in
                 fun ark =>
                   if isRefOrSymRef ref ark then
                     (let* stack := getStack in
                      let* _ := Ref_set fuel stack ref res in
                      ret res) ark
                   else (Throw (AssException "assignment to non-Ref/SymRef"), ark))
              (bindOr (eval fuel val)
                 (fun _ => throw (AssException "assignment to non-Ref/SymRef"))
                 (throw (AssException "assignment to non-Ref/SymRef"))) ark
        | SymRef _ =>
            (let* stack := getStack in Ref_get fuel stack this) ark
        | ObjLiteral val =>
            (let* inits :=
               mapM (fun kv : string * Val =>
                       let* v := eval fuel (snd kv) in ret (fst kv, v)) val in
             new (Obj (foldl (fun m kv => mapSet (fst kv) (snd kv) m) [] inits))) ark
        | Dict _ map =>
            (let* evaluated :=
               mapM (fun kv : Val * Val =>
                       let* k := eval fuel (fst kv) in
                       let* v := eval fuel (snd kv) in
                       ret (k, v)) map in
             newDict (foldl (fun m kv => dictSet (fst kv) (snd kv) m) [] evaluated)) ark
        | List _ list =>
            (let* evaluated := mapM (eval fuel) list in newList evaluated) ark
        | Let boundVars body =>
            (let* frame := bindArgsToParams boundVars [] in
             let* oldStack := getStack in
             let* stack := Stack_push oldStack frame in
             let* _ := setStack stack in
             andThen (eval fuel body) (restoreStack oldStack)) ark
        | Call fn args =>
            bindOr (eval fuel fn)
             (fun fn ark =>
               match fn with
               | ConcreteVal _ => (Throw (Error "invalid Call"), ark)
               | Object f =>
                   match heap ark !! f with
                   | Some (FexprClosure isFn params freeVars body) =>
                       (let* args := if isFn then mapM (eval fuel) args else ret args in
                        tryCatch
                          (let* frame := bindArgsToParams params args in
                           let* oldStack := getStack in
                           let* frame := newArray frame in
                           let* _ :=
                             setStack
                               (Stack_pushFrame (Stack_pushFrame oldStack freeVars) frame) in
                           andThen (eval fuel body) (restoreStack oldStack))
                          (fun e =>
                             match e with
                             | ReturnException val => ret val
                             | _ => throw e
                             end)) ark
                   | Some (NativeFexpr isFn _ body) =>
                       (let* args := if isFn then mapM (eval fuel) args else ret args in
                        callNative fuel body args) ark
                   | Some _ => (Throw (Error "invalid Call"), ark)
                   | None => (Unmodelled, ark)
                   end
               end)
             (throw (Error "invalid Call")) ark
        | Prop' prop ref =>
            (let* obj := eval fuel ref in new (PropRef obj prop)) ark
        | _ => (Ok this, ark)
        end
      end
    end
  end

with callNative (fuel : nat) (body : NativeBody) (args : list Val) : M Val :=
  match fuel with
  | O => lift OutOfFuel
  | S fuel =>
    match body with
    | not_body =>
        match args with
        | val :: _ => let* j := export fuel val in ret (Bool (negb (truthy j)))
        | [] => ret (Bool true)
        end
    | seq_body => lastOf (eval fuel) args (Ok Null)
    | if_body =>
        match args with
        | cond :: rest =>
            let otherwise :=
              match rest with
              | _ :: e_else :: _ => eval fuel e_else
              | _ => ret Null
              end in
            bindOr (eval fuel cond)
              (fun condVal =>
                 let* j := export fuel condVal in
                 if truthy j then
                   match rest with
                   | e_then :: _ => eval fuel e_then
                   | [] => throw TypeError
                   end
                 else otherwise)
              otherwise
        | [] => throw TypeError
        end
    | and_body =>
        match args with
        | left' :: rest =>
            bindOr (eval fuel left')
              (fun leftVal =>
                 let* j := export fuel leftVal in
                 if truthy j then
                   match rest with
                   | right' :: _ => eval fuel right'
                   | [] => throw TypeError
                   end
                 else ret leftVal)
              (lift HostUndefined)
        | [] => throw TypeError
        end
    | or_body =>
        match args with
        | left' :: rest =>
            let otherwise :=
              match rest with
              | right' :: _ => eval fuel right'
              | [] => throw TypeError
              end in
            bindOr (eval fuel left')
              (fun leftVal =>
                 let* j := export fuel leftVal in
                 if truthy j then ret leftVal else otherwise)
              otherwise
        | [] => throw TypeError
        end
    | loop_body =>
        match args with
        | body' :: _ => fun ark =>
            match eval fuel body' ark with
            | (Ok _, ark') | (HostUndefined, ark') => callNative fuel loop_body args ark'
            | (Throw (BreakException val), ark') => (Ok val, ark')
            | (Throw (ContinueException _), ark') => callNative fuel loop_body args ark'
            | r => r
            end
        | [] => throw TypeError
        end
    | break_body => throw (BreakException (default Null (head args)))
    | continue_body => throw (ContinueException Null)
    | return_body => throw (ReturnException (default Null (head args)))
    | eq_body =>
        match args with
        | left' :: right' :: _ =>
            exporting (fun heap => intrinsic_eq fuel heap left' right')
        | _ => lift Unmodelled
        end
    | ne_body =>
        match args with
        | left' :: right' :: _ =>
            exporting (fun heap => intrinsic_ne fuel heap left' right')
        | _ => lift Unmodelled
        end
    | Dict_set this =>
        match args with
        | index :: val :: _ => fun ark =>
            match heap ark !! this with
            | Some (Dict props map) =>
                (let* _ := setNode this (Dict props (dictSet index val map)) in ret val) ark
            | _ => (Unmodelled, ark)
            end
        | _ => lift Unmodelled
        end
    | Dict_get this =>
        match args with
        | index :: _ => fun ark =>
            match heap ark !! this with
            | Some (Dict _ map) => (Ok (default Null (dictGet index map)), ark)
            | _ => (Unmodelled, ark)
            end
        | [] => lift Unmodelled
        end
    | List_get this =>
        match args with
        | index :: _ => fun ark =>
            match heap ark !! this with
            | Some (List _ list) => (List_index list index, ark)
            | _ => (Unmodelled, ark)
            end
        | [] => lift Unmodelled
        end
    | List_set this =>
        match args with
        | index :: val :: _ => fun ark =>
            match heap ark !! this with
            | Some (List props list) =>
                match List_assign list index val with
                | Ok list' => (let* _ := setNode this (List props list') in ret val) ark
                | Throw e => (Throw e, ark)
                | HostUndefined => (HostUndefined, ark)
                | Unmodelled => (Unmodelled, ark)
                | OutOfFuel => (OutOfFuel, ark)
                end
            | _ => (Unmodelled, ark)
            end
        | _ => lift Unmodelled
        end
    | OtherBody => lift Unmodelled
    end
  end.

(** ** The constructor of [Fexpr] *)

(** The loop of the constructor over the [SymRef]s of one free
    variable: a [SymRef] that refers to a [StackRef] is made to refer to a
    new [StackRefRef(1, numStackFreeVars - 1)], after the first such
    [SymRef] has added its [StackRef] to [boundFreeVars].
    [numStackFreeVars] is the length of [boundFreeVars] throughout. *)
Fixpoint bindSymrefs (symrefs : list Val) (isStackFreeVar : bool)
    (boundFreeVars : list (nat * nat)) : M (bool * list (nat * nat)) :=
  match symrefs with
  | [] => ret (isStackFreeVar, boundFreeVars)
  | symref :: rest => fun ark =>
      match symref with
      | ConcreteVal _ => (Unmodelled, ark)
      | Object s =>
          match heap ark !! s with
          | Some (SymRef loc) =>
              match loc with
              | None => (Throw AssertionError, ark)
              | Some (ConcreteVal _) => bindSymrefs rest isStackFreeVar boundFreeVars ark
              | Some (Object l) =>
                  match heap ark !! l with
                  | Some (StackRefRef _ _) => (Throw AssertionError, ark)
                  | Some (StackRef level index) =>
                      if (level =? 0)%nat then (Throw AssertionError, ark)
                      else
                        let boundFreeVars' :=
                          if isStackFreeVar then boundFreeVars
                          else boundFreeVars ++ [(level, index)] in
                        (let* ref := new (StackRefRef 1 (length boundFreeVars' - 1)) in
                         let* _ := setNode s (SymRef (Some ref)) in
                         bindSymrefs rest true boundFreeVars') ark
                  | Some _ => bindSymrefs rest isStackFreeVar boundFreeVars ark
                  | None => (Unmodelled, ark)
                  end
              end
          | _ => (Unmodelled, ark)
          end
      end
  end.

(** The loop over the free variables. *)
Fixpoint bindFreeVars (freeVars : list (string * list Val))
    (boundFreeVars : list (nat * nat)) : M (list (nat * nat)) :=
  match freeVars with
  | [] => ret boundFreeVars
  | (_, symrefs) :: rest =>
      let* r := bindSymrefs symrefs false boundFreeVars in
      bindFreeVars rest (snd r)
  end.

(** [new Fexpr(params, freeVars, body)] and [new Fn(params, freeVars, body)] *)
Definition newFexpr (isFn : bool) (params : list string)
    (freeVars : list (string * list Val)) (body : Val) : M Val :=
  let* boundFreeVars := bindFreeVars freeVars [] in
  new (Fexpr isFn params boundFreeVars body).

(** The [StackRef] that the [SymRef] [symref] refers to, if it does. *)
Definition stackLoc (heap : list Node) (symref : Val) : option (nat * nat) :=
  match symref with
  | Object s =>
      match heap !! s with
      | Some (SymRef (Some (Object l))) =>
          match heap !! l with
          | Some (StackRef level index) => Some (level, index)
          | _ => None
          end
      | _ => None
      end
  | ConcreteVal _ => None
  end.

(** [symref] is a linked [SymRef] on which no assertion of the
    constructor of [Fexpr] fails. *)
Definition bindable (heap : list Node) (symref : Val) : Prop :=
  ∃ s loc,
    symref = Object s ∧ heap !! s = Some (SymRef (Some loc))
    ∧ match loc with
      | ConcreteVal _ => True
      | Object l =>
          match heap !! l with
          | Some (StackRef level _) => level ≠ 0%nat
          | Some (StackRefRef _ _) | None => False
          | Some _ => True
          end
      end.

(** The heap [heap'] comes from [heap] by the constructor of [Fexpr]
    working on the [SymRef]s [touched]: only these have changed, they are
    still [SymRef]s, and what is new is a [StackRefRef]. *)
Definition rebound (touched : list Val) (heap heap' : list Node) : Prop :=
  (∀ id node, heap !! id = Some node → Object id ∉ touched → heap' !! id = Some node)
  ∧ (∀ id node, heap !! id = Some node → (∀ ref, node ≠ SymRef ref) →
       heap' !! id = Some node)
  ∧ (∀ id ref, heap !! id = Some (SymRef ref) →
       ∃ ref', heap' !! id = Some (SymRef ref'))
  ∧ (∀ id node, heap !! id = None → heap' !! id = Some node →
       ∃ index, node = StackRefRef 1 index).

(** ** Linking and running *)

(** [symref.ref = new ValRef(val)] for each of [symrefs] *)
Fixpoint linkSymrefs (val : Val) (symrefs : list Val) : M unit :=
  match symrefs with
  | [] => ret tt
  | symref :: rest =>
      let* ref := new (ValRef val) in
      fun ark =>
        match symref with
        | Object id =>
            match heap ark !! id with
            | Some (SymRef _) =>
                (let* _ := setNode id (SymRef (Some ref)) in linkSymrefs val rest) ark
            | _ => (Unmodelled, ark)
            end
        | ConcreteVal _ => (Unmodelled, ark)
        end
  end.

(** [link]: [freeVars] maps the name of each free variable to its
    [SymRef]s, [env] each name it knows to a value. *)
Fixpoint linkFreeVars (freeVars : list (string * list Val)) (env : gmap string Val)
  : M unit :=
  match freeVars with
  | [] => ret tt
  | (name, symrefs) :: rest =>
      match env !! name with
      | None => throw (Error ("undefined symbol " ++ name))
      | Some val => let* _ := linkSymrefs val symrefs in linkFreeVars rest env
      end
  end.

Definition link (compiledVal : Val * list (string * list Val)) (env : gmap string Val)
  : M Val :=
  let* _ := linkFreeVars (snd compiledVal) env in ret (fst compiledVal).

(** [ArkState.run] *)
Definition run (fuel : nat) (compiledVal : Val * list (string * list Val))
    (env : gmap string Val) : M Val :=
  let* val := link compiledVal env in
  let* frame := newArray [] in
  let* _ := setStack [frame] in
  eval fuel val.

End Eval.

End Interp.

(* ================================================================== *)
(** * Properties of the frame-based interpreter *)
(* ================================================================== *)

Import Ark.

(** ** Binding arguments to parameters *)

Lemma makeValRefs_fst vals h :
  fst (makeValRefs vals h) = map ArkValRef (seq (nextRef h) (length vals)).
Proof.
  revert h. induction vals as [|v vals IH]; intros h; simpl; [done|].
  specialize (IH (snd (newValRef v h))). simpl in IH.
  destruct (makeValRefs vals _) as [rs h2]. simpl in *. by rewrite IH.
Qed.

Lemma makeValRefs_heap vals h :
  let h' := snd (makeValRefs vals h) in
  nextRef h' = (nextRef h + length vals)%nat
  ∧ objs h' = objs h ∧ gens h' = gens h
  ∧ ∀ l, refs h' !! l =
         if decide (nextRef h ≤ l < nextRef h + length vals)%nat
         then vals !! (l - nextRef h)%nat
         else refs h !! l.
Proof.
  revert h. induction vals as [|v vals IH]; intros h; simpl.
  - repeat split; [lia|]. intros l. case_decide; [lia|done].
  - specialize (IH (snd (newValRef v h))). simpl in IH.
    destruct (makeValRefs vals _) as [rs h2]. simpl in *.
    destruct IH as (Hn & Ho & Hg & Hl). repeat split; [lia|done|done|].
    intros l. rewrite Hl. repeat case_decide; try lia.
    + replace (l - nextRef h)%nat with (S (l - S (nextRef h))) by lia. done.
    + assert (l = nextRef h) as -> by lia.
      rewrite lookup_insert_eq. by rewrite Nat.sub_diag.
    + rewrite lookup_insert_ne; [done|lia].
Qed.

Lemma makeValRefs_app vals1 vals2 h :
  makeValRefs (vals1 ++ vals2) h =
  let '(rs1, h1) := makeValRefs vals1 h in
  let '(rs2, h2) := makeValRefs vals2 h1 in
  (rs1 ++ rs2, h2).
Proof.
  revert h. induction vals1 as [|v vals1 IH]; intros h; simpl.
  - by destruct (makeValRefs vals2 h).
  - rewrite IH. destruct (makeValRefs vals1 _) as [rs1 h1].
    by destruct (makeValRefs vals2 h1).
Qed.

Lemma makeParamRefs_makeValRefs names vals h :
  makeParamRefs names vals h =
  makeValRefs (take (length names) (boundVals names vals)) h.
Proof.
  revert vals h. induction names as [|x names IH]; intros vals h; [done|].
  simpl. rewrite IH. destruct vals as [|v vals]; simpl.
  - unfold boundVals. simpl. rewrite Nat.sub_0_r. done.
  - done.
Qed.

Lemma makeLocals_makeValRefs names vals h :
  makeLocals names vals h = makeValRefs (boundVals names vals) h.
Proof.
  unfold makeLocals. rewrite makeParamRefs_makeValRefs.
  destruct (Nat.ltb_spec (length names) (length vals)) as [Hlt|Hge].
  - assert (boundVals names vals = take (length names) (boundVals names vals)
                                   ++ drop (length names) vals) as Heq.
    { unfold boundVals. replace (length names - length vals)%nat with 0%nat by lia.
      simpl. rewrite app_nil_r. by rewrite take_drop. }
    rewrite Heq at 2. rewrite makeValRefs_app.
    destruct (makeValRefs (take _ _) h) as [rs1 h1].
    by destruct (makeValRefs (drop _ _) h1).
  - rewrite take_ge; [by destruct (makeValRefs _ h)|].
    unfold boundVals. rewrite length_app, length_replicate. lia.
Qed.

Lemma bindParams_spec params args heap :
  let frame := fst (Interp.bindParams params args heap) in
  let heap' := snd (Interp.bindParams params args heap) in
  length frame = length params
  ∧ length heap' = (length heap + length params)%nat
  ∧ (∀ id, (id < length heap)%nat → heap' !! id = heap !! id)
  ∧ ∀ i, (i < length params)%nat →
      frame !! i = Some (Interp.Object (length heap + i))
      ∧ heap' !! (length heap + i)%nat
        = Some (Interp.ValRef (default Interp.Null (args !! i))).
Proof.
  revert args heap. induction params as [|x params IH]; intros args heap; simpl.
  - repeat split; lia.
  - specialize (IH (tail args) (heap ++ [Interp.ValRef (default Interp.Null (head args))])).
    destruct (Interp.bindParams params (tail args) _) as [frame heap2].
    simpl in *. rewrite length_app in IH. simpl in IH.
    destruct IH as (Hlen & Hheap & Hold & Hi). split; [lia|]. split; [lia|]. split.
    + intros id Hid. rewrite Hold by lia. by rewrite lookup_app_l.
    + intros [|i] Hlt; simpl.
      * rewrite Nat.add_0_r. split; [done|]. rewrite Hold by lia.
        rewrite lookup_app_r by lia. rewrite Nat.sub_diag. simpl. by destruct args.
      * destruct (Hi i) as [Hf Hh]; [lia|]. rewrite Hf.
        replace (length heap + 1 + i)%nat with (length heap + S i)%nat in * by lia.
        split; [done|]. rewrite Hh. by destruct args.
Qed.

(** C1 (as amended): the arguments of a call are bound to the parameters
    by position.  In the frame-based interpreter a closure is called in a
    new frame whose captures are the closure's and whose locals are made
    by [makeLocals] from the closure's parameters and the values of the
    arguments; the caller's frame is as the arguments left it.  These
    locals are new value references, one per parameter and per argument,
    whichever are more: local [i] holds argument [i], or [ArkUndefined]
    when parameter [i] has no argument; surplus arguments are bound one by
    one to extra locals after the parameters, and no list is built.  In
    the early interpreter ([bindArgsToParams]) a parameter without an
    argument is bound to the null value, and the surplus arguments are
    collected into one list bound to one extra trailing reference. *)
Theorem arguments_bound_positionally :
  (∀ toJs_truthy fuel fn args ark params caps body ark1 vals ark2,
     eval toJs_truthy fuel fn ark = (Ok (ArkClosure params caps body), ark1) →
     mapM (eval toJs_truthy fuel) args ark1 = (Ok vals, ark2) →
     eval toJs_truthy (S fuel) (ArkCall fn args) ark
     = (fst (call toJs_truthy fuel (ArkClosure params caps body)
               (mkState (mkFrame (fst (makeLocals params vals (heap ark2))) caps)
                        (snd (makeLocals params vals (heap ark2))))),
        mkState (frame ark2)
          (heap (snd (call toJs_truthy fuel (ArkClosure params caps body)
                        (mkState (mkFrame (fst (makeLocals params vals (heap ark2))) caps)
                                 (snd (makeLocals params vals (heap ark2)))))))))
  ∧ (∀ names vals h,
     let locals := fst (makeLocals names vals h) in
     let h' := snd (makeLocals names vals h) in
     length locals = max (length names) (length vals)
     ∧ objs h' = objs h
     ∧ ∀ i, (i < max (length names) (length vals))%nat →
         locals !! i = Some (ArkValRef (nextRef h + i))
         ∧ refGet (ArkValRef (nextRef h + i)) h'
           = Ok (default ArkUndefined (vals !! i)))
  ∧ (∀ params args heap,
       let frame := fst (Interp.bindArgsToParams params args heap) in
       let heap' := snd (Interp.bindArgsToParams params args heap) in
       (∀ i, (i < length params)%nat →
          ∃ id, frame !! i = Some (Interp.Object id)
                ∧ heap' !! id
                  = Some (Interp.ValRef (default Interp.Null (args !! i))))
       ∧ ((length args ≤ length params)%nat → length frame = length params)
       ∧ ((length params < length args)%nat →
            length frame = S (length params)
            ∧ ∃ id id',
                frame !! length params = Some (Interp.Object id)
                ∧ heap' !! id = Some (Interp.ValRef (Interp.Object id'))
                ∧ heap' !! id'
                  = Some (Interp.ListLiteral (drop (length params) args)))).
Proof.
  split; [|split].
  - intros toJs_truthy fuel fn args ark params caps body ark1 vals ark2 Hfn Hargs.
    cbn [eval]. unfold bind, onUndefined. rewrite Hfn. cbn [isArkCallable negb].
    rewrite Hargs. cbn [paramsOf capturesOf].
    destruct (makeLocals params vals (heap ark2)) as [locals h]. cbn [fst snd].
    by destruct (call toJs_truthy fuel _ _).
  - intros names vals h locals h'. subst locals h'.
    rewrite makeLocals_makeValRefs.
    pose proof (makeValRefs_fst (boundVals names vals) h) as Hfst.
    pose proof (makeValRefs_heap (boundVals names vals) h) as (Hn & Ho & Hg & Hl).
    assert (length (boundVals names vals) = max (length names) (length vals)) as Hlen.
    { unfold boundVals. rewrite length_app, length_replicate. lia. }
    rewrite Hfst, length_map, length_seq, Hlen.
    split; [done|]. split; [done|]. intros i Hi. split.
    + rewrite list_lookup_fmap, lookup_seq_lt by lia. done.
    + simpl. rewrite Hl. rewrite decide_True by lia.
      replace (nextRef h + i - nextRef h)%nat with i by lia.
      unfold boundVals. destruct (decide (i < length vals)%nat) as [Hlt|Hge].
      * rewrite lookup_app_l by done.
        destruct (lookup_lt_is_Some_2 vals i Hlt) as [v ->]. done.
      * rewrite lookup_app_r by lia. rewrite lookup_replicate_2 by lia.
        rewrite (lookup_ge_None_2 vals i) by lia. done.
  - intros params args heap frame heap'. subst frame heap'.
    unfold Interp.bindArgsToParams.
    pose proof (bindParams_spec params args heap) as (Hlen & Hheap & Hold & Hi).
    destruct (Interp.bindParams params args heap) as [frame heap1]. simpl in *.
    destruct (Nat.ltb_spec (length params) (length args)) as [Hlt|Hge]; simpl.
    + split; [|split].
      * intros i Hlti. exists (length heap + i)%nat.
        destruct (Hi i Hlti) as [Hf Hh]. rewrite lookup_app_l by lia.
        split; [done|]. rewrite !lookup_app_l; [done| |];
          rewrite ?length_app; simpl; lia.
      * lia.
      * intros _. rewrite length_app. simpl. split; [lia|].
        exists (S (length heap1)), (length heap1).
        rewrite lookup_app_r by lia. rewrite Hlen, Nat.sub_diag. split.
        { simpl. rewrite length_app. simpl. do 2 f_equal. lia. }
        split.
        -- rewrite lookup_app_r by (rewrite length_app; simpl; lia).
           rewrite length_app. simpl.
           by replace (S (length heap1) - (length heap1 + 1))%nat with 0%nat by lia.
        -- rewrite lookup_app_l by (rewrite length_app; simpl; lia).
           rewrite lookup_app_r by lia. by rewrite Nat.sub_diag.
    + split; [|split].
      * intros i Hlti. exists (length heap + i)%nat. by apply Hi.
      * done.
      * lia.
Qed.

(** Three arguments for one parameter: three locals, holding the three
    arguments; for no argument, one local holding [ArkUndefined]. *)
Lemma arguments_bound_positionally_witness :
  map (fun ref => refGet ref (snd (makeLocals ["a"] [ArkNumberVal 1; ArkNumberVal 2; ArkNumberVal 3] emptyHeap)))
      (fst (makeLocals ["a"] [ArkNumberVal 1; ArkNumberVal 2; ArkNumberVal 3] emptyHeap))
  = [Ok (ArkNumberVal 1); Ok (ArkNumberVal 2); Ok (ArkNumberVal 3)]
  ∧ refGet (ArkValRef 0) (snd (makeLocals ["a"] [] emptyHeap)) = Ok ArkUndefined
  ∧ fst (eval booleanTruth 4
           (ArkCall (ArkLiteral (ArkClosure ["a"; "b"] [] (local 1))) [num 7])
           initialState)
    = Ok ArkUndefined
  ∧ length (fst (Interp.bindArgsToParams ["a"] [Interp.Num 1; Interp.Num 2; Interp.Num 3] [])) = 2%nat.
Proof.
  destruct arguments_bound_positionally as (Hcall & Hark & Hinterp).
  split; [reflexivity|]. split; [|split].
  - destruct (Hark ["a"] [] emptyHeap) as (_ & _ & Hi).
    destruct (Hi 0%nat) as [_ Hget]; [simpl; lia|]. exact Hget.
  - rewrite (Hcall booleanTruth 3%nat (ArkLiteral (ArkClosure ["a"; "b"] [] (local 1)))
               [num 7] initialState ["a"; "b"] [] (local 1) initialState
               [ArkNumberVal 7] initialState eq_refl eq_refl).
    reflexivity.
  - destruct (Hinterp ["a"] [Interp.Num 1; Interp.Num 2; Interp.Num 3] [])
      as (_ & _ & Hsurplus).
    destruct Hsurplus as [Hlen _]; [simpl; lia|]. exact Hlen.
Defined.

(** C1 as stated fails on [makeLocals]: three arguments for one parameter
    are not bound as the parameter and one list of the two surplus
    arguments (two locals), but as three locals, one per argument. *)
Lemma makeLocals_surplus_not_collected :
  let names := ["a"] in
  let vals := [ArkNumberVal 1; ArkNumberVal 2; ArkNumberVal 3] in
  let locals := fst (makeLocals names vals emptyHeap) in
  let h' := snd (makeLocals names vals emptyHeap) in
  ¬ (length locals = S (length names)
     ∧ ∃ ref l o, locals !! length names = Some ref
                  ∧ refGet ref h' = Ok (ArkList l)
                  ∧ objs h' !! l = Some o
                  ∧ listItems o = drop (length names) vals).
Proof.
  intros names vals locals h' [Hlen _]. vm_compute in Hlen. discriminate.
Qed.

(** ** The evaluator and the foreign-value bridge *)

Lemma bind_ext {A B} (m1 m2 : M A) (k1 k2 : A → M B) :
  (∀ ark, m1 ark = m2 ark) → (∀ a ark, k1 a ark = k2 a ark) →
  ∀ ark, bind m1 k1 ark = bind m2 k2 ark.
Proof.
  intros Hm Hk ark. unfold bind. rewrite Hm.
  destruct (m2 ark) as [[a| | | |] ark']; auto.
Qed.

Lemma tryCatch_ext {A} (m1 m2 : M A) (handler : Thrown → M A) :
  (∀ ark, m1 ark = m2 ark) →
  ∀ ark, tryCatch m1 handler ark = tryCatch m2 handler ark.
Proof. intros Hm ark. unfold tryCatch. by rewrite Hm. Qed.

Lemma mapM_ext {A B} (f1 f2 : A → M B) (l : list A) :
  (∀ x ark, f1 x ark = f2 x ark) → ∀ ark, mapM f1 l ark = mapM f2 l ark.
Proof.
  intros Hf. induction l as [|x l IH]; intros ark; [done|].
  cbn [mapM]. apply bind_ext; [apply Hf|]. intros y ark'.
  apply bind_ext; [apply IH|done].
Qed.

Lemma onUndefined_ext {A} (m1 m2 handler1 handler2 : M A) :
  (∀ ark, m1 ark = m2 ark) → (∀ ark, handler1 ark = handler2 ark) →
  ∀ ark, onUndefined m1 handler1 ark = onUndefined m2 handler2 ark.
Proof.
  intros Hm Hh ark. unfold onUndefined. rewrite Hm.
  destruct (m2 ark) as [[a| | | |] ark']; auto.
Qed.

Lemma andThen_ext {A} (m1 m2 : M A) (after : ArkState → ArkState) :
  (∀ ark, m1 ark = m2 ark) →
  ∀ ark, andThen m1 after ark = andThen m2 after ark.
Proof. intros Hm ark. unfold andThen. by rewrite Hm. Qed.

Lemma lastOf_ext {A} (f1 f2 : A → M ArkVal) (l : list A) :
  (∀ x ark, f1 x ark = f2 x ark) →
  ∀ res ark, lastOf f1 l res ark = lastOf f2 l res ark.
Proof.
  intros Hf. induction l as [|x l IH]; intros res ark; [done|].
  cbn [lastOf]. rewrite Hf.
  destruct (f2 x ark) as [[val| | | |] ark']; auto.
Qed.

(** The evaluator uses [toJs] only through the truth values it returns:
    two bridges that give the same truth values give the same
    evaluations. *)
Lemma eval_ext toJs_truthy1 toJs_truthy2 :
  (∀ val, toJs_truthy1 val = toJs_truthy2 val) →
  ∀ fuel,
    (∀ e ark, eval toJs_truthy1 fuel e ark = eval toJs_truthy2 fuel e ark)
    ∧ (∀ lexp ark,
         evalRef toJs_truthy1 fuel lexp ark = evalRef toJs_truthy2 fuel lexp ark)
    ∧ (∀ fnVal ark,
         call toJs_truthy1 fuel fnVal ark = call toJs_truthy2 fuel fnVal ark)
    ∧ (∀ boundVars ark,
         pushLets toJs_truthy1 fuel boundVars ark
         = pushLets toJs_truthy2 fuel boundVars ark).
Proof.
  intros Htruthy. induction fuel as [|fuel (IHe & IHr & IHc & IHp)]; [done|].
  split; [|split; [|split]].
  - intros e ark. destruct e; cbn [eval]; try done.
    + apply bind_ext; [|done]. apply onUndefined_ext; [apply IHe|done].
    + apply bind_ext; [|done]. apply onUndefined_ext; [apply IHe|done].
    + apply bind_ext; [by apply mapM_ext|done].
    + apply bind_ext; [apply onUndefined_ext; [apply IHe|done]|]. intros fnVal ark1.
      destruct (negb (isArkCallable fnVal)); [done|].
      apply bind_ext; [by apply mapM_ext|]. intros evaluatedArgs ark2.
      destruct (makeLocals _ _ _) as [ls h]. by rewrite IHc.
    + apply bind_ext; [|done]. apply onUndefined_ext; [apply IHr|done].
    + apply bind_ext.
      * apply onUndefined_ext; [apply IHr|]. apply bind_ext; [|done].
        apply onUndefined_ext; [apply IHe|done].
      * intros ref ark1. apply bind_ext; [apply IHe|done].
    + apply bind_ext; [|done]. apply mapM_ext. intros kv ark1.
      apply bind_ext; [apply IHe|done].
    + apply bind_ext; [by apply mapM_ext|done].
    + apply bind_ext; [apply IHp|]. intros nLets ark1.
      apply andThen_ext. apply tryCatch_ext, IHe.
    + by apply lastOf_ext.
    + apply bind_ext; [apply IHe|]. intros condVal ark1. rewrite Htruthy.
      destruct (toJs_truthy2 condVal); [apply IHe|].
      destruct elseExp; [apply IHe|done].
    + apply bind_ext; [apply IHe|]. intros leftVal ark1. rewrite Htruthy.
      destruct (toJs_truthy2 leftVal); [apply IHe|done].
    + apply bind_ext; [apply IHe|]. intros leftVal ark1. rewrite Htruthy.
      destruct (toJs_truthy2 leftVal); [done|apply IHe].
    + rewrite IHe. destruct (eval toJs_truthy2 fuel e ark) as [[v|[]| | |] ark1];
        try done; apply IHe.
  - intros lexp ark. destruct lexp; cbn [evalRef]; try done.
    apply bind_ext; [|done]. apply onUndefined_ext; [apply IHe|done].
  - intros fnVal ark. destruct fnVal; cbn [call]; try done.
    apply tryCatch_ext, IHe.
  - intros boundVars ark. cbn [pushLets].
    destruct (makeLocals _ _ _) as [lets h].
    apply bind_ext; [|done]. apply mapM_ext. intros bv ark1. apply IHe.
Qed.

(** ** Fuel *)

Lemma extends_refl {A} (m : M A) : extends m m.
Proof. by intros ark o ark' H _. Qed.

Lemma extends_bind {A B} (m1 m2 : M A) (k1 k2 : A → M B) :
  extends m1 m2 → (∀ a, extends (k1 a) (k2 a)) →
  extends (bind m1 k1) (bind m2 k2).
Proof.
  intros Hm Hk ark o ark'. unfold bind.
  destruct (m1 ark) as [o1 ark1] eqn:H1. intros H Ho.
  assert (o1 ≠ OutOfFuel) as Ho1.
  { intros ->. injection H as <- _. done. }
  rewrite (Hm _ _ _ H1 Ho1). destruct o1; try done. by apply Hk.
Qed.

Lemma extends_tryCatch {A} (m1 m2 : M A) (handler : Thrown → M A) :
  extends m1 m2 → extends (tryCatch m1 handler) (tryCatch m2 handler).
Proof.
  intros Hm ark o ark'. unfold tryCatch.
  destruct (m1 ark) as [o1 ark1] eqn:H1. intros H Ho.
  assert (o1 ≠ OutOfFuel) as Ho1.
  { intros ->. injection H as <- _. done. }
  by rewrite (Hm _ _ _ H1 Ho1).
Qed.

Lemma extends_mapM {A B} (f1 f2 : A → M B) (l : list A) :
  (∀ x, extends (f1 x) (f2 x)) → extends (mapM f1 l) (mapM f2 l).
Proof.
  intros Hf. induction l as [|x l IH]; [apply extends_refl|].
  cbn [mapM]. apply extends_bind; [apply Hf|]. intros y.
  apply extends_bind; [apply IH|]. intros ys. apply extends_refl.
Qed.

Lemma extends_onUndefined {A} (m1 m2 handler1 handler2 : M A) :
  extends m1 m2 → extends handler1 handler2 →
  extends (onUndefined m1 handler1) (onUndefined m2 handler2).
Proof.
  intros Hm Hh ark o ark'. unfold onUndefined.
  destruct (m1 ark) as [o1 ark1] eqn:H1. intros H Ho.
  assert (o1 ≠ OutOfFuel) as Ho1.
  { intros ->. injection H as <- _. done. }
  rewrite (Hm _ _ _ H1 Ho1). destruct o1; try done. by apply Hh.
Qed.

Lemma extends_andThen {A} (m1 m2 : M A) (after : ArkState → ArkState) :
  extends m1 m2 → extends (andThen m1 after) (andThen m2 after).
Proof.
  intros Hm ark o ark'. unfold andThen.
  destruct (m1 ark) as [o1 ark1] eqn:H1. intros H Ho.
  assert (o1 ≠ OutOfFuel) as Ho1.
  { intros ->. injection H as <- _. done. }
  by rewrite (Hm _ _ _ H1 Ho1).
Qed.

Lemma extends_lastOf {A} (f1 f2 : A → M ArkVal) (l : list A) :
  (∀ x, extends (f1 x) (f2 x)) →
  ∀ res, extends (lastOf f1 l res) (lastOf f2 l res).
Proof.
  intros Hf. induction l as [|x l IH]; intros res; [apply extends_refl|].
  intros ark o ark'. cbn [lastOf].
  destruct (f1 x ark) as [o1 ark1] eqn:H1. intros H Ho.
  assert (o1 ≠ OutOfFuel) as Ho1.
  { intros ->. injection H as <- _. done. }
  rewrite (Hf _ _ _ _ H1 Ho1). destruct o1; try done; by apply IH.
Qed.

Lemma eval_ArkLoop toJs_truthy fuel body ark :
  eval toJs_truthy (S fuel) (ArkLoop body) ark =
  match eval toJs_truthy fuel body ark with
  | (Ok _, ark') | (HostUndefined, ark') => eval toJs_truthy fuel (ArkLoop body) ark'
  | (Throw (ArkBreakException val), ark') => (Ok val, ark')
  | (Throw (ArkContinueException _), ark') => eval toJs_truthy fuel (ArkLoop body) ark'
  | r => r
  end.
Proof. reflexivity. Qed.

(** An evaluation that ends within its fuel ends in the same way with
    more fuel. *)
Lemma eval_fuel_S toJs_truthy fuel :
  (∀ e, extends (eval toJs_truthy fuel e) (eval toJs_truthy (S fuel) e))
  ∧ (∀ lexp, extends (evalRef toJs_truthy fuel lexp)
                     (evalRef toJs_truthy (S fuel) lexp))
  ∧ (∀ fnVal, extends (call toJs_truthy fuel fnVal)
                      (call toJs_truthy (S fuel) fnVal))
  ∧ (∀ boundVars, extends (pushLets toJs_truthy fuel boundVars)
                          (pushLets toJs_truthy (S fuel) boundVars)).
Proof.
  induction fuel as [|fuel (IHe & IHr & IHc & IHp)].
  { repeat split; intros x ark o ark' [= <- _]; done. }
  split; [|split; [|split]].
  - intros e. destruct e; [cbn [eval]..|].
    + apply extends_refl.
    + apply extends_bind; [|intros a; apply extends_refl].
      apply extends_onUndefined; [apply IHe|apply extends_refl].
    + apply extends_refl.
    + apply extends_bind; [|intros a; apply extends_refl].
      apply extends_onUndefined; [apply IHe|apply extends_refl].
    + apply extends_bind; [by apply extends_mapM|]. intros a. apply extends_refl.
    + apply extends_bind; [apply extends_onUndefined; [apply IHe|apply extends_refl]|].
      intros fnVal.
      destruct (negb (isArkCallable fnVal)); [apply extends_refl|].
      apply extends_bind; [by apply extends_mapM|]. intros evaluatedArgs.
      intros ark o ark'. cbv beta. destruct (makeLocals _ _ _) as [ls h].
      match goal with
      | |- context [call toJs_truthy fuel fnVal ?callee] =>
          destruct (call toJs_truthy fuel fnVal callee) as [o1 callee'] eqn:Hcall
      end.
      intros [= <- <-] Ho. by rewrite (IHc _ _ _ _ Hcall Ho).
    + apply extends_bind; [|intros a; apply extends_refl].
      apply extends_onUndefined; [apply IHr|apply extends_refl].
    + apply extends_bind.
      * apply extends_onUndefined; [apply IHr|].
        apply extends_bind; [|intros a; apply extends_refl].
        apply extends_onUndefined; [apply IHe|apply extends_refl].
      * intros ref. apply extends_bind; [apply IHe|]. intros a. apply extends_refl.
    + apply extends_bind; [|intros a; apply extends_refl].
      apply extends_mapM. intros kv.
      apply extends_bind; [apply IHe|]. intros a. apply extends_refl.
    + apply extends_bind; [by apply extends_mapM|]. intros a. apply extends_refl.
    + apply extends_bind; [apply IHp|]. intros nLets.
      apply extends_andThen. apply extends_tryCatch, IHe.
    + by apply extends_lastOf.
    + apply extends_bind; [apply IHe|]. intros condVal.
      destruct (toJs_truthy condVal); [apply IHe|].
      destruct elseExp; [apply IHe|apply extends_refl].
    + apply extends_bind; [apply IHe|]. intros leftVal.
      destruct (toJs_truthy leftVal); [apply IHe|apply extends_refl].
    + apply extends_bind; [apply IHe|]. intros leftVal.
      destruct (toJs_truthy leftVal); [apply extends_refl|apply IHe].
    + intros ark o ark'. rewrite !eval_ArkLoop.
      destruct (eval toJs_truthy fuel e ark) as [o1 ark1] eqn:Hbody.
      intros H Ho.
      assert (o1 ≠ OutOfFuel) as Ho1.
      { intros ->. injection H as <- _. done. }
      rewrite (IHe _ _ _ _ Hbody Ho1).
      destruct o1 as [v|[]| | |]; try done; by apply IHe.
  - intros lexp. destruct lexp; cbn [evalRef]; try apply extends_refl.
    apply extends_bind; [|intros a; apply extends_refl].
    apply extends_onUndefined; [apply IHe|apply extends_refl].
  - intros fnVal. destruct fnVal; cbn [call]; try apply extends_refl.
    apply extends_tryCatch, IHe.
  - intros boundVars ark o ark'. cbn [pushLets].
    destruct (makeLocals _ _ _) as [lets h].
    apply extends_bind; [|intros a; apply extends_refl].
    apply extends_mapM. intros bv. apply IHe.
Qed.

Lemma eval_more_fuel toJs_truthy fuel k e ark o ark' :
  eval toJs_truthy fuel e ark = (o, ark') → o ≠ OutOfFuel →
  eval toJs_truthy (k + fuel) e ark = (o, ark').
Proof.
  intros Heval Ho. induction k as [|k IH]; [done|].
  by apply (eval_fuel_S toJs_truthy (k + fuel)).
Qed.

Lemma run_more_fuel toJs_truthy fuel k compiledVal o ark' :
  run toJs_truthy fuel compiledVal = (o, ark') → o ≠ OutOfFuel →
  run toJs_truthy (k + fuel) compiledVal = (o, ark').
Proof. apply eval_more_fuel. Qed.

(** Runs a closed program with the fuel [n] of the goal's [k + n] and
    transfers the result to [k + n]. *)
Ltac more_fuel :=
  match goal with
  | |- context [run ?t (?k + ?n)%nat ?e] =>
      let r := eval vm_compute in (run t n e) in
      match r with
      | (?o, ?ark') =>
          rewrite (run_more_fuel t n k e o ark');
          [|vm_compute; reflexivity|discriminate]
      end
  end.

(** ** Property references *)

Lemma ArkObjectBase_get_Undefined props prop :
  ArkObjectBase_get props prop = ArkUndefined
  ↔ props !! prop = None ∨ props !! prop = Some ArkUndefined.
Proof.
  unfold ArkObjectBase_get. destruct (props !! prop) as [v|]; simpl.
  - split; [intros ->; by right|]. intros [|[= ->]]; done.
  - split; [by left|done].
Qed.

Lemma isArkUndefined_true val : isArkUndefined val = true ↔ val = ArkUndefined.
Proof. by destruct val. Qed.

Lemma refGet_property h l o obj prop :
  obj = ArkObject l ∨ obj = ArkList l →
  objs h !! l = Some o →
  refGet (ArkPropertyRef obj prop) h =
  if isArkUndefined (ArkObjectBase_get (properties o) prop)
  then Throw (ArkRuntimeError ("Invalid property '" ++ prop ++ "'"))
  else Ok (ArkObjectBase_get (properties o) prop).
Proof. intros [-> | ->] Ho; simpl; by rewrite Ho. Qed.

(** C4 (as amended): property references are asymmetric.  Reading through
    a reference to property [prop] of an object fails with the runtime
    error "Invalid property 'prop'" exactly when the object's lookup of the
    property gives [ArkUndefined], that is when the property is absent or
    is present and holds [ArkUndefined]; on an object none of whose
    properties holds [ArkUndefined] that is exactly when the property is
    absent, and otherwise the read gives the property's value.  Writing
    through the reference always succeeds: afterwards the property holds
    the value written, whether it was there before or not, and every other
    property, every other object and every value reference is unchanged. *)
Theorem property_reference_read_write h l o obj prop :
  obj = ArkObject l ∨ obj = ArkList l →
  objs h !! l = Some o →
  let ref := ArkPropertyRef obj prop in
  let invalid := Throw (ArkRuntimeError ("Invalid property '" ++ prop ++ "'")) in
  (refGet ref h = invalid
   ↔ properties o !! prop = None ∨ properties o !! prop = Some ArkUndefined)
  ∧ ((∀ p, properties o !! p ≠ Some ArkUndefined) →
     (refGet ref h = invalid ↔ properties o !! prop = None))
  ∧ (∀ val, properties o !! prop = Some val → val ≠ ArkUndefined →
            refGet ref h = Ok val)
  ∧ ∀ val, ∃ h' o',
      refSet ref val h = Ok h'
      ∧ objs h' !! l = Some o'
      ∧ properties o' !! prop = Some val
      ∧ (∀ prop', prop' ≠ prop → properties o' !! prop' = properties o !! prop')
      ∧ listItems o' = listItems o
      ∧ (∀ l', l' ≠ l → objs h' !! l' = objs h !! l')
      ∧ refs h' = refs h.
Proof.
  intros Hobj Ho ref invalid. subst ref invalid.
  rewrite (refGet_property h l o obj prop Hobj Ho).
  assert ((if isArkUndefined (ArkObjectBase_get (properties o) prop)
           then Throw (ArkRuntimeError ("Invalid property '" ++ prop ++ "'"))
           else Ok (ArkObjectBase_get (properties o) prop))
          = Throw (ArkRuntimeError ("Invalid property '" ++ prop ++ "'"))
          ↔ properties o !! prop = None ∨ properties o !! prop = Some ArkUndefined)
    as Hread.
  { rewrite <- ArkObjectBase_get_Undefined, <- isArkUndefined_true.
    destruct (isArkUndefined _); split; congruence. }
  split; [exact Hread|]. split; [|split].
  - intros Hdef. rewrite Hread. split; [|by left].
    intros [H|H]; [done|]. by destruct (Hdef prop).
  - intros val Hval Hne. unfold ArkObjectBase_get. rewrite Hval. simpl.
    destruct val; done.
  - intros val.
    exists (setObjs (<[l := mkHeapObj (<[prop := val]> (properties o)) (listItems o)]>
                       (objs h)) h),
           (mkHeapObj (<[prop := val]> (properties o)) (listItems o)).
    assert (l < length (objs h))%nat as Hl by (by eapply lookup_lt_Some).
    split; [destruct Hobj as [-> | ->]; simpl; by rewrite Ho|].
    simpl. split; [by rewrite list_lookup_insert_eq|].
    split; [by rewrite lookup_insert_eq|].
    split; [intros prop' Hne; by rewrite lookup_insert_ne|].
    split; [done|]. split; [|done].
    intros l' Hne. by rewrite list_lookup_insert_ne.
Qed.

(** Writing a new property [q] to the object [{p: 1}], then reading both. *)
Lemma property_reference_read_write_witness :
  let h := setObjs [mkHeapObj {["p" := ArkNumberVal 1]} []] emptyHeap in
  refGet (ArkPropertyRef (ArkObject 0) "q") h
  = Throw (ArkRuntimeError "Invalid property 'q'")
  ∧ refGet (ArkPropertyRef (ArkObject 0) "p") h = Ok (ArkNumberVal 1)
  ∧ ∃ h', refSet (ArkPropertyRef (ArkObject 0) "q") (ArkNumberVal 2) h = Ok h'.
Proof.
  intros h.
  pose proof (property_reference_read_write h 0%nat
                (mkHeapObj {["p" := ArkNumberVal 1]} []) (ArkObject 0) "q"
                (or_introl eq_refl) eq_refl) as (Hq & _ & _ & Hset).
  pose proof (property_reference_read_write h 0%nat
                (mkHeapObj {["p" := ArkNumberVal 1]} []) (ArkObject 0) "p"
                (or_introl eq_refl) eq_refl) as (_ & _ & Hp & _).
  split; [apply Hq; left; reflexivity|].
  split; [apply Hp; [reflexivity|discriminate]|].
  destruct (Hset (ArkNumberVal 2)) as (h' & o' & Hh' & _). by exists h'.
Defined.

(** C4 as stated fails: calling [fn(x) { {p: x} }] without an argument
    makes an object whose property [p] is present and holds
    [ArkUndefined]; reading [p] through a property reference fails with
    "Invalid property 'p'" although the property is not absent. *)
Lemma property_read_fails_on_present_property :
  let r := run booleanTruth 10 readUndefinedProperty in
  let h := heap (snd r) in
  fst r = Throw (ArkRuntimeError "Invalid property 'p'")
  ∧ (objs h !! 0%nat ≫= fun o => properties o !! "p") = Some ArkUndefined
  ∧ ¬ (refGet (ArkPropertyRef (ArkObject 0) "p") h
       = Throw (ArkRuntimeError "Invalid property 'p'")
       ↔ (objs h !! 0%nat ≫= fun o => properties o !! "p") = None).
Proof.
  intros r h.
  assert (fst r = Throw (ArkRuntimeError "Invalid property 'p'")) as Hr
    by (vm_compute; reflexivity).
  assert ((objs h !! 0%nat ≫= fun o => properties o !! "p") = Some ArkUndefined)
    as Hp by (vm_compute; reflexivity).
  split; [exact Hr|]. split; [exact Hp|].
  intros [Hread _]. rewrite Hp in Hread.
  assert (refGet (ArkPropertyRef (ArkObject 0) "p") h
          = Throw (ArkRuntimeError "Invalid property 'p'")) as Hget
    by (vm_compute; reflexivity).
  specialize (Hread Hget). discriminate.
Qed.

(** ** Assignment *)

Lemma differentType_spec oldVal res :
  differentType oldVal res = true
  ↔ oldVal ≠ ArkNullVal ∧ oldVal ≠ ArkUndefined
    ∧ constructorOf res ≠ constructorOf oldVal.
Proof.
  unfold differentType. rewrite !andb_true_iff, !negb_true_iff.
  rewrite !bool_decide_eq_false. split.
  - intros [[Hu Hn] Hc]. repeat split; [| |done]; intros ->; [by apply Hn|done].
  - intros (Hn & Hu & Hc). repeat split; [|by destruct oldVal|done].
    by destruct oldVal.
Qed.

Lemma eval_ArkSet toJs_truthy fuel lexp exp :
  eval toJs_truthy (S fuel) (ArkSet lexp exp) =
  (let* ref :=
     onUndefined (evalRef toJs_truthy fuel lexp)
       (let* _ := onUndefined (eval toJs_truthy fuel exp) (ret ArkNullVal) in
        throw undefinedGet) in
   let* res := eval toJs_truthy fuel exp in
   let* oldVal := getRef ref in
   if differentType oldVal res
   then throw (ArkRuntimeError "Assignment to different type")
   else setRef ref res).
Proof. reflexivity. Qed.

Lemma refSet_after_refGet ref res h oldVal :
  refGet ref h = Ok oldVal →
  ∃ h', refSet ref res h = Ok h' ∧ currentValue ref h' = Ok res.
Proof.
  destruct ref as [l|obj prop]; simpl.
  - intros _. eexists. split; [done|]. simpl. by rewrite lookup_insert_eq.
  - unfold objGet, objSet.
    destruct obj; try discriminate;
      try (destruct (objs h !! l) as [o|] eqn:Ho; [|discriminate];
           intros _; eexists; split; [done|]; simpl;
           rewrite list_lookup_insert_eq by (by eapply lookup_lt_Some);
           simpl; unfold ArkObjectBase_get; by rewrite lookup_insert_eq).
Qed.

(** C2 (as amended): an assignment evaluates its lvalue to a reference
    [ref], then its right-hand side to [res], and then reads the old value
    through the reference.  If that read fails the assignment fails with
    the read's error and nothing is updated; this is what happens with
    "Invalid property" for a property reference whose object has no such
    property (or holds [ArkUndefined] there).  If the read gives [oldVal],
    the assignment fails with "Assignment to different type", leaving the
    state as it was, exactly when [oldVal] is neither the null value nor
    [ArkUndefined] and the constructor of [res] differs from that of
    [oldVal]; otherwise the reference is updated, then holds [res], and
    [res] is returned. *)
Theorem ArkSet_eval toJs_truthy fuel lexp exp ark ref ark1 res ark2 :
  evalRef toJs_truthy fuel lexp ark = (Ok ref, ark1) →
  eval toJs_truthy fuel exp ark1 = (Ok res, ark2) →
  let result := eval toJs_truthy (S fuel) (ArkSet lexp exp) ark in
  (∀ e, refGet ref (heap ark2) = Throw e → result = (Throw e, ark2))
  ∧ (∀ obj prop, ref = ArkPropertyRef obj prop →
       currentValue ref (heap ark2) = Ok ArkUndefined →
       result = (Throw (ArkRuntimeError ("Invalid property '" ++ prop ++ "'")), ark2))
  ∧ (∀ oldVal, refGet ref (heap ark2) = Ok oldVal →
       (result = (Throw (ArkRuntimeError "Assignment to different type"), ark2)
        ↔ oldVal ≠ ArkNullVal ∧ oldVal ≠ ArkUndefined
          ∧ constructorOf res ≠ constructorOf oldVal)
       ∧ (¬ (oldVal ≠ ArkNullVal ∧ oldVal ≠ ArkUndefined
             ∧ constructorOf res ≠ constructorOf oldVal) →
          ∃ h, refSet ref res (heap ark2) = Ok h
               ∧ result = (Ok res, setHeap h ark2)
               ∧ currentValue ref h = Ok res)).
Proof.
  intros Href Hres result. subst result. rewrite eval_ArkSet.
  unfold bind, onUndefined, getRef. rewrite Href, Hres. split; [|split].
  - intros e ->. done.
  - intros obj prop -> Hcur. unfold currentValue in Hcur. unfold refGet.
    by rewrite Hcur.
  - intros oldVal Hold. rewrite Hold.
    destruct (refSet_after_refGet ref res (heap ark2) oldVal Hold)
      as (h & Hset & Hcur).
    pose proof (differentType_spec oldVal res) as Hspec.
    destruct (differentType oldVal res).
    + split; [split; [intros _; by apply Hspec|done]|].
      intros Hn. destruct Hn. by apply Hspec.
    + assert (¬ (oldVal ≠ ArkNullVal ∧ oldVal ≠ ArkUndefined
                 ∧ constructorOf res ≠ constructorOf oldVal)) as Hn.
      { intros H. apply Hspec in H. done. }
      unfold setRef. rewrite Hset. split.
      * split; [discriminate|]. intros H. by destruct Hn.
      * intros _. by exists h.
Qed.

(** A local bound to a string cannot be assigned a number. *)
Lemma ArkSet_eval_witness :
  eval booleanTruth 3 (ArkSet (ArkLocal 0) (num 1)) stringState
  = (Throw (ArkRuntimeError "Assignment to different type"), stringState).
Proof.
  pose proof (ArkSet_eval booleanTruth 2 (ArkLocal 0) (num 1) stringState
                (ArkValRef 0) stringState (ArkNumberVal 1) stringState
                eq_refl eq_refl) as (_ & _ & Hold).
  destruct (Hold (ArkStringVal "s") eq_refl) as [Hiff _].
  apply Hiff. repeat split; discriminate.
Defined.

(** C2 as stated fails: in [{}.p := 1] the lvalue gives a reference to
    the property [p] of a new object, which holds no value at all
    ([ArkUndefined]), so that the assignment should update it and return
    [1]; it fails instead with "Invalid property 'p'". *)
Lemma assignment_to_absent_property_fails :
  ¬ ArkSet_as_specified booleanTruth 3 (ArkProperty (ArkObjectLiteral []) "p")
      (num 1) initialState.
Proof.
  intros Hspec.
  specialize (Hspec (ArkPropertyRef (ArkObject 0) "p")
                (mkState (mkFrame [] []) (setObjs [mkHeapObj ∅ []] emptyHeap))
                (ArkNumberVal 1)
                (mkState (mkFrame [] []) (setObjs [mkHeapObj ∅ []] emptyHeap))
                ArkUndefined eq_refl eq_refl eq_refl).
  destruct Hspec as [_ Hupdate].
  destruct Hupdate as (h & _ & Heval); [by intros (_ & Hundef & _)|].
  vm_compute in Heval. discriminate.
Qed.

(** ** Closures *)

(** The reference that a captured variable names in the frame. *)
Lemma evalRef_frame toJs_truthy fuel lexp ark :
  evalRef toJs_truthy (S fuel) lexp ark =
  match lexp with
  | ArkLocal index =>
      match locals (frame ark) !! index with
      | Some ref => (Ok ref, ark)
      | None => (HostUndefined, ark)
      end
  | ArkCapture index =>
      match captures (frame ark) !! index with
      | Some ref => (Ok ref, ark)
      | None => (HostUndefined, ark)
      end
  | ArkProperty obj prop => evalRef toJs_truthy (S fuel) (ArkProperty obj prop) ark
  end.
Proof. by destruct lexp. Qed.

Lemma mapM_evalRef_frame toJs_truthy fuel capturedVars refs ark :
  Forall2 (fun lexp ref =>
             match lexp with
             | ArkLocal index => locals (frame ark) !! index = Some ref
             | ArkCapture index => captures (frame ark) !! index = Some ref
             | ArkProperty _ _ => False
             end) capturedVars refs →
  mapM (evalRef toJs_truthy (S fuel)) capturedVars ark = (Ok refs, ark).
Proof.
  induction 1 as [|lexp ref capturedVars refs Hlexp _ IH]; [done|].
  cbn [mapM]. unfold bind at 1. rewrite evalRef_frame.
  destruct lexp as [index|index|]; [| |done]; rewrite Hlexp;
    unfold bind at 1; by rewrite IH.
Qed.

Lemma makeLocals_old_refs names vals h l :
  (l < nextRef h)%nat →
  refs (snd (makeLocals names vals h)) !! l = refs h !! l.
Proof.
  intros Hl. rewrite makeLocals_makeValRefs.
  destruct (makeValRefs_heap (boundVals names vals) h) as (_ & _ & _ & Hrefs).
  rewrite Hrefs. by rewrite decide_False by lia.
Qed.

(** C3: closures capture by reference.  Evaluating a function literal
    evaluates each expression of its capture list as a reference in the
    enclosing frame, in order, and stores these references in the closure.
    For captured locals and captures these are the very references of the
    frame: no value is copied and the state is unchanged.  When such a
    closure is called, its body reads a capture through the stored
    reference, so the call gives what the captured variable holds at the
    time of the call: an assignment made to the variable after the closure
    was created is seen by the closure.  With [x] bound to 0 and [f] to
    [fn() { x }], setting [x] to 5 and then calling [f] gives 5. *)
Theorem closures_capture_by_reference toJs_truthy :
  (∀ fuel params capturedVars body ark refs ark',
     mapM (evalRef toJs_truthy fuel) capturedVars ark = (Ok refs, ark') →
     eval toJs_truthy (S fuel) (ArkFn params capturedVars body) ark
     = (Ok (ArkClosure params refs body), ark'))
  ∧ (∀ fuel params capturedVars body ark refs,
     Forall2 (fun lexp ref =>
                match lexp with
                | ArkLocal index => locals (frame ark) !! index = Some ref
                | ArkCapture index => captures (frame ark) !! index = Some ref
                | ArkProperty _ _ => False
                end) capturedVars refs →
     eval toJs_truthy (S (S fuel)) (ArkFn params capturedVars body) ark
     = (Ok (ArkClosure params refs body), ark))
  ∧ (∀ fuel params caps index l ark val,
       caps !! index = Some (ArkValRef l) →
       (l < nextRef (heap ark))%nat →
       refs (heap ark) !! l = Some val →
       fst (eval toJs_truthy (S (S (S (S fuel))))
              (ArkCall (ArkLiteral (ArkClosure params caps (capture index))) [])
              ark)
       = Ok val)
  ∧ (∀ k, fst (run toJs_truthy (k + 10) captureProgram) = Ok (ArkNumberVal 5)).
Proof.
  split; [|split; [|split]].
  - intros fuel params capturedVars body ark refs ark' Hrefs.
    cbn [eval]. unfold bind. by rewrite Hrefs.
  - intros fuel params capturedVars body ark refs Hrefs.
    cbn [eval]. unfold bind. by rewrite (mapM_evalRef_frame _ _ _ _ _ Hrefs).
  - intros fuel params caps index l ark val Hcap Hl Hval.
    pose proof (makeLocals_old_refs params [] (heap ark) l Hl) as Hold.
    cbn [eval isArkCallable negb mapM paramsOf capturesOf].
    unfold bind, onUndefined, ret. cbn [isArkCallable negb paramsOf capturesOf].
    destruct (makeLocals params [] (heap ark)) as [locals h] eqn:Hmk.
    cbn [snd] in Hold. cbn [call eval capture]. unfold tryCatch, bind, onUndefined.
    cbn [evalRef frame Ark.captures isArkCallable negb paramsOf capturesOf].
    rewrite ?Hmk, Hcap. unfold getRef. cbn [heap refGet fst].
    by rewrite Hold, Hval.
  - intros k. by more_fuel.
Qed.

(** The closure made for [fn() { x }] in a frame whose local [x] holds a
    string reads that string, whatever was there when it was made. *)
Lemma closures_capture_by_reference_witness :
  eval booleanTruth 2 (ArkFn [] [ArkLocal 0] (capture 0)) stringState
  = (Ok (ArkClosure [] [ArkValRef 0] (capture 0)), stringState)
  ∧ fst (eval booleanTruth 4
           (ArkCall (ArkLiteral (ArkClosure [] [ArkValRef 0] (capture 0))) [])
           stringState)
    = Ok (ArkStringVal "s").
Proof.
  destruct (closures_capture_by_reference booleanTruth) as (_ & Hfn & Hcall & _).
  split.
  - apply Hfn. repeat constructor.
  - apply (Hcall 0%nat [] [ArkValRef 0] 0%nat 0%nat stringState (ArkStringVal "s")).
    + reflexivity.
    + simpl. lia.
    + reflexivity.
Defined.

(** ** Let *)

Lemma mapM_length {A B} (f : A → M B) (l : list A) ys ark ark' :
  mapM f l ark = (Ok ys, ark') → length ys = length l.
Proof.
  revert ys ark. induction l as [|x l IH]; intros ys ark; simpl.
  - unfold ret. by intros [= <- _].
  - unfold bind at 1. destruct (f x ark) as [[y| | | |] ark1]; try discriminate.
    unfold bind at 1. destruct (mapM f l ark1) as [[ys'| | | |] ark2] eqn:Hl;
      try discriminate.
    unfold ret. intros [= <- <-]. simpl. f_equal. by eapply IH.
Qed.

Lemma setLets_valrefs n vals ark :
  ∃ h, setLets (map ArkValRef (seq n (length vals))) vals ark
       = (Ok tt, setHeap h ark)
       ∧ nextRef h = nextRef (heap ark)
       ∧ objs h = objs (heap ark) ∧ gens h = gens (heap ark)
       ∧ ∀ l, refs h !! l =
              if decide (n ≤ l < n + length vals)%nat
              then vals !! (l - n)%nat
              else refs (heap ark) !! l.
Proof.
  revert n ark. induction vals as [|v vals IH]; intros n ark; simpl.
  - exists (heap ark). destruct ark. repeat split; try done.
    intros l. case_decide; [lia|done].
  - unfold bind, setRef. simpl.
    destruct (IH (S n) (setHeap (setRefs (<[n:=v]> (refs (heap ark))) (heap ark)) ark))
      as (h & Hset & Hn & Ho & Hg & Hl).
    exists h. rewrite Hset. repeat split; try done.
    intros l. rewrite Hl. simpl. repeat case_decide; try lia.
    + replace (l - n)%nat with (S (l - S n)) by lia. done.
    + assert (l = n) as -> by lia. rewrite lookup_insert_eq.
      by rewrite Nat.sub_diag.
    + rewrite lookup_insert_ne; [done|lia].
Qed.

Lemma eval_pushLets toJs_truthy fuel boundVars ark :
  pushLets toJs_truthy (S fuel) boundVars ark =
  (let* vals := mapM (fun bv => eval toJs_truthy fuel (snd bv)) boundVars in
   let* _ := setLets (fst (makeLocals (map fst boundVars) [] (heap ark))) vals in
   ret (length (fst (makeLocals (map fst boundVars) [] (heap ark)))))
    (push (fst (makeLocals (map fst boundVars) [] (heap ark)))
          (setHeap (snd (makeLocals (map fst boundVars) [] (heap ark))) ark)).
Proof.
  cbn [pushLets]. by destruct (makeLocals (map fst boundVars) [] (heap ark)).
Qed.

(** C5: a let with [N] bound variables first introduces [N] new slots at
    the end of the current frame's locals, each holding [ArkUndefined],
    and leaves every older cell as it was; in that state it evaluates the
    initializers in the order of their declaration; when they have given
    the values [vals], slot [i] is assigned [vals !! i] and nothing else
    is changed.  (If an initializer does not complete, no slot is
    assigned.)  As every slot exists before any initializer runs, the
    functions bound in one let can capture each other's slots:
    in [mutualProgram], [f(true)] calls [g] and [g(true)] calls [f], and
    both calls succeed. *)
Theorem let_slots_precede_initializers toJs_truthy :
  (∀ fuel boundVars ark,
     let n := nextRef (heap ark) in
     let N := length boundVars in
     ∃ ark1,
       locals (frame ark1) = locals (frame ark) ++ map ArkValRef (seq n N)
       ∧ Ark.captures (frame ark1) = Ark.captures (frame ark)
       ∧ (∀ i, (i < N)%nat → refs (heap ark1) !! (n + i)%nat = Some ArkUndefined)
       ∧ (∀ l, (l < n)%nat → refs (heap ark1) !! l = refs (heap ark) !! l)
       ∧ objs (heap ark1) = objs (heap ark) ∧ gens (heap ark1) = gens (heap ark)
       ∧ (∀ vals ark2,
            mapM (fun bv => eval toJs_truthy fuel (snd bv)) boundVars ark1
            = (Ok vals, ark2) →
            ∃ h3,
              pushLets toJs_truthy (S fuel) boundVars ark = (Ok N, setHeap h3 ark2)
              ∧ (∀ i, (i < N)%nat → refs h3 !! (n + i)%nat = vals !! i)
              ∧ length vals = N
              ∧ (∀ l, (l < n ∨ n + N ≤ l)%nat → refs h3 !! l = refs (heap ark2) !! l)
              ∧ objs h3 = objs (heap ark2) ∧ gens h3 = gens (heap ark2))
       ∧ (∀ e ark2,
            mapM (fun bv => eval toJs_truthy fuel (snd bv)) boundVars ark1
            = (Throw e, ark2) →
            pushLets toJs_truthy (S fuel) boundVars ark = (Throw e, ark2)))
  ∧ (toJs_truthy (ArkBooleanVal true) = true →
     toJs_truthy (ArkBooleanVal false) = false →
     ∀ k,
     let r := run toJs_truthy (k + 12) mutualProgram in
     fst r = Ok (ArkList 0)
     ∧ listItems <$> objs (heap (snd r)) !! 0%nat
       = Some [ArkNumberVal 2; ArkNumberVal 1]).
Proof.
  split.
  - intros fuel boundVars ark n N.
    pose proof (makeLocals_makeValRefs (map fst boundVars) [] (heap ark)) as Hmk.
    assert (boundVals (map fst boundVars) [] = replicate N ArkUndefined) as Hbound.
    { unfold boundVals. simpl. by rewrite length_map, Nat.sub_0_r. }
    rewrite Hbound in Hmk.
    pose proof (makeValRefs_fst (replicate N ArkUndefined) (heap ark)) as Hfst.
    pose proof (makeValRefs_heap (replicate N ArkUndefined) (heap ark))
      as (Hnext & Hobjs & Hgens & Hrefs).
    rewrite <- Hmk in Hfst, Hnext, Hobjs, Hgens, Hrefs.
    rewrite length_replicate in Hfst, Hrefs. fold n in Hfst, Hrefs.
    exists (push (fst (makeLocals (map fst boundVars) [] (heap ark)))
              (setHeap (snd (makeLocals (map fst boundVars) [] (heap ark))) ark)).
    rewrite eval_pushLets.
    set (lets := fst (makeLocals (map fst boundVars) [] (heap ark))) in *.
    set (h1 := snd (makeLocals (map fst boundVars) [] (heap ark))) in *.
    simpl. split; [by rewrite Hfst|]. split; [done|]. split.
    { intros i Hi. rewrite Hrefs, decide_True by lia.
      apply lookup_replicate_2. lia. }
    split. { intros l Hl. rewrite Hrefs. by rewrite decide_False by lia. }
    split; [done|]. split; [done|]. split.
    + intros vals ark2 Hvals. unfold bind at 1. rewrite Hvals.
      pose proof (mapM_length _ _ _ _ _ Hvals) as Hlen. fold N in Hlen.
      destruct (setLets_valrefs n vals ark2) as (h3 & Hset & _ & Ho3 & Hg3 & Hl3).
      rewrite Hlen in Hset, Hl3. exists h3.
      unfold bind. rewrite Hfst, Hset. unfold ret.
      rewrite length_map, length_seq. split; [done|]. split.
      { intros i Hi. rewrite Hl3, decide_True by lia. f_equal. lia. }
      split; [done|]. split; [|done].
      intros l Hl. rewrite Hl3. by rewrite decide_False by lia.
    + intros e ark2 Hvals. unfold bind at 1. by rewrite Hvals.
  - intros Htrue Hfalse k r. subst r. unfold run.
    destruct (eval_ext toJs_truthy
                (fun val => match val with
                            | ArkBooleanVal b => b
                            | _ => toJs_truthy val
                            end)) with (fuel := (k + 12)%nat) as [Heval _].
    { intros [| |[]| | | | | |]; done. }
    rewrite Heval.
    match goal with
    | |- context [eval ?t (k + 12)%nat mutualProgram initialState] =>
        change (eval t (k + 12)%nat mutualProgram initialState)
          with (run t (k + 12) mutualProgram)
    end.
    by more_fuel.
Qed.

(** A let of two literals, and the run of [mutualProgram]. *)
Lemma let_slots_precede_initializers_witness :
  (∃ ark', pushLets booleanTruth 2 [("x", num 1); ("y", num 2)] initialState
           = (Ok 2%nat, ark'))
  ∧ fst (run booleanTruth 12 mutualProgram) = Ok (ArkList 0).
Proof.
  destruct (let_slots_precede_initializers booleanTruth) as [Hlet Hmutual].
  split.
  - destruct (Hlet 1%nat [("x", num 1); ("y", num 2)] initialState)
      as (ark1 & _ & _ & _ & _ & _ & _ & Hok & _).
    destruct (Hok [ArkNumberVal 1; ArkNumberVal 2] ark1 eq_refl) as (h3 & Hpush & _).
    by exists (setHeap h3 ark1).
  - apply (Hmutual eq_refl eq_refl 0%nat).
Defined.

Lemma pop_length nItems ark :
  length (locals (frame (pop nItems ark)))
  = (length (locals (frame ark)) - nItems)%nat.
Proof.
  unfold pop. simpl. generalize (locals (frame ark)) as ls.
  induction nItems as [|n IH]; intros ls; simpl; [lia|].
  rewrite removelast_firstn_len, length_take, IH. lia.
Qed.

(** How [ArkLet.eval] leaves the frame: the slots are popped when the body
    completes (also when what it returns is the host's [undefined]) and
    when the body throws a non-local return; they are left
    in place when the body throws anything else, and whenever it is an
    initializer that throws, which happens inside [pushLets], before the
    [try] block is entered. *)
Lemma ArkLet_eval toJs_truthy fuel boundVars body ark :
  (∀ nLets ark1,
     pushLets toJs_truthy fuel boundVars ark = (Ok nLets, ark1) →
     (∀ res ark2,
        eval toJs_truthy fuel body ark1 = (Ok res, ark2) →
        eval toJs_truthy (S fuel) (ArkLet boundVars body) ark
        = (Ok res, pop nLets ark2))
     ∧ (∀ ark2,
          eval toJs_truthy fuel body ark1 = (HostUndefined, ark2) →
          eval toJs_truthy (S fuel) (ArkLet boundVars body) ark
          = (HostUndefined, pop nLets ark2))
     ∧ (∀ e ark2,
          eval toJs_truthy fuel body ark1 = (Throw e, ark2) →
          eval toJs_truthy (S fuel) (ArkLet boundVars body) ark
          = (Throw e, if isArkNonLocalReturn e then pop nLets ark2 else ark2)))
  ∧ (∀ e ark1,
       pushLets toJs_truthy fuel boundVars ark = (Throw e, ark1) →
       eval toJs_truthy (S fuel) (ArkLet boundVars body) ark = (Throw e, ark1)).
Proof.
  split.
  - intros nLets ark1 Hpush. split; [|split].
    + intros res ark2 Hbody. cbn [eval]. unfold bind, andThen, tryCatch.
      by rewrite Hpush, Hbody.
    + intros ark2 Hbody. cbn [eval]. unfold bind, andThen, tryCatch.
      by rewrite Hpush, Hbody.
    + intros e ark2 Hbody. cbn [eval]. unfold bind, andThen, tryCatch.
      rewrite Hpush, Hbody. by destruct (isArkNonLocalReturn e).
  - intros e ark1 Hpush. cbn [eval]. unfold bind. by rewrite Hpush.
Qed.

(** C6, where the code departs from it: a non-local control signal raised
    by an initializer of a let propagates out of the let with the let's
    slots still in the frame.  In any state, [let x = break 5 in x] ends
    with the signal [break 5] and one local more than before.  A loop
    around it catches the signal, so that
    [let a = 1 in loop { let x = break 5 in x }], run in the empty frame,
    completes normally with 5 and leaves one local in the frame: the outer
    let has popped the slot that the inner let left behind, not its own.  *)
Theorem let_slots_not_trimmed_on_signal_in_initializer toJs_truthy :
  (∀ fuel ark,
     let r := eval toJs_truthy (S (S (S (S fuel)))) letBreakInit ark in
     fst r = Throw (ArkBreakException (ArkNumberVal 5))
     ∧ locals (frame (snd r))
       = locals (frame ark) ++ [ArkValRef (nextRef (heap ark))])
  ∧ (∀ k,
     let r := run toJs_truthy (k + 6) letLoopLeak in
     fst r = Ok (ArkNumberVal 5)
     ∧ locals (frame initialState) = []
     ∧ locals (frame (snd r)) = [ArkValRef 0]
     ∧ refs (heap (snd r)) !! 0%nat = Some (ArkNumberVal 1)).
Proof.
  split.
  - intros fuel ark. by destruct ark as [[ls cs] h].
  - intros k r. subst r. by more_fuel.
Qed.

(** ** Iteration over a list *)

Lemma generatorNext_finished g gen h :
  gens h !! g = Some gen → genDone gen = true →
  generatorNext g h = (HostUndefined, h).
Proof. intros Hg Hdone. unfold generatorNext. by rewrite Hg, Hdone. Qed.

Lemma generatorNext_exhausted g gen o h :
  gens h !! g = Some gen → genDone gen = false →
  objs h !! genList gen = Some o →
  (length (listItems o) ≤ genIndex gen)%nat →
  generatorNext g h
  = (Ok ArkNullVal,
     setGens (<[g := mkGenerator (genList gen) (genIndex gen) true]> (gens h)) h).
Proof.
  intros Hg Hdone Ho Hlen. unfold generatorNext. rewrite Hg, Hdone, Ho.
  by rewrite lookup_ge_None_2.
Qed.

Lemma generatorNext_element g gen o elem h :
  gens h !! g = Some gen → genDone gen = false →
  objs h !! genList gen = Some o →
  listItems o !! genIndex gen = Some elem →
  generatorNext g h
  = (Ok elem,
     setGens (<[g := mkGenerator (genList gen) (S (genIndex gen)) false]> (gens h)) h).
Proof.
  intros Hg Hdone Ho Helem. unfold generatorNext. by rewrite Hg, Hdone, Ho, Helem.
Qed.

Lemma generatorNexts_finished k g gen h :
  gens h !! g = Some gen → genDone gen = true →
  generatorNexts k g h = replicate k HostUndefined.
Proof.
  intros Hg Hdone. induction k as [|k IH]; [done|].
  simpl. rewrite (generatorNext_finished g gen h Hg Hdone). by rewrite IH.
Qed.

(** An iterator over a list that is left alone gives the elements of the
    list from its index on, then the null value once, and from then on
    the host's [undefined]. *)
Lemma generatorNexts_trace k g l o m : ∀ i h,
  gens h !! g = Some (mkGenerator l i false) →
  objs h !! l = Some o →
  length (listItems o) = (i + m)%nat →
  generatorNexts (m + 1 + k) g h
  = (Ok <$> drop i (listItems o)) ++ Ok ArkNullVal :: replicate k HostUndefined.
Proof.
  induction m as [|m IH]; intros i h Hg Ho Hlen.
  - simpl. rewrite (generatorNext_exhausted g _ o h Hg eq_refl Ho) by (simpl; lia).
    rewrite drop_ge by lia. simpl. f_equal.
    apply (generatorNexts_finished k g (mkGenerator l i true)); [|done].
    simpl. apply list_lookup_insert_eq. by eapply lookup_lt_Some.
  - destruct (lookup_lt_is_Some_2 (listItems o) i) as [x Hx]; [lia|].
    cbn [Nat.add generatorNexts].
    rewrite (generatorNext_element g _ o x h Hg eq_refl Ho Hx).
    rewrite (drop_S _ _ _ Hx). simpl. f_equal.
    apply IH; [|done|lia].
    simpl. apply list_lookup_insert_eq. by eapply lookup_lt_Some.
Qed.

(** C8, and where the code departs from it.  For the list [[1, 2]] the
    callable returned by [iter()] gives 1, then 2, then the null value,
    and a second callable obtained from the same list by another [iter()]
    gives 1, 2 and the null value again, whatever the first has given.
    The fourth invocation of the callable does not give the null value:
    the generator has returned, its [next()] gives
    [{value: undefined, done: true}], and the callable returns the host's
    [undefined]; so does every later invocation ([generatorNexts_trace]). *)
Theorem list_iterator_after_exhaustion toJs_truthy :
  (∀ k,
   let r := run toJs_truthy (k + 12) iterThrice in
   fst r = Ok (ArkList 1)
   ∧ listItems <$> objs (heap (snd r)) !! 1%nat
     = Some [ArkNumberVal 1; ArkNumberVal 2; ArkNullVal;
             ArkNumberVal 1; ArkNumberVal 2; ArkNullVal])
  ∧ (∀ k, fst (run toJs_truthy (k + 12) iterFourTimes) = HostUndefined).
Proof.
  split.
  - intros k r. subst r. by more_fuel.
  - intros k. by more_fuel.
Qed.

(** ** Interning *)

Lemma value_interns TConstructor rawVal st :
  ConcreteInterned.intern (snd (ConcreteInterned.value TConstructor rawVal st)) !! rawVal
  = Some (Some (fst (ConcreteInterned.value TConstructor rawVal st))).
Proof.
  unfold ConcreteInterned.value.
  destruct (ConcreteInterned.intern st !! rawVal) as [[val|]|] eqn:Hin; simpl;
    [done|by rewrite lookup_insert_eq..].
Qed.

Lemma value_keeps_entry TConstructor rawVal st raw val :
  ConcreteInterned.intern st !! raw = Some (Some val) →
  ConcreteInterned.intern (snd (ConcreteInterned.value TConstructor rawVal st)) !! raw
  = Some (Some val).
Proof.
  intros Hin. unfold ConcreteInterned.value.
  destruct (ConcreteInterned.intern st !! rawVal) as [[v|]|] eqn:Hraw; simpl;
    [done|rewrite lookup_insert_ne; [done|intros ->; by rewrite Hin in Hraw]..].
Qed.

(** Constructions that follow one another, with no callback of the
    registry run in between, intern: whatever the state of the table, and
    whatever other scalars are constructed in between, the second
    construction from a raw scalar returns the object that the first
    returned and creates nothing.  This holds for the table of weak
    references of the frame-based interpreter, also when the table's entry
    for the scalar was cleared by the collector before the first
    construction, and for the table of the early interpreter, which has
    neither weak references nor callbacks. *)
Lemma interned_scalars_identical :
  (∀ TConstructor rawVal st,
     let r1 := ConcreteInterned.value TConstructor rawVal st in
     ConcreteInterned.value TConstructor rawVal (snd r1) = (fst r1, snd r1))
  ∧ (∀ TConstructor rawVal st others,
       let r1 := ConcreteInterned.value TConstructor rawVal st in
       let st2 := ConcreteInterned.values others (snd r1) in
       ConcreteInterned.value TConstructor rawVal st2 = (fst r1, st2))
  ∧ (∀ st,
       let r1 := ConcreteInterned.ArkNull st in
       ConcreteInterned.ArkNull (snd r1) = (fst r1, snd r1))
  ∧ (∀ b st,
       let r1 := ConcreteInterned.ArkBoolean b st in
       ConcreteInterned.ArkBoolean b (snd r1) = (fst r1, snd r1))
  ∧ (∀ n st,
       let r1 := ConcreteInterned.ArkNumber n st in
       ConcreteInterned.ArkNumber n (snd r1) = (fst r1, snd r1))
  ∧ (∀ s st,
       let r1 := ConcreteInterned.ArkString s st in
       ConcreteInterned.ArkString s (snd r1) = (fst r1, snd r1))
  ∧ (∀ rawVal st others,
       let r1 := Interp.ConcreteInterned.value rawVal st in
       let st2 := Interp.ConcreteInterned.values others (snd r1) in
       Interp.ConcreteInterned.value rawVal st2 = (fst r1, st2)).
Proof.
  assert (∀ TConstructor rawVal st others,
            let r1 := ConcreteInterned.value TConstructor rawVal st in
            let st2 := ConcreteInterned.values others (snd r1) in
            ConcreteInterned.value TConstructor rawVal st2 = (fst r1, st2))
    as Hvalues.
  { intros TConstructor rawVal st others r1 st2. subst st2.
    pose proof (value_interns TConstructor rawVal st) as Hin. fold r1 in Hin.
    revert Hin. generalize (snd r1) as st1. generalize (fst r1) as val.
    clear r1. induction others as [|[T raw] others IH]; intros val st1 Hin.
    - simpl. unfold ConcreteInterned.value. by rewrite Hin.
    - simpl. apply IH. by apply value_keeps_entry. }
  split; [intros TConstructor rawVal st; apply (Hvalues _ _ _ [])|].
  split; [exact Hvalues|].
  split; [intros st; apply (Hvalues _ _ _ [])|].
  split; [intros b st; apply (Hvalues _ _ _ [])|].
  split; [intros n st; apply (Hvalues _ _ _ [])|].
  split; [intros s st; apply (Hvalues _ _ _ [])|].
  intros rawVal st others r1 st2. subst st2.
  assert (Interp.ConcreteInterned.intern (snd r1) !! rawVal = Some (fst r1)) as Hin.
  { subst r1. unfold Interp.ConcreteInterned.value.
    destruct (Interp.ConcreteInterned.intern st !! rawVal) as [val|] eqn:Hst; simpl;
      [done|by rewrite lookup_insert_eq]. }
  revert Hin. generalize (snd r1) as st1. generalize (fst r1) as val.
  clear r1. induction others as [|raw others IH]; intros val st1 Hin.
  - simpl. unfold Interp.ConcreteInterned.value. by rewrite Hin.
  - simpl. apply IH. unfold Interp.ConcreteInterned.value.
    destruct (Interp.ConcreteInterned.intern st1 !! raw) as [v|] eqn:Hraw; simpl;
      [done|].
    rewrite lookup_insert_ne; [done|]. intros ->. by rewrite Hin in Hraw.
Qed.


(** C7, and where the code departs from it.  The callback of the
    finalization registry deletes the table's entry for the raw scalar of
    the reclaimed object, whatever that entry has become.  Take any raw
    scalar and construct a value from it; let the program drop the value
    and the collector reclaim it; construct a value from the same scalar
    again, which makes a second object, the entry being cleared; let the
    host now run the callback for the first object: it deletes the entry
    of the second.  A third construction from the scalar makes a third
    object.  The second and the third object are both alive and hold the
    same raw scalar, and they are not the same object. *)
Theorem stale_cleanup_breaks_interning TConstructor rawVal :
  let r1 := ConcreteInterned.value TConstructor rawVal ConcreteInterned.empty in
  let r2 :=
    ConcreteInterned.value TConstructor rawVal
      (ConcreteInterned.reclaim (fst r1) (snd r1)) in
  let r3 :=
    ConcreteInterned.value TConstructor rawVal
      (ConcreteInterned.cleanup (fst r1) (snd r2)) in
  fst r2 ≠ fst r3
  ∧ (fst r2 ∉ ConcreteInterned.reclaimed (snd r3))
  ∧ (fst r3 ∉ ConcreteInterned.reclaimed (snd r3))
  ∧ ConcreteInterned.concreteVals (snd r3) !! fst r2 = Some (TConstructor, rawVal)
  ∧ ConcreteInterned.concreteVals (snd r3) !! fst r3 = Some (TConstructor, rawVal).
Proof.
  intros r1 r2 r3.
  assert (r1 = (0%nat,
                ConcreteInterned.mkState {[rawVal := Some 0%nat]}
                  [(TConstructor, rawVal)] [(0%nat, rawVal)] [])) as H1.
  { subst r1. unfold ConcreteInterned.value. simpl. rewrite lookup_empty. simpl.
    by rewrite insert_empty. }
  assert (r2 = (1%nat,
                ConcreteInterned.mkState {[rawVal := Some 1%nat]}
                  [(TConstructor, rawVal); (TConstructor, rawVal)]
                  [(0%nat, rawVal); (1%nat, rawVal)] [0%nat])) as H2.
  { subst r2. rewrite H1. unfold ConcreteInterned.value, ConcreteInterned.reclaim.
    simpl. rewrite map_fmap_singleton. rewrite decide_True by done.
    rewrite lookup_singleton_eq. simpl. by rewrite insert_singleton_eq. }
  assert (r3 = (2%nat,
                ConcreteInterned.mkState {[rawVal := Some 2%nat]}
                  [(TConstructor, rawVal); (TConstructor, rawVal);
                   (TConstructor, rawVal)]
                  [(1%nat, rawVal); (2%nat, rawVal)] [0%nat])) as H3.
  { subst r3. rewrite H1, H2. unfold ConcreteInterned.value, ConcreteInterned.cleanup.
    simpl. rewrite delete_singleton_eq, lookup_empty.
    by rewrite insert_empty. }
  rewrite H2, H3. simpl. repeat split; try done.
  - intros H. apply list_elem_of_singleton in H. done.
  - intros H. apply list_elem_of_singleton in H. done.
Qed.

(** Interning is what makes identity coincide with equality of raw
    values: in a well-formed table, the object constructed for a raw
    scalar holds that scalar, so that two different raw scalars are never
    given the same object. *)
Lemma value_wf TConstructor rawVal st :
  ConcreteInterned.wf st →
  ConcreteInterned.wf (snd (ConcreteInterned.value TConstructor rawVal st)).
Proof.
  intros Hwf. unfold ConcreteInterned.value.
  assert (ConcreteInterned.wf
            (ConcreteInterned.mkState
               (<[rawVal := Some (length (ConcreteInterned.concreteVals st))]>
                  (ConcreteInterned.intern st))
               (ConcreteInterned.concreteVals st ++ [(TConstructor, rawVal)])
               (ConcreteInterned.registry st
                  ++ [(length (ConcreteInterned.concreteVals st), rawVal)])
               (ConcreteInterned.reclaimed st)))
    as Hnew.
  { intros raw val. simpl. destruct (decide (rawVal = raw)) as [->|Hne].
    - rewrite lookup_insert_eq. intros [= <-]. exists TConstructor.
      rewrite lookup_app_r by lia. by rewrite Nat.sub_diag.
    - rewrite lookup_insert_ne by done. intros Hraw.
      destruct (Hwf raw val Hraw) as [T HT]. exists T.
      rewrite lookup_app_l; [done|]. by eapply lookup_lt_Some. }
  destruct (ConcreteInterned.intern st !! rawVal) as [[val|]|]; done.
Qed.

Lemma value_holds_raw TConstructor rawVal st :
  ConcreteInterned.wf st →
  ∃ T, ConcreteInterned.concreteVals (snd (ConcreteInterned.value TConstructor rawVal st))
         !! fst (ConcreteInterned.value TConstructor rawVal st)
       = Some (T, rawVal).
Proof.
  intros Hwf. unfold ConcreteInterned.value.
  destruct (ConcreteInterned.intern st !! rawVal) as [[val|]|] eqn:Hin; simpl.
  - by apply Hwf.
  - exists TConstructor. rewrite lookup_app_r by lia. by rewrite Nat.sub_diag.
  - exists TConstructor. rewrite lookup_app_r by lia. by rewrite Nat.sub_diag.
Qed.

Lemma value_keeps_objects TConstructor rawVal st val x :
  ConcreteInterned.concreteVals st !! val = Some x →
  ConcreteInterned.concreteVals (snd (ConcreteInterned.value TConstructor rawVal st))
    !! val = Some x.
Proof.
  intros Hval. unfold ConcreteInterned.value.
  destruct (ConcreteInterned.intern st !! rawVal) as [[v|]|]; simpl; try done;
    (rewrite lookup_app_l; [done|by eapply lookup_lt_Some]).
Qed.

Lemma interned_scalars_distinct T1 T2 raw1 raw2 st :
  ConcreteInterned.wf st → raw1 ≠ raw2 →
  let r1 := ConcreteInterned.value T1 raw1 st in
  fst r1 ≠ fst (ConcreteInterned.value T2 raw2 (snd r1)).
Proof.
  intros Hwf Hne r1 Heq. subst r1.
  destruct (value_holds_raw T1 raw1 st Hwf) as [T Hv1].
  pose proof (value_wf T1 raw1 st Hwf) as Hwf1.
  destruct (value_holds_raw T2 raw2 _ Hwf1) as [T' Hv2].
  apply (value_keeps_objects T2 raw2) in Hv1. rewrite Heq in Hv1.
  rewrite Hv1 in Hv2. by injection Hv2 as _ ->.
Qed.

(* ================================================================== *)
(** * Properties of the early interpreter *)
(* ================================================================== *)

(** ** Equality *)

Section ExportFacts.
Variable export : Interp.Val → nat → option (Interp.JsVal * nat).
Hypothesis export_le : ∀ v n j n', export v n = Some (j, n') → (n ≤ n')%nat.



End ExportFacts.











(* ================================================================== *)
(** * More properties of the frame-based interpreter *)
(* ================================================================== *)

(** ** The frame during an evaluation *)

Lemma keepsFrame_refl ark : keepsFrame ark ark.
Proof. split; [done|reflexivity]. Qed.

Lemma keepsFrame_trans ark1 ark2 ark3 :
  keepsFrame ark1 ark2 → keepsFrame ark2 ark3 → keepsFrame ark1 ark3.
Proof. intros [H1 H2] [H3 H4]. split; [congruence|by etrans]. Qed.

Lemma keepsFrame_setHeap ark h : keepsFrame ark (setHeap h ark).
Proof. split; [done|reflexivity]. Qed.

Lemma bind_keepsFrame {A B} (m : M A) (k : A → M B) :
  (∀ ark, keepsFrame ark (snd (m ark))) →
  (∀ a ark, keepsFrame ark (snd (k a ark))) →
  ∀ ark, keepsFrame ark (snd (bind m k ark)).
Proof.
  intros Hm Hk ark. unfold bind. specialize (Hm ark).
  destruct (m ark) as [[a|e| | |] ark1]; simpl in *; try done.
  eapply keepsFrame_trans; [exact Hm|apply Hk].
Qed.

Lemma tryCatch_keepsFrame {A} (m : M A) (handler : Thrown → M A) :
  (∀ ark, keepsFrame ark (snd (m ark))) →
  (∀ e ark, keepsFrame ark (snd (handler e ark))) →
  ∀ ark, keepsFrame ark (snd (tryCatch m handler ark)).
Proof.
  intros Hm Hk ark. unfold tryCatch. specialize (Hm ark).
  destruct (m ark) as [[a|e| | |] ark1]; simpl in *; try done.
  eapply keepsFrame_trans; [exact Hm|apply Hk].
Qed.

Lemma onUndefined_keepsFrame {A} (m handler : M A) :
  (∀ ark, keepsFrame ark (snd (m ark))) →
  (∀ ark, keepsFrame ark (snd (handler ark))) →
  ∀ ark, keepsFrame ark (snd (onUndefined m handler ark)).
Proof.
  intros Hm Hh ark. unfold onUndefined. specialize (Hm ark).
  destruct (m ark) as [[a|e| | |] ark1]; simpl in *; try done.
  eapply keepsFrame_trans; [exact Hm|apply Hh].
Qed.

Lemma lastOf_keepsFrame {A} (f : A → M ArkVal) (l : list A) :
  (∀ x ark, keepsFrame ark (snd (f x ark))) →
  ∀ res ark, keepsFrame ark (snd (lastOf f l res ark)).
Proof.
  intros Hf. induction l as [|x l IH]; intros res ark; cbn [lastOf].
  - apply keepsFrame_refl.
  - specialize (Hf x ark).
    destruct (f x ark) as [[val|e| | |] ark1]; simpl in *; try done;
      (eapply keepsFrame_trans; [exact Hf|apply IH]).
Qed.

Lemma mapM_keepsFrame {A B} (f : A → M B) (l : list A) :
  (∀ x ark, keepsFrame ark (snd (f x ark))) →
  ∀ ark, keepsFrame ark (snd (mapM f l ark)).
Proof.
  intros Hf. induction l as [|x l IH]; intros ark; simpl.
  - apply keepsFrame_refl.
  - apply bind_keepsFrame; [apply Hf|]. intros y.
    apply bind_keepsFrame; [apply IH|]. intros ys ark'. apply keepsFrame_refl.
Qed.

Lemma getRef_keepsFrame ref ark : keepsFrame ark (snd (getRef ref ark)).
Proof. apply keepsFrame_refl. Qed.

Lemma setRef_keepsFrame ref val ark : keepsFrame ark (snd (setRef ref val ark)).
Proof.
  unfold setRef. destruct (refSet ref val (heap ark)); simpl;
    try apply keepsFrame_refl. apply keepsFrame_setHeap.
Qed.

Lemma setLets_keepsFrame lets : ∀ vals ark,
  keepsFrame ark (snd (setLets lets vals ark)).
Proof.
  induction lets as [|ref lets IH]; intros [|val vals] ark; simpl;
    try apply keepsFrame_refl.
  apply bind_keepsFrame; [apply setRef_keepsFrame|]. intros _. apply IH.
Qed.

Lemma removelast_prefix {A} (l x : list A) :
  l `prefix_of` x → (length l < length x)%nat → l `prefix_of` removelast x.
Proof.
  intros [y ->] Hlen. rewrite length_app in Hlen.
  destruct y as [|a y]; [simpl in Hlen; lia|].
  rewrite removelast_app by done. by eexists.
Qed.

Lemma length_removelast' {A} (x : list A) :
  length (removelast x) = (length x - 1)%nat.
Proof.
  induction x as [|a [|b x] IH]; simpl in *; try done. rewrite IH. lia.
Qed.

Lemma pops_prefix {A} n : ∀ (l x : list A),
  l `prefix_of` x → (length l + n ≤ length x)%nat →
  l `prefix_of` Nat.iter n (@removelast A) x.
Proof.
  induction n as [|n IH]; intros l x Hp Hlen; simpl; [done|].
  apply removelast_prefix.
  - apply IH; [done|lia].
  - clear IH Hp. assert (length (Nat.iter n (@removelast A) x) = (length x - n)%nat) as ->.
    { clear. induction n as [|n IH]; simpl; [lia|]. rewrite length_removelast', IH. lia. }
    lia.
Qed.

Lemma pop_keepsFrame ark0 ark n :
  keepsFrame ark0 ark →
  (length (locals (frame ark0)) + n ≤ length (locals (frame ark)))%nat →
  keepsFrame ark0 (pop n ark).
Proof.
  intros [Hc Hp] Hlen. split; simpl; [done|]. by apply pops_prefix.
Qed.

Lemma keepsFrame_length ark ark' :
  keepsFrame ark ark' →
  (length (locals (frame ark)) ≤ length (locals (frame ark')))%nat.
Proof. intros [_ Hp]. by apply prefix_length. Qed.

Section KeepsFrame.
Variable toJs_truthy : ArkVal → bool.

Lemma eval_keepsFrame_aux fuel :
  (∀ e ark, keepsFrame ark (snd (eval toJs_truthy fuel e ark)))
  ∧ (∀ lexp ark, keepsFrame ark (snd (evalRef toJs_truthy fuel lexp ark)))
  ∧ (∀ boundVars ark,
       keepsFrame ark (snd (pushLets toJs_truthy fuel boundVars ark))
       ∧ ∀ n, fst (pushLets toJs_truthy fuel boundVars ark) = Ok n →
              (length (locals (frame ark)) + n
               ≤ length (locals (frame (snd (pushLets toJs_truthy fuel boundVars ark)))))%nat).
Proof.
  induction fuel as [|fuel (IHe & IHr & IHp)].
  { repeat split; intros; simpl; try apply keepsFrame_refl; try reflexivity. done. }
  split; [|split].
  - intros e.
    destruct e as [val|exp| |exp|params capturedVars body|fn args|lexp|lexp exp
                  |properties|items|boundVars body|exps|cond thenExp elseExp
                  |left' right'|left' right'|body]; [cbn [eval]..|].
    + intros; apply keepsFrame_refl.
    + apply bind_keepsFrame; [|intros; apply keepsFrame_refl].
      apply onUndefined_keepsFrame; [apply IHe|intros; apply keepsFrame_refl].
    + intros; apply keepsFrame_refl.
    + apply bind_keepsFrame; [|intros; apply keepsFrame_refl].
      apply onUndefined_keepsFrame; [apply IHe|intros; apply keepsFrame_refl].
    + apply bind_keepsFrame; [apply mapM_keepsFrame, IHr|]. intros; apply keepsFrame_refl.
    + apply bind_keepsFrame;
        [apply onUndefined_keepsFrame; [apply IHe|intros; apply keepsFrame_refl]|].
      intros fnVal ark.
      destruct (negb (isArkCallable fnVal)); [apply keepsFrame_refl|].
      revert ark. apply bind_keepsFrame; [apply mapM_keepsFrame, IHe|].
      intros evaluatedArgs ark.
      destruct (makeLocals _ _ _) as [ls h]. destruct (call _ _ _ _) as [res callee].
      simpl. split; [done|reflexivity].
    + apply bind_keepsFrame; [|intros; apply getRef_keepsFrame].
      apply onUndefined_keepsFrame; [apply IHr|intros; apply keepsFrame_refl].
    + apply bind_keepsFrame.
      { apply onUndefined_keepsFrame; [apply IHr|].
        apply bind_keepsFrame; [|intros; apply keepsFrame_refl].
        apply onUndefined_keepsFrame; [apply IHe|intros; apply keepsFrame_refl]. }
      intros ref.
      apply bind_keepsFrame; [apply IHe|]. intros res.
      apply bind_keepsFrame; [intros; apply getRef_keepsFrame|]. intros oldVal ark.
      destruct (differentType oldVal res); [apply keepsFrame_refl|apply setRef_keepsFrame].
    + apply bind_keepsFrame.
      * apply mapM_keepsFrame. intros kv.
        apply bind_keepsFrame; [apply IHe|]. intros; apply keepsFrame_refl.
      * intros inits ark. destruct (newArkObject _ _) as [obj h]. apply keepsFrame_setHeap.
    + apply bind_keepsFrame; [apply mapM_keepsFrame, IHe|].
      intros vs ark. destruct (newArkList _ _) as [obj h]. apply keepsFrame_setHeap.
    + intros ark. unfold bind at 1.
      destruct (IHp boundVars ark) as [Hk Hn].
      destruct (pushLets toJs_truthy fuel boundVars ark) as [[nLets|e| | |] ark1];
        simpl in *; try done.
      specialize (Hn _ eq_refl).
      unfold andThen, tryCatch. pose proof (IHe body ark1) as Hb.
      destruct (eval toJs_truthy fuel body ark1) as [[res|e| | |] ark2]; simpl in *;
        try (by eapply keepsFrame_trans).
      * apply pop_keepsFrame; [by eapply keepsFrame_trans|].
        apply keepsFrame_length in Hb. lia.
      * destruct (isArkNonLocalReturn e); simpl.
        -- apply pop_keepsFrame; [by eapply keepsFrame_trans|].
           apply keepsFrame_length in Hb. lia.
        -- by eapply keepsFrame_trans.
      * apply pop_keepsFrame; [by eapply keepsFrame_trans|].
        apply keepsFrame_length in Hb. lia.
    + by apply lastOf_keepsFrame.
    + apply bind_keepsFrame; [apply IHe|]. intros condVal ark.
      destruct (toJs_truthy condVal); [apply IHe|].
      destruct elseExp; [apply IHe|apply keepsFrame_refl].
    + apply bind_keepsFrame; [apply IHe|]. intros leftVal ark.
      destruct (toJs_truthy leftVal); [apply IHe|apply keepsFrame_refl].
    + apply bind_keepsFrame; [apply IHe|]. intros leftVal ark.
      destruct (toJs_truthy leftVal); [apply keepsFrame_refl|apply IHe].
    + intros ark. rewrite eval_ArkLoop. pose proof (IHe body ark) as Hb.
      destruct (eval toJs_truthy fuel body ark) as [[res|[]| | |] ark1]; simpl in *; try done.
      * eapply keepsFrame_trans; [exact Hb|apply IHe].
      * eapply keepsFrame_trans; [exact Hb|apply IHe].
      * eapply keepsFrame_trans; [exact Hb|apply IHe].
  - intros lexp ark. destruct lexp; cbn [evalRef].
    + destruct (locals (frame ark) !! index); apply keepsFrame_refl.
    + destruct (captures (frame ark) !! index); apply keepsFrame_refl.
    + revert ark. apply bind_keepsFrame;
        [apply onUndefined_keepsFrame; [apply IHe|intros; apply keepsFrame_refl]|].
      intros o ark.
      destruct (negb (isArkAbstractObjectBase o)); apply keepsFrame_refl.
  - intros boundVars ark. rewrite eval_pushLets.
    set (lets := fst (makeLocals (map fst boundVars) [] (heap ark))).
    set (h := snd (makeLocals (map fst boundVars) [] (heap ark))).
    assert (length lets = length boundVars) as Hlen.
    { subst lets. rewrite makeLocals_makeValRefs, makeValRefs_fst.
      rewrite length_map, length_seq. unfold boundVals. simpl.
      rewrite length_replicate, length_map. lia. }
    assert (keepsFrame ark (push lets (setHeap h ark))
            ∧ length (locals (frame (push lets (setHeap h ark))))
              = (length (locals (frame ark)) + length lets)%nat) as [H0 H0len].
    { split; [split|]; simpl; [done|by apply prefix_app_r|by rewrite length_app]. }
    generalize dependent (push lets (setHeap h ark)). intros ark0 H0 H0len.
    unfold bind.
    pose proof (mapM_keepsFrame (fun bv : string * ArkExp => eval toJs_truthy fuel (snd bv))
                  boundVars (fun x => IHe (snd x)) ark0) as H1.
    destruct (mapM _ boundVars ark0) as [[vals|e| | |] ark1]; simpl in *;
      try (split; [by eapply keepsFrame_trans|done]).
    pose proof (setLets_keepsFrame lets vals ark1) as H2.
    destruct (setLets lets vals ark1) as [[[]|e| | |] ark2]; simpl in *;
      try (split; [by eauto using keepsFrame_trans|done]).
    split; [by eauto using keepsFrame_trans|].
    intros n [= <-]. apply keepsFrame_length in H1, H2. lia.
Qed.

End KeepsFrame.

(** X1: an evaluation keeps the frame it runs in.  However the evaluation
    of an expression ends, with a value, with an error or a control signal,
    or without a result, the captures of the frame are the ones it started
    with, and the locals it started with are still there, in place, at the
    start of the frame's locals: no evaluation removes or replaces a local
    of the frame it was started in, and a call leaves the frame of its
    caller alone.  (The frame can have gained locals.) *)
Theorem evaluation_keeps_the_frame toJs_truthy fuel e ark :
  let ark' := snd (eval toJs_truthy fuel e ark) in
  captures (frame ark') = captures (frame ark)
  ∧ locals (frame ark) `prefix_of` locals (frame ark').
Proof. apply eval_keepsFrame_aux. Qed.


(** ** Loops, calls and sequences *)

(** X2: a loop ends only by what its body throws.  If the loop gives a
    value, a turn of the body threw a break exception with that value, and
    the loop ends in the state of that throw; if the loop throws, it throws
    what a turn of its body threw, in the state of that throw, and that is
    neither a break nor a continue exception: these two never leave the
    loop. *)
Theorem loop_ends_by_break toJs_truthy body : ∀ fuel ark,
  (∀ val ark',
     eval toJs_truthy fuel (ArkLoop body) ark = (Ok val, ark') →
     ∃ fuel' ark1,
       (fuel' < fuel)%nat
       ∧ eval toJs_truthy fuel' body ark1 = (Throw (ArkBreakException val), ark'))
  ∧ (∀ e ark',
       eval toJs_truthy fuel (ArkLoop body) ark = (Throw e, ark') →
       (∀ val, e ≠ ArkBreakException val ∧ e ≠ ArkContinueException val)
       ∧ ∃ fuel' ark1,
           (fuel' < fuel)%nat
           ∧ eval toJs_truthy fuel' body ark1 = (Throw e, ark')).
Proof.
  induction fuel as [|fuel IH]; intros ark; [by split; intros|].
  rewrite eval_ArkLoop.
  destruct (eval toJs_truthy fuel body ark) as [[res|e0| | |] ark1] eqn:Hb.
  - destruct (IH ark1) as [IH1 IH2]. split.
    + intros val ark' H. destruct (IH1 _ _ H) as (f & a & ? & ?).
      exists f, a. split; [lia|done].
    + intros e ark' H. destruct (IH2 _ _ H) as (? & f & a & ? & ?).
      split; [done|]. exists f, a. split; [lia|done].
  - destruct e0 as [m|v|v|v|m].
    + split; [done|]. intros e ark' [= <- <-]. split; [done|].
      exists fuel, ark. split; [lia|done].
    + split; [|done]. intros val ark' [= <- <-]. exists fuel, ark. split; [lia|done].
    + destruct (IH ark1) as [IH1 IH2]. split.
      * intros val ark' H. destruct (IH1 _ _ H) as (f & a & ? & ?).
        exists f, a. split; [lia|done].
      * intros e ark' H. destruct (IH2 _ _ H) as (? & f & a & ? & ?).
        split; [done|]. exists f, a. split; [lia|done].
    + split; [done|]. intros e ark' [= <- <-]. split; [done|].
      exists fuel, ark. split; [lia|done].
    + split; [done|]. intros e ark' [= <- <-]. split; [done|].
      exists fuel, ark. split; [lia|done].
  - destruct (IH ark1) as [IH1 IH2]. split.
    + intros val ark' H. destruct (IH1 _ _ H) as (f & a & ? & ?).
      exists f, a. split; [lia|done].
    + intros e ark' H. destruct (IH2 _ _ H) as (? & f & a & ? & ?).
      split; [done|]. exists f, a. split; [lia|done].
  - by split.
  - by split.
Qed.

(** [loop { break 5 }] ends by the break of its body. *)
Lemma loop_ends_by_break_witness :
  ∃ fuel' ark1,
    (fuel' < 3)%nat
    ∧ eval booleanTruth fuel' (ArkBreak (num 5)) ark1
      = (Throw (ArkBreakException (ArkNumberVal 5)), initialState).
Proof.
  exact (proj1 (loop_ends_by_break booleanTruth (ArkBreak (num 5)) 3 initialState)
           (ArkNumberVal 5) initialState eq_refl).
Defined.

Lemma refGet_throws ref h e :
  refGet ref h = Throw e → ∃ message, e = ArkRuntimeError message.
Proof.
  destruct ref as [l|obj prop]; simpl.
  - by destruct (refs h !! l).
  - destruct (objGet h obj prop) as [val|e'| | |] eqn:Hg; try done.
    + destruct (isArkUndefined val); [|done]. intros [= <-]. by eexists.
    + destruct obj; simpl in Hg; try done;
        by destruct (objs h !! l).
Qed.

Lemma mapM_getRef_throws refs : ∀ ark e ark',
  mapM getRef refs ark = (Throw e, ark') → ∃ message, e = ArkRuntimeError message.
Proof.
  induction refs as [|ref refs IH]; intros ark e ark'; simpl; [done|].
  unfold bind at 1. unfold getRef at 1.
  destruct (refGet ref (heap ark)) as [val|e'| | |] eqn:Hg; try done.
  - unfold bind at 1.
    destruct (mapM getRef refs ark) as [[vals|e'| | |] ark1] eqn:Hm; try done.
    intros [= <- <-]. by eapply IH.
  - intros [= <- <-]. by eapply refGet_throws.
Qed.

Lemma generatorNext_throws g h e : fst (generatorNext g h) ≠ Throw e.
Proof.
  unfold generatorNext. destruct (gens h !! g) as [gen|]; [|done].
  destruct (genDone gen); [done|].
  destruct (objs h !! genList gen) as [o|]; [|done].
  by destruct (listItems o !! genIndex gen).
Qed.

Lemma callNative_throws body args h e : fst (callNative body args h) ≠ Throw e.
Proof.
  destruct body; simpl; try done.
  - by destruct (objs h !! l).
  - destruct (objs h !! l); [|done]. by destruct args.
  - by destruct (objs h !! l).
  - apply generatorNext_throws.
Qed.

(** X3: [return] ends the call and nothing else.  When the body of a
    closure throws a return exception the call gives its value, in the
    state of the throw; whatever else the body throws, a break or a
    continue exception included, the call throws too; and no call, of a
    closure or of a native function, throws a return exception. *)
Theorem return_ends_the_call toJs_truthy fuel :
  (∀ params caps body ark val ark',
     eval toJs_truthy fuel body ark = (Throw (ArkReturnException val), ark') →
     call toJs_truthy (S fuel) (ArkClosure params caps body) ark = (Ok val, ark'))
  ∧ (∀ params caps body ark e ark',
       eval toJs_truthy fuel body ark = (Throw e, ark') →
       (∀ val, e ≠ ArkReturnException val) →
       call toJs_truthy (S fuel) (ArkClosure params caps body) ark = (Throw e, ark'))
  ∧ (∀ fnVal ark val ark',
       call toJs_truthy fuel fnVal ark ≠ (Throw (ArkReturnException val), ark')).
Proof.
  split; [|split].
  - intros params caps body ark val ark' H. cbn [call]. unfold tryCatch. by rewrite H.
  - intros params caps body ark e ark' H Hne. cbn [call]. unfold tryCatch. rewrite H.
    destruct e; try done. by destruct (Hne val).
  - intros fnVal ark val ark'. destruct fuel as [|fuel']; [done|].
    destruct fnVal; cbn [call]; try done.
    + unfold tryCatch.
      destruct (eval toJs_truthy fuel' body ark) as [[res|[]| | |] ark1]; done.
    + unfold bind, localValues.
      destruct (mapM getRef (locals (frame ark)) ark) as [[vals|e| | |] ark1] eqn:Hm;
        try done.
      * pose proof (callNative_throws body vals (heap ark1) (ArkReturnException val)) as Hn.
        destruct (callNative body vals (heap ark1)) as [res h]. simpl in Hn. congruence.
      * apply mapM_getRef_throws in Hm as [m ->]. done.
Qed.

(** [(fn () { return 1 })()] *)
Lemma return_ends_the_call_witness :
  call booleanTruth 3 (ArkClosure [] [] (ArkReturn (num 1))) initialState
  = (Ok (ArkNumberVal 1), initialState).
Proof.
  exact (proj1 (return_ends_the_call booleanTruth 2) [] [] (ArkReturn (num 1))
           initialState (ArkNumberVal 1) initialState eq_refl).
Defined.

(** X4: a sequence evaluates its expressions in order, each in the state
    the one before left, and gives what the last of them gives; the empty
    sequence gives null.  What an expression before the last returns is
    dropped, the host's [undefined] like a value: the sequence goes on with
    the next expression.  When an expression throws, the sequence ends
    there with what was thrown, and the expressions after it are not
    evaluated.  In [iterThenSet] the assignment that follows a call
    returning [undefined] is carried out. *)
Theorem sequence_evaluates_in_order toJs_truthy fuel :
  (∀ ark, eval toJs_truthy (S fuel) (ArkSequence []) ark = (Ok ArkNullVal, ark))
  ∧ (∀ e ark, eval toJs_truthy (S fuel) (ArkSequence [e]) ark = eval toJs_truthy fuel e ark)
  ∧ (∀ e e' exps ark,
       eval toJs_truthy (S fuel) (ArkSequence (e :: e' :: exps)) ark =
       match eval toJs_truthy fuel e ark with
       | (Ok _, ark1) | (HostUndefined, ark1) =>
           eval toJs_truthy (S fuel) (ArkSequence (e' :: exps)) ark1
       | r => r
       end)
  ∧ (∀ k, fst (run toJs_truthy (k + 12) iterThenSet) = Ok (ArkStringVal "t")).
Proof.
  split; [done|split; [|split]].
  - intros e ark. cbn [eval lastOf].
    by destruct (eval toJs_truthy fuel e ark) as [[] ?].
  - intros e e' exps ark. cbn [eval lastOf].
    by destruct (eval toJs_truthy fuel e ark) as [[] ?].
  - intros k. by more_fuel.
Qed.


(** ** The locals of a frame *)

(** X5: [pop] undoes [push].  Popping as many items as were pushed gives
    back the state before the push.  In general [pop] removes the last
    [nItems] locals, all of them when there are fewer, and touches neither
    the captures nor the heap: a reference that was popped is still held by
    the closures that captured it. *)
Theorem pop_undoes_push :
  (∀ items ark, pop (length items) (push items ark) = ark)
  ∧ (∀ nItems ark,
       locals (frame (pop nItems ark))
       = take (length (locals (frame ark)) - nItems) (locals (frame ark))
       ∧ captures (frame (pop nItems ark)) = captures (frame ark)
       ∧ heap (pop nItems ark) = heap ark).
Proof.
  assert (∀ n (l : list ArkRef),
            Nat.iter n (@removelast ArkRef) l = take (length l - n) l) as Hpop.
  { induction n as [|n IH]; intros l; simpl.
    - by rewrite Nat.sub_0_r, firstn_all.
    - rewrite IH, removelast_firstn_len, length_take, take_take. f_equal. lia. }
  split.
  - intros items [[ls caps] h]. unfold pop, push. simpl. rewrite Hpop, length_app.
    replace (length ls + length items - length items)%nat with (length ls) by lia.
    by rewrite take_app_length.
  - intros n ark. unfold pop. simpl. by rewrite Hpop.
Qed.

Lemma setObjs_id h l o : objs h !! l = Some o → setObjs (<[l := o]> (objs h)) h = h.
Proof. intros H. destruct h. unfold setObjs. simpl in *. by rewrite list_insert_id. Qed.


(** ** Lists *)

(** X6: the natives [len], [push] and [pop] of a list.  [len] gives the
    number of items and changes nothing.  [push] appends its first
    argument to the items, leaves the properties of the list and every
    other object alone, and returns the list itself; [len] is then one
    more, and a [pop] after it returns the list and gives back the heap
    before the [push].  [pop] removes the last item and returns the list;
    on an empty list it changes nothing. *)
Theorem list_push_pop_len h l o :
  objs h !! l = Some o →
  (∀ args,
     callNative (ListLen l) args h
     = (Ok (ArkNumberVal (Z.of_nat (length (listItems o)))), h))
  ∧ (∀ item rest,
       let h1 := snd (callNative (ListPush l) (item :: rest) h) in
       fst (callNative (ListPush l) (item :: rest) h) = Ok (ArkList l)
       ∧ objs h1 !! l = Some (mkHeapObj (properties o) (listItems o ++ [item]))
       ∧ (∀ l', l' ≠ l → objs h1 !! l' = objs h !! l')
       ∧ callNative (ListLen l) [] h1
         = (Ok (ArkNumberVal (Z.of_nat (length (listItems o)) + 1)), h1)
       ∧ callNative (ListPop l) [] h1 = (Ok (ArkList l), h))
  ∧ (∀ args,
       fst (callNative (ListPop l) args h) = Ok (ArkList l)
       ∧ objs (snd (callNative (ListPop l) args h)) !! l
         = Some (mkHeapObj (properties o) (removelast (listItems o))))
  ∧ (listItems o = [] → ∀ args, callNative (ListPop l) args h = (Ok (ArkList l), h)).
Proof.
  intros Ho. pose proof (lookup_lt_Some _ _ _ Ho) as Hl.
  split; [|split; [|split]].
  - intros args. simpl. by rewrite Ho.
  - intros item rest. simpl. rewrite Ho. simpl. unfold setListItems. rewrite Ho. simpl.
    rewrite list_lookup_insert_eq by done. simpl.
    split; [done|]. split; [done|]. split.
    { intros l' Hne. by rewrite list_lookup_insert_ne. }
    split.
    { rewrite length_app. simpl. do 3 f_equal. lia. }
    f_equal. unfold setObjs at 1. simpl.
    rewrite list_insert_insert_eq, removelast_last.
    destruct o, h. simpl in *. unfold setObjs. simpl. by rewrite list_insert_id.
  - intros args. simpl. rewrite Ho. simpl. unfold setListItems. rewrite Ho. simpl.
    by rewrite list_lookup_insert_eq.
  - intros Hnil args. simpl. rewrite Ho. unfold setListItems. rewrite Ho, Hnil. simpl.
    f_equal. apply setObjs_id. destruct o. simpl in *. by subst.
Qed.

(** Pushing [2] on the list [[1]] and popping it again. *)
Lemma list_push_pop_len_witness :
  let h := snd (newArkList [ArkNumberVal 1] emptyHeap) in
  callNative (ListPop 0) [] (snd (callNative (ListPush 0) [ArkNumberVal 2] h))
  = (Ok (ArkList 0), h).
Proof.
  exact (proj2 (proj2 (proj2 (proj2 (proj1 (proj2
           (list_push_pop_len (snd (newArkList [ArkNumberVal 1] emptyHeap)) 0 _ eq_refl))
           (ArkNumberVal 2) []))))).
Defined.

(** X7: the iterator of a list reads the list as it is when it is asked.
    [iter] returns a new native function over a new generator.  Called
    again and again it gives the items of the list in order and then null;
    when an item is pushed on the list after the iterator was made, the
    iterator gives that item too before it gives null. *)
Theorem list_iterator_follows_the_list h l o item :
  objs h !! l = Some o →
  let g := length (gens h) in
  let h1 := snd (callNative (ListIter l) [] h) in
  let h2 := snd (callNative (ListPush l) [item] h1) in
  fst (callNative (ListIter l) [] h) = Ok (NativeFn [] (ListIterNext g))
  ∧ generatorNexts (length (listItems o) + 1) g h1
    = (Ok <$> listItems o) ++ [Ok ArkNullVal]
  ∧ generatorNexts (length (listItems o) + 2) g h2
    = (Ok <$> listItems o ++ [item]) ++ [Ok ArkNullVal].
Proof.
  intros Ho g h1 h2. split; [done|].
  assert (gens h1 !! g = Some (mkGenerator l 0 false)) as Hg.
  { subst h1 g. simpl. by rewrite lookup_app_r, Nat.sub_diag by lia. }
  assert (objs h1 = objs h) as Hobjs by done.
  split.
  - pose proof (generatorNexts_trace 0 g l o (length (listItems o)) 0 h1 Hg) as H.
    rewrite Hobjs in H. specialize (H Ho eq_refl).
    rewrite Nat.add_0_r in H. by rewrite H.
  - assert (objs h2 !! l = Some (mkHeapObj (properties o) (listItems o ++ [item]))) as Ho2.
    { subst h2 h1. simpl. rewrite Ho. simpl. unfold setListItems. simpl. rewrite Ho.
      simpl. rewrite list_lookup_insert_eq; [done|]. by eapply lookup_lt_Some. }
    assert (gens h2 !! g = Some (mkGenerator l 0 false)) as Hg2.
    { subst h2 h1. simpl. rewrite Ho. simpl. unfold setListItems. simpl. rewrite Ho.
      simpl. subst g. by rewrite lookup_app_r, Nat.sub_diag by lia. }
    pose proof (generatorNexts_trace 0 g l _ (length (listItems o) + 1) 0 h2 Hg2 Ho2) as H.
    simpl in H. rewrite length_app in H. specialize (H eq_refl).
    rewrite Nat.add_0_r in H.
    replace (length (listItems o) + 2)%nat with (length (listItems o) + 1 + 1)%nat by lia.
    by rewrite H.
Qed.

(** An iterator made on [[1]], called after [2] was pushed. *)
Lemma list_iterator_follows_the_list_witness :
  let h := snd (newArkList [ArkNumberVal 1] emptyHeap) in
  generatorNexts 3 0
    (snd (callNative (ListPush 0) [ArkNumberVal 2] (snd (callNative (ListIter 0) [] h))))
  = [Ok (ArkNumberVal 1); Ok (ArkNumberVal 2); Ok ArkNullVal].
Proof.
  exact (proj2 (proj2
           (list_iterator_follows_the_list (snd (newArkList [ArkNumberVal 1] emptyHeap))
              0 _ (ArkNumberVal 2) eq_refl))).
Defined.

Lemma mapM_app_throw {A B} (f : A → M B) l1 x l2 : ∀ ark ys ark1 e ark2,
  mapM f l1 ark = (Ok ys, ark1) →
  f x ark1 = (Throw e, ark2) →
  mapM f (l1 ++ x :: l2) ark = (Throw e, ark2).
Proof.
  induction l1 as [|a l1 IH]; intros ark ys ark1 e ark2; simpl.
  - intros [= <- <-] Hx. unfold bind. by rewrite Hx.
  - unfold bind. destruct (f a ark) as [[y| | | |] ark0]; try done.
    destruct (mapM f l1 ark0) as [[ys0| | | |] ark0'] eqn:Hm; try done.
    intros [= <- <-] Hx. by rewrite (IH _ _ _ _ _ Hm Hx).
Qed.


(** ** The order of evaluation in a call *)

(** X8: a call evaluates its callee, then its arguments from left to
    right, and then calls.  When the callee expression throws, the call
    throws the same and no argument is evaluated; when the callee is no
    callable value the call fails with "Invalid call", again before any
    argument is evaluated; when an argument throws, the call throws the
    same in the state of that throw: the arguments after it are not
    evaluated and the callee is not called. *)
Theorem call_evaluates_callee_then_arguments toJs_truthy fuel fn args ark :
  (∀ e ark1,
     eval toJs_truthy fuel fn ark = (Throw e, ark1) →
     eval toJs_truthy (S fuel) (ArkCall fn args) ark = (Throw e, ark1))
  ∧ (∀ fnVal ark1,
       eval toJs_truthy fuel fn ark = (Ok fnVal, ark1) →
       isArkCallable fnVal = false →
       eval toJs_truthy (S fuel) (ArkCall fn args) ark
       = (Throw (ArkRuntimeError "Invalid call"), ark1))
  ∧ (∀ fnVal ark1 args1 arg args2 vals ark2 e ark3,
       args = args1 ++ arg :: args2 →
       eval toJs_truthy fuel fn ark = (Ok fnVal, ark1) →
       isArkCallable fnVal = true →
       mapM (eval toJs_truthy fuel) args1 ark1 = (Ok vals, ark2) →
       eval toJs_truthy fuel arg ark2 = (Throw e, ark3) →
       eval toJs_truthy (S fuel) (ArkCall fn args) ark = (Throw e, ark3)).
Proof.
  split; [|split].
  - intros e ark1 H. cbn [eval]. unfold bind, onUndefined. by rewrite H.
  - intros fnVal ark1 H Hc. cbn [eval]. unfold bind at 1, onUndefined. by rewrite H, Hc.
  - intros fnVal ark1 args1 arg args2 vals ark2 e ark3 -> H Hc Hm Ha.
    cbn [eval]. unfold bind at 1, onUndefined. rewrite H, Hc. simpl. unfold bind.
    by rewrite (mapM_app_throw _ _ _ _ _ _ _ _ _ Hm Ha).
Qed.

(** [1(break 2)] fails with "Invalid call": the argument is not
    evaluated. *)
Lemma call_evaluates_callee_then_arguments_witness :
  eval booleanTruth 3 (ArkCall (num 1) [ArkBreak (num 2)]) initialState
  = (Throw (ArkRuntimeError "Invalid call"), initialState).
Proof.
  exact (proj1 (proj2 (call_evaluates_callee_then_arguments booleanTruth 2 (num 1)
                         [ArkBreak (num 2)] initialState))
           (ArkNumberVal 1) initialState eq_refl eq_refl).
Defined.

(** ** Counting the interned scalars *)

Section InternCount.
Import ConcreteInterned.

Lemma value_count T rawVal st :
  allLive st →
  length (concreteVals st) = size (dom (intern st)) →
  length (registry st) = size (dom (intern st)) →
  let st' := snd (value T rawVal st) in
  allLive st'
  ∧ dom (intern st') = {[rawVal]} ∪ dom (intern st)
  ∧ length (concreteVals st') = size (dom (intern st'))
  ∧ length (registry st') = size (dom (intern st')).
Proof.
  intros Hlive Hc Hr. unfold value.
  destruct (intern st !! rawVal) as [[val|]|] eqn:Hi; simpl.
  - split; [done|]. split; [|done].
    apply (elem_of_dom_2 (D := gset Raw)) in Hi.
    symmetry. by apply subseteq_union_1_L, singleton_subseteq_l.
  - by destruct (Hlive rawVal).
  - split.
    { intros raw. simpl. destruct (decide (raw = rawVal)) as [->|Hne].
      - by rewrite lookup_insert_eq.
      - rewrite lookup_insert_ne by done. apply Hlive. }
    rewrite dom_insert_L. split; [done|].
    apply (not_elem_of_dom (D := gset Raw)) in Hi.
    rewrite !length_app, size_union by (by apply disjoint_singleton_l). rewrite size_singleton. simpl. lia.
Qed.

Lemma values_count calls : ∀ st,
  allLive st →
  length (concreteVals st) = size (dom (intern st)) →
  length (registry st) = size (dom (intern st)) →
  let st' := values calls st in
  allLive st'
  ∧ dom (intern st') = list_to_set (calls.*2) ∪ dom (intern st)
  ∧ length (concreteVals st') = size (dom (intern st'))
  ∧ length (registry st') = size (dom (intern st')).
Proof.
  induction calls as [|[T raw] calls IH]; intros st Hlive Hc Hr.
  - simpl. split; [done|]. split; [by rewrite (left_id_L ∅ (∪))|done].
  - change (values ((T, raw) :: calls) st) with (values calls (snd (value T raw st))).
    destruct (value_count T raw st Hlive Hc Hr) as (H1 & H2 & H3 & H4).
    destruct (IH _ H1 H3 H4) as (H5 & H6 & H7 & H8).
    split; [done|]. split; [|done]. cbv zeta in H6. rewrite H6, H2. simpl.
    by rewrite (assoc_L (∪)), (comm_L (∪) (list_to_set _)).
Qed.

End InternCount.

Lemma Interp_values_count calls : ∀ st,
  length (Interp.ConcreteInterned.concreteVals st)
  = size (dom (Interp.ConcreteInterned.intern st)) →
  let st' := Interp.ConcreteInterned.values calls st in
  dom (Interp.ConcreteInterned.intern st')
  = list_to_set calls ∪ dom (Interp.ConcreteInterned.intern st)
  ∧ length (Interp.ConcreteInterned.concreteVals st')
    = size (dom (Interp.ConcreteInterned.intern st')).
Proof.
  induction calls as [|raw calls IH]; intros st Hc.
  - simpl. split; [by rewrite (left_id_L ∅ (∪))|done].
  - change (Interp.ConcreteInterned.values (raw :: calls) st)
      with (Interp.ConcreteInterned.values calls (snd (Interp.ConcreteInterned.value raw st))).
    assert (let st1 := snd (Interp.ConcreteInterned.value raw st) in
            dom (Interp.ConcreteInterned.intern st1)
            = {[raw]} ∪ dom (Interp.ConcreteInterned.intern st)
            ∧ length (Interp.ConcreteInterned.concreteVals st1)
              = size (dom (Interp.ConcreteInterned.intern st1))) as [H1 H2].
    { unfold Interp.ConcreteInterned.value.
      destruct (Interp.ConcreteInterned.intern st !! raw) as [val|] eqn:Hi; simpl.
      - split; [|done]. apply (elem_of_dom_2 (D := gset Raw)) in Hi.
        symmetry. by apply subseteq_union_1_L, singleton_subseteq_l.
      - rewrite dom_insert_L. split; [done|].
        apply (not_elem_of_dom (D := gset Raw)) in Hi.
        rewrite length_app, size_union by (by apply disjoint_singleton_l). rewrite size_singleton. simpl. lia. }
    destruct (IH _ H2) as [H3 H4]. split; [|done].
    cbv zeta in H3. rewrite H3, H1. simpl.
    by rewrite (assoc_L (∪)), (comm_L (∪) (list_to_set _)).
Qed.

(** X9: interning makes one object per scalar.  After any run of
    constructions that starts with the empty table, and as long as no
    object has been reclaimed, the number of objects made, and of
    registrations in the finalization registry, is the number of distinct
    raw scalars that were asked for; the same holds of the table of the
    early interpreter. *)
Theorem one_object_per_scalar :
  (∀ calls,
     let st := ConcreteInterned.values calls ConcreteInterned.empty in
     length (ConcreteInterned.concreteVals st) = size (list_to_set (calls.*2) : gset Raw)
     ∧ length (ConcreteInterned.registry st) = size (list_to_set (calls.*2) : gset Raw))
  ∧ (∀ calls,
       let st := Interp.ConcreteInterned.values calls Interp.ConcreteInterned.empty in
       length (Interp.ConcreteInterned.concreteVals st)
       = size (list_to_set calls : gset Raw)).
Proof.
  split.
  - intros calls.
    destruct (values_count calls ConcreteInterned.empty) as (_ & H1 & H2 & H3);
      try done.
    simpl in *. rewrite H2, H3, H1. simpl. rewrite dom_empty_L.
    by rewrite (right_id_L ∅ (∪)).
  - intros calls.
    destruct (Interp_values_count calls Interp.ConcreteInterned.empty) as (H1 & H2);
      [done|].
    simpl in *. rewrite H2, H1. simpl. rewrite dom_empty_L.
    by rewrite (right_id_L ∅ (∪)).
Qed.

Lemma foldl_insert_lookup (inits : list (string * ArkVal)) : ∀ (m : gmap string ArkVal) k v,
  NoDup (inits.*1) → (k, v) ∈ inits →
  foldl (fun m kv => <[fst kv := snd kv]> m) m inits !! k = Some v.
Proof.
  induction inits as [|[k0 v0] inits IH]; intros m k v Hnd Hin; simpl in *.
  - by apply elem_of_nil in Hin.
  - apply NoDup_cons in Hnd as [Hni Hnd].
    apply elem_of_cons in Hin as [[= -> ->]|Hin].
    + clear IH. revert m. induction inits as [|[k1 v1] inits IH]; intros m; simpl.
      * by rewrite lookup_insert_eq.
      * simpl in *. apply not_elem_of_cons in Hni as [Hne Hni].
        apply NoDup_cons in Hnd as [_ Hnd].
        rewrite insert_insert_ne by done. by apply IH.
    + by apply IH.
Qed.


(** ** Literals *)

(** X10: the properties of an object literal can be read back.  When the
    initializers of an object literal, evaluated in order, give the values
    [inits] for pairwise different names, the literal gives a new object,
    and reading the property [prop] of the literal gives the value of the
    initializer of [prop], provided that value is not [ArkUndefined]. *)
Theorem object_literal_properties_can_be_read
    toJs_truthy fuel properties ark inits ark1 prop val :
  mapM (fun kv => let* v := eval toJs_truthy fuel (snd kv) in ret (fst kv, v))
       properties ark = (Ok inits, ark1) →
  NoDup (inits.*1) →
  (prop, val) ∈ inits →
  val ≠ ArkUndefined →
  let obj := ArkObject (length (objs (heap ark1))) in
  let ark2 :=
    setHeap (snd (newArkObject (foldl (fun m kv => <[fst kv := snd kv]> m) ∅ inits)
                    (heap ark1))) ark1 in
  eval toJs_truthy (S fuel) (ArkObjectLiteral properties) ark = (Ok obj, ark2)
  ∧ eval toJs_truthy (S (S (S fuel)))
         (ArkLexpE (ArkProperty (ArkObjectLiteral properties) prop)) ark
    = (Ok val, ark2).
Proof.
  intros Hinits Hnd Hin Hval obj ark2.
  assert (eval toJs_truthy (S fuel) (ArkObjectLiteral properties) ark = (Ok obj, ark2))
    as Hlit.
  { cbn [eval]. unfold bind at 1. by rewrite Hinits. }
  split; [done|].
  remember (S fuel) as fuel1. cbn [eval evalRef]. unfold bind, onUndefined.
  rewrite Hlit. simpl. unfold ret, getRef. simpl.
  rewrite lookup_app_r, Nat.sub_diag by lia. simpl.
  unfold ArkObjectBase_get. rewrite (foldl_insert_lookup _ _ _ _ Hnd Hin). simpl.
  by destruct val.
Qed.

(** [{p: 1, q: 2}.q] *)
Lemma object_literal_properties_can_be_read_witness :
  fst (eval booleanTruth 4
         (ArkLexpE (ArkProperty (ArkObjectLiteral [("p", num 1); ("q", num 2)]) "q"))
         initialState)
  = Ok (ArkNumberVal 2).
Proof.
  refine (f_equal fst (proj2 (object_literal_properties_can_be_read booleanTruth 1
            [("p", num 1); ("q", num 2)] initialState
            [("p", ArkNumberVal 1); ("q", ArkNumberVal 2)] initialState
            "q" (ArkNumberVal 2) eq_refl _ _ _))).
  - simpl. apply NoDup_cons. split; [|apply NoDup_singleton].
    intros Hin. apply list_elem_of_singleton in Hin. discriminate Hin.
  - apply elem_of_cons. right. apply list_elem_of_singleton. reflexivity.
  - discriminate.
Defined.

(** X11: [len] of a list literal is the number of its elements.  When the
    elements of a list literal evaluate, in order, to [vals], calling the
    property [len] of the literal without arguments gives the number of
    elements; the call leaves the caller's frame as the elements left it,
    and the heap holds one new object, the list of [vals] with the
    properties a list is born with. *)
Theorem list_literal_len toJs_truthy fuel items ark vals ark1 :
  mapM (eval toJs_truthy fuel) items ark = (Ok vals, ark1) →
  let l := length (objs (heap ark1)) in
  let r := eval toJs_truthy (S (S (S (S fuel))))
             (ArkCall (ArkLexpE (ArkProperty (ArkListLiteral items) "len")) []) ark in
  fst r = Ok (ArkNumberVal (Z.of_nat (length items)))
  ∧ frame (snd r) = frame ark1
  ∧ objs (heap (snd r)) = objs (heap ark1) ++ [mkHeapObj (ArkList_properties l) vals].
Proof.
  intros Hitems l r.
  assert (eval toJs_truthy (S fuel) (ArkListLiteral items) ark
          = (Ok (ArkList l), setHeap (snd (newArkList vals (heap ark1))) ark1)) as Hlit.
  { cbn [eval]. unfold bind at 1. by rewrite Hitems. }
  assert (eval toJs_truthy (S (S (S fuel)))
            (ArkLexpE (ArkProperty (ArkListLiteral items) "len")) ark
          = (Ok (NativeFn ["len"] (ListLen l)),
             setHeap (snd (newArkList vals (heap ark1))) ark1)) as Hfn.
  { remember (S fuel) as fuel1. cbn [eval evalRef]. unfold bind, onUndefined.
    rewrite Hlit. simpl. unfold ret, getRef. simpl.
    by rewrite lookup_app_r, Nat.sub_diag by lia. }
  assert (r = (Ok (ArkNumberVal (Z.of_nat (length items))),
               mkState (frame ark1)
                 (mkHeap (<[nextRef (heap ark1) := ArkUndefined]> (refs (heap ark1)))
                         (S (nextRef (heap ark1)))
                         (objs (heap ark1) ++ [mkHeapObj (ArkList_properties l) vals])
                         (gens (heap ark1))))) as ->; [|done].
  subst r. remember (S (S (S fuel))) as fuel3. cbn [eval].
  unfold bind at 1, onUndefined at 1.
  rewrite Hfn. simpl. unfold bind at 1. unfold ret at 1. cbn [mapM].
  unfold makeLocals. simpl.
  rewrite Heqfuel3. cbn [call]. unfold bind, localValues. simpl.
  unfold bind, getRef, ret. simpl. rewrite lookup_insert_eq. simpl.
  subst l. rewrite lookup_app_r, Nat.sub_diag by lia. simpl.
  apply mapM_length in Hitems. by rewrite Hitems.
Qed.

(** [[7, 8].len()] *)
Lemma list_literal_len_witness :
  fst (eval booleanTruth 5
         (ArkCall (ArkLexpE (ArkProperty (ArkListLiteral [num 7; num 8]) "len")) [])
         initialState)
  = Ok (ArkNumberVal 2).
Proof.
  exact (proj1 (list_literal_len booleanTruth 1 [num 7; num 8] initialState
                  [ArkNumberVal 7; ArkNumberVal 8] initialState eq_refl)).
Defined.

(** ** Native functions *)

Lemma mapM_getRef_valrefs : ∀ vals n ark,
  (∀ i, (i < length vals)%nat → refs (heap ark) !! (n + i)%nat = vals !! i) →
  mapM getRef (map ArkValRef (seq n (length vals)))
       ark
  = (Ok vals, ark).
Proof.
  induction vals as [|v vals IH]; intros n ark H; simpl; [done|].
  unfold bind at 1. unfold getRef at 1. simpl.
  pose proof (H 0%nat ltac:(simpl; lia)) as H0. rewrite Nat.add_0_r in H0.
  rewrite H0. simpl. unfold bind at 1. rewrite IH; [done|].
  intros i Hi. specialize (H (S i) ltac:(simpl; lia)).
  by replace (S n + i)%nat with (n + S i)%nat by lia.
Qed.

(** X12: a native function is applied to all the arguments of the call.
    When the callee of a call is a native function, its body is applied to
    the values of the arguments, in order, followed by [ArkUndefined] for
    every parameter that was given no argument; surplus arguments are
    passed too.  These are the values of the locals of the callee's frame,
    which [makeLocals] made.  The call gives what the body gives and leaves
    the caller's frame as the arguments left it. *)
Theorem native_receives_all_arguments
    toJs_truthy fuel fn args ark params body ark1 vals ark2 :
  eval toJs_truthy fuel fn ark = (Ok (NativeFn params body), ark1) →
  mapM (eval toJs_truthy fuel) args ark1 = (Ok vals, ark2) →
  let h := snd (makeLocals params vals (heap ark2)) in
  let res := callNative body (boundVals params vals) h in
  eval toJs_truthy (S fuel) (ArkCall fn args) ark
  = (fst res, mkState (frame ark2) (snd res))
  ∧ ∀ caps,
      localValues (mkState (mkFrame (fst (makeLocals params vals (heap ark2))) caps) h)
      = (Ok (boundVals params vals),
         mkState (mkFrame (fst (makeLocals params vals (heap ark2))) caps) h).
Proof.
  intros Hfn Hargs h res.
  assert (∀ caps,
      localValues (mkState (mkFrame (fst (makeLocals params vals (heap ark2))) caps) h)
      = (Ok (boundVals params vals),
         mkState (mkFrame (fst (makeLocals params vals (heap ark2))) caps) h)) as Hvals.
  { intros caps. unfold localValues. subst h. simpl.
    rewrite makeLocals_makeValRefs, makeValRefs_fst.
    apply mapM_getRef_valrefs. intros i Hi. simpl.
    destruct (makeValRefs_heap (boundVals params vals) (heap ark2)) as (_ & _ & _ & Hrefs).
    rewrite Hrefs. rewrite decide_True by lia. f_equal. lia. }
  split; [|done].
  assert (∃ fuel', fuel = S fuel') as [fuel' Hfuel].
  { destruct fuel; [done|by eexists]. }
  cbn [eval]. unfold bind at 1, onUndefined at 1. rewrite Hfn. simpl.
  unfold bind at 1. rewrite Hargs.
  pose proof (Hvals []) as Hv. subst h res.
  destruct (makeLocals params vals (heap ark2)) as [locals h'] eqn:Hml. simpl in *.
  rewrite Hfuel. cbn [call]. unfold bind. rewrite Hv. simpl.
  by destruct (callNative body (boundVals params vals) h').
Qed.

(** [push] called without an argument pushes [ArkUndefined]. *)
Lemma native_receives_all_arguments_witness :
  let h := snd (newArkList [] emptyHeap) in
  let ark := mkState (mkFrame [] []) h in
  let r := eval booleanTruth 3
             (ArkCall (ArkLiteral (NativeFn ["item"] (ListPush 0))) []) ark in
  fst r = Ok (ArkList 0)
  ∧ listItems <$> objs (heap (snd r)) !! 0%nat = Some [ArkUndefined].
Proof.
  intros h ark r.
  pose proof (proj1 (native_receives_all_arguments booleanTruth 2
                       (ArkLiteral (NativeFn ["item"] (ListPush 0))) [] ark
                       ["item"] (ListPush 0) ark [] ark eq_refl eq_refl)) as H.
  subst r. rewrite H. split; reflexivity.
Defined.

(* ================================================================== *)
(** * Properties of the evaluator of the early interpreter *)
(* ================================================================== *)

Module EvalFacts.
Import Interp Interp.Eval.

(** ** The stack *)

Lemma stackIndex_arrays stack level index ark ark' :
  (∀ frame, frame ∈ stack → arrays ark' !! frame = arrays ark !! frame) →
  stackIndex stack level index ark' = stackIndex stack level index ark.
Proof.
  intros H. unfold stackIndex. destruct (stack !! level) as [frame|] eqn:Hl; [|done].
  rewrite H; [done|]. by eapply list_elem_of_lookup_2.
Qed.

(** X13: [Stack.push] copies the innermost frame and shares the others.
    Pushing [items] on a stack gives a stack on which the items are found
    at the indices [0], [1], ... of level [0], what was at index [i] of
    level [0] is found at index [length items + i], and every other level
    reads as before.  The new innermost frame is a new array: what is
    assigned through the new stack at level [0] does not show through the
    old stack, while what is assigned at an outer level is read through
    the old stack too. *)
Theorem push_copies_the_innermost_frame frame0 outer items old ark :
  arrays ark !! frame0 = Some old →
  (∀ frame, frame ∈ outer → frame < length (arrays ark))%nat →
  ∃ stack' ark',
    Stack_push (frame0 :: outer) items ark = (Ok stack', ark')
    ∧ stack ark' = stack ark ∧ heap ark' = heap ark
    ∧ (∀ index val, items !! index = Some val → stackIndex stack' 0 index ark' = Ok val)
    ∧ (∀ index,
         stackIndex stack' 0 (length items + index) ark'
         = stackIndex (frame0 :: outer) 0 index ark)
    ∧ (∀ level index,
         stackIndex stack' (S level) index ark'
         = stackIndex (frame0 :: outer) (S level) index ark)
    ∧ (∀ index val ark'',
         stackAssign stack' 0 index val ark' = (Ok tt, ark'') →
         ∀ level index',
           stackIndex (frame0 :: outer) level index' ark''
           = stackIndex (frame0 :: outer) level index' ark)
    ∧ (∀ level index val ark'',
         stackAssign stack' (S level) index val ark' = (Ok tt, ark'') →
         stackIndex (frame0 :: outer) (S level) index ark'' = Ok val).
Proof.
  intros Hold Houter. pose proof (lookup_lt_Some _ _ _ Hold) as Hlt.
  eexists _, _. split.
  { unfold Stack_push. rewrite Hold. unfold bind, newArray, ret. simpl. reflexivity. }
  simpl. split; [done|]. split; [done|].
  assert (∀ frame, frame ∈ frame0 :: outer →
            (arrays ark ++ [items ++ old]) !! frame = arrays ark !! frame) as Hsame.
  { intros frame [->|Hin]%elem_of_cons; apply lookup_app_l; [done|by apply Houter]. }
  split; [|split; [|split; [|split]]].
  - intros index val Hi. unfold stackIndex. simpl.
    rewrite lookup_app_r, Nat.sub_diag by lia. simpl.
    by rewrite lookup_app_l, Hi by (by eapply lookup_lt_Some).
  - intros index. unfold stackIndex. simpl.
    rewrite lookup_app_r, Nat.sub_diag by lia. simpl. rewrite Hold.
    by rewrite lookup_app_r, Nat.add_comm, Nat.add_sub by lia.
  - intros level index. unfold stackIndex. simpl.
    destruct (outer !! level) as [frame|] eqn:Hl; [|done].
    rewrite lookup_app_l; [done|]. by eapply Houter, list_elem_of_lookup_2.
  - intros index val ark'' Hass level index'.
    apply stackIndex_arrays. intros frame Hin.
    assert (frame < length (arrays ark))%nat as Hf.
    { apply elem_of_cons in Hin as [->|Hin]; [done|by apply Houter]. }
    unfold stackAssign in Hass. simpl in Hass.
    rewrite lookup_app_r, Nat.sub_diag in Hass by lia. simpl in Hass.
    destruct (index <? length (items ++ old))%nat.
    + injection Hass as <-. simpl.
      rewrite list_lookup_insert_ne by lia. by apply lookup_app_l.
    + destruct (index =? length (items ++ old))%nat; [|done].
      injection Hass as <-. simpl.
      rewrite list_lookup_insert_ne by lia. by apply lookup_app_l.
  - intros level index val ark'' Hass. unfold stackAssign in Hass. unfold stackIndex.
    simpl in *. destruct (outer !! level) as [frame|] eqn:Hl; [|done].
    assert (frame < length (arrays ark))%nat as Hf
      by (by eapply Houter, list_elem_of_lookup_2).
    rewrite lookup_app_l in Hass by done.
    destruct (arrays ark !! frame) as [elems|] eqn:Hframe; [|done].
    destruct (index <? length elems)%nat eqn:Hlt'.
    + injection Hass as <-. simpl.
      rewrite list_lookup_insert_eq by (rewrite length_app; lia).
      apply Nat.ltb_lt in Hlt'. by rewrite list_lookup_insert_eq.
    + destruct (index =? length elems)%nat eqn:Heq; [|done].
      injection Hass as <-. simpl.
      rewrite list_lookup_insert_eq by (rewrite length_app; lia).
      apply Nat.eqb_eq in Heq. subst index.
      by rewrite lookup_app_r, Nat.sub_diag by lia.
Qed.

(** Pushing [1] on the stack whose only frame holds [2]. *)
Lemma push_copies_the_innermost_frame_witness :
  ∃ stack' ark',
    Stack_push [0%nat] [Num 1] (mkState [0%nat] [[Num 2]] []) = (Ok stack', ark')
    ∧ stackIndex stack' 0 1 ark' = Ok (Num 2).
Proof.
  destruct (push_copies_the_innermost_frame 0 [] [Num 1] [Num 2]
              (mkState [0%nat] [[Num 2]] []) eq_refl) as (s & a & H1 & _ & _ & _ & H2 & _).
  { intros frame Hin. by apply elem_of_nil in Hin. }
  exists s, a. split; [exact H1|]. exact (H2 0%nat).
Defined.


Lemma bindParams_Null params : ∀ ark,
  bindParams params [] ark
  = (Ok (Object <$> seq (length (heap ark)) (length params)),
     mkState (stack ark) (arrays ark)
       (heap ark ++ replicate (length params) (ValRef Null))).
Proof.
  induction params as [|p params IH]; intros ark; simpl.
  - destruct ark. simpl. by rewrite app_nil_r.
  - unfold bind at 1. unfold new at 1. simpl. unfold bind at 1. rewrite IH. simpl.
    unfold ret. rewrite length_app. simpl. rewrite Nat.add_1_r.
    by rewrite <- app_assoc.
Qed.

Lemma bindArgsToParams_Null params ark :
  bindArgsToParams params [] ark
  = (Ok (Object <$> seq (length (heap ark)) (length params)),
     mkState (stack ark) (arrays ark)
       (heap ark ++ replicate (length params) (ValRef Null))).
Proof.
  unfold bindArgsToParams, bind. rewrite bindParams_Null. simpl.
  by destruct (length params).
Qed.


(** ** [Let] and [Call] *)

(** X14: [Let] puts the stack back when its body completes, and only then.
    The body is evaluated on the stack made by [Stack.push]: its innermost
    frame holds one new [ValRef] per bound variable, each holding null,
    followed by the old innermost frame.  When the body gives a value the
    let gives it and the interpreter's stack is the one from before the
    let; when the body throws, the let throws the same and the stack stays
    as the body left it. *)
Theorem Let_restores_the_stack_on_completion fuel id boundVars body ark frame0 outer old :
  heap ark !! id = Some (Let boundVars body) →
  stack ark = frame0 :: outer →
  arrays ark !! frame0 = Some old →
  let refs := Object <$> seq (length (heap ark)) (length boundVars) in
  let ark1 :=
    mkState (length (arrays ark) :: outer)
            (arrays ark ++ [refs ++ old])
            (heap ark ++ replicate (length boundVars) (ValRef Null)) in
  (∀ res ark2,
     eval fuel body ark1 = (Ok res, ark2) →
     eval (S fuel) (Object id) ark
     = (Ok res, mkState (stack ark) (arrays ark2) (heap ark2)))
  ∧ (∀ e ark2,
       eval fuel body ark1 = (Throw e, ark2) →
       eval (S fuel) (Object id) ark = (Throw e, ark2)).
Proof.
  intros Hnode Hstack Hold refs ark1.
  assert (eval (S fuel) (Object id) ark
          = andThen (eval fuel body) (restoreStack (stack ark)) ark1) as ->.
  { cbn [eval]. rewrite Hnode. unfold bind at 1. rewrite bindArgsToParams_Null.
    unfold bind at 1. unfold getStack at 1. simpl. rewrite Hstack.
    unfold bind at 1. unfold Stack_push. simpl. rewrite Hold.
    unfold bind, newArray, ret, setStack. simpl.
    fold refs. by fold ark1. }
  unfold andThen, restoreStack.
  split.
  - intros res ark2 ->. done.
  - intros e ark2 ->. done.
Qed.

(** A let of one variable whose body is the variable's new reference. *)
Lemma Let_restores_the_stack_on_completion_witness :
  eval 2 (Object 0) (mkState [0%nat] [[]] [Let ["x"] (Object 1)])
  = (Ok (Object 1),
     mkState [0%nat] [[]; [Object 1]] [Let ["x"] (Object 1); ValRef Null]).
Proof.
  exact (proj1 (Let_restores_the_stack_on_completion 1 0 ["x"] (Object 1)
                  (mkState [0%nat] [[]] [Let ["x"] (Object 1)]) 0 [] []
                  eq_refl eq_refl eq_refl) _ _ eq_refl).
Defined.

Lemma bindParams_refs params : ∀ args ark,
  bindParams params args ark
  = (Ok (Object <$> seq (length (heap ark)) (length params)),
     mkState (stack ark) (arrays ark)
       (heap ark
        ++ ((fun index => ValRef (default Null (args !! index)))
              <$> seq 0 (length params)))).
Proof.
  induction params as [|p params IH]; intros args ark; simpl.
  - destruct ark. simpl. by rewrite app_nil_r.
  - unfold bind at 1. unfold new at 1. simpl. unfold bind at 1. rewrite IH. simpl.
    unfold ret. rewrite length_app. simpl. rewrite Nat.add_1_r.
    rewrite <- app_assoc. simpl. do 3 f_equal.
    change (list_fmap nat Node ?f ?l) with (f <$> l).
    f_equal; [by destruct args|].
    rewrite <- fmap_S_seq, <- list_fmap_compose. apply list_fmap_ext.
    intros i x _. simpl. by destruct args.
Qed.

Lemma bindArgsToParams_spec params args ark :
  ∃ frame ark',
    bindArgsToParams params args ark = (Ok frame, ark')
    ∧ stack ark' = stack ark ∧ arrays ark' = arrays ark
    ∧ heap ark `prefix_of` heap ark'
    ∧ ∀ index, (index < length params)%nat →
        frame !! index = Some (Object (length (heap ark) + index))
        ∧ heap ark' !! (length (heap ark) + index)%nat
          = Some (ValRef (default Null (args !! index))).
Proof.
  unfold bindArgsToParams, bind at 1. rewrite bindParams_refs.
  set (refs := (fun index => ValRef (default Null (args !! index)))
                 <$> seq 0 (length params)).
  assert (∀ index, (index < length params)%nat →
            (Object <$> seq (length (heap ark)) (length params)) !! index
            = Some (Object (length (heap ark) + index))
            ∧ (heap ark ++ refs) !! (length (heap ark) + index)%nat
              = Some (ValRef (default Null (args !! index)))) as Hrefs.
  { intros index Hi. split.
    - by rewrite list_lookup_fmap, lookup_seq_lt.
    - rewrite lookup_app_r by lia. replace (_ + _ - _)%nat with index by lia.
      subst refs. by rewrite list_lookup_fmap, lookup_seq_lt. }
  assert (length (Object <$> seq (length (heap ark)) (length params)) = length params)
    as Hlen by (by rewrite length_fmap, length_seq).
  destruct (length params <? length args)%nat.
  - unfold newList, bind, new, ret. simpl. eexists _, _. split; [reflexivity|].
    simpl. split; [done|]. split; [done|]. split.
    { rewrite <- !app_assoc. by apply prefix_app_r. }
    intros index Hi. destruct (Hrefs index Hi) as [H1 H2]. split.
    + rewrite lookup_app_l by (by rewrite Hlen). done.
    + rewrite <- !app_assoc. rewrite app_assoc.
      rewrite lookup_app_l; [done|]. by eapply lookup_lt_Some.
  - unfold ret. eexists _, _. split; [reflexivity|]. simpl.
    split; [done|]. split; [done|]. split; [by apply prefix_app_r|]. exact Hrefs.
Qed.

(** X15: the call of a closure.  The arguments are evaluated, from left
    to right, when the closure is an [FnClosure]; for any other
    [FexprClosure] they are bound as they are, unevaluated.  Parameter [i]
    is bound to a new [ValRef] holding argument [i], or null when there is
    none, and the body is evaluated on the caller's stack with two more
    frames, the closure's free variables and, innermost, the new
    references.  When the body gives a value the call gives it and the
    stack is put back; when the body throws a return exception the call
    gives its value and the stack stays as it was at the throw, the frames
    of the call still on it; whatever else the body throws the call throws
    too. *)
Theorem Call_of_a_closure fuel id fn args ark f ark1 isFn params freeVars body vals ark2 :
  heap ark !! id = Some (Call fn args) →
  eval fuel fn ark = (Ok (Object f), ark1) →
  heap ark1 !! f = Some (FexprClosure isFn params freeVars body) →
  (if isFn then mapM (eval fuel) args ark1 else (Ok args, ark1)) = (Ok vals, ark2) →
  ∃ frame ark3,
    bindArgsToParams params vals ark2 = (Ok frame, ark3)
    ∧ stack ark3 = stack ark2 ∧ arrays ark3 = arrays ark2
    ∧ (∀ index, (index < length params)%nat →
         ∃ ref, frame !! index = Some (Object ref)
                ∧ heap ark3 !! ref = Some (ValRef (default Null (vals !! index))))
    ∧ let ark4 :=
        mkState (length (arrays ark2) :: freeVars :: stack ark2)
                (arrays ark2 ++ [frame]) (heap ark3) in
      (∀ res ark5,
         eval fuel body ark4 = (Ok res, ark5) →
         eval (S fuel) (Object id) ark
         = (Ok res, mkState (stack ark2) (arrays ark5) (heap ark5)))
      ∧ (∀ val ark5,
           eval fuel body ark4 = (Throw (ReturnException val), ark5) →
           eval (S fuel) (Object id) ark = (Ok val, ark5))
      ∧ (∀ e ark5,
           eval fuel body ark4 = (Throw e, ark5) →
           (∀ val, e ≠ ReturnException val) →
           eval (S fuel) (Object id) ark = (Throw e, ark5)).
Proof.
  intros Hnode Hfn Hf Hargs.
  destruct (bindArgsToParams_spec params vals ark2)
    as (frame & ark3 & Hbind & Hstack & Harrays & _ & Hframe).
  exists frame, ark3. split; [done|]. split; [done|]. split; [done|]. split.
  { intros index Hi. destruct (Hframe index Hi). by eexists. }
  intros ark4.
  assert (eval (S fuel) (Object id) ark
          = match eval fuel body ark4 with
            | (Ok res, ark5) => (Ok res, mkState (stack ark2) (arrays ark5) (heap ark5))
            | (Throw (ReturnException val), ark5) => (Ok val, ark5)
            | (HostUndefined, ark5) =>
                (HostUndefined, mkState (stack ark2) (arrays ark5) (heap ark5))
            | r => r
            end) as ->.
  { cbn [eval]. rewrite Hnode. unfold bindOr at 1. rewrite Hfn, Hf.
    unfold bind at 1.
    assert ((if isFn then mapM (eval fuel) args else ret args) ark1 = (Ok vals, ark2))
      as -> by (by destruct isFn).
    unfold tryCatch. unfold bind at 1. rewrite Hbind.
    unfold bind at 1. unfold getStack at 1.
    unfold bind at 1. unfold newArray at 1. simpl.
    unfold bind at 1. unfold setStack at 1. simpl.
    rewrite Hstack, Harrays. unfold Stack_pushFrame. fold ark4.
    unfold andThen, restoreStack.
    destruct (eval fuel body ark4) as [[res|[]| | |] ark5]; try done. }
  split; [|split].
  - by intros res ark5 ->.
  - by intros val ark5 ->.
  - intros e ark5 -> Hne. destruct e; try done. by destruct (Hne val).
Qed.

(** [(fn () { return 1 })()] gives [1] and leaves the two frames of the
    call on the stack. *)
Lemma Call_of_a_closure_witness :
  let program :=
    [Call (Object 1) []; FexprClosure true [] 0 (Object 2);
     Call (Object 3) [Num 1]; NativeFexpr true "return" return_body] in
  eval 4 (Object 0) (mkState [0%nat] [[]] program)
  = (Ok (Num 1), mkState [1%nat; 0%nat; 0%nat] [[]; []] program).
Proof.
  intros program.
  destruct (Call_of_a_closure 3 0 (Object 1) [] (mkState [0%nat] [[]] program)
              1 (mkState [0%nat] [[]] program) true [] 0 (Object 2) []
              (mkState [0%nat] [[]] program) eq_refl eq_refl eq_refl eq_refl)
    as (frame & ark3 & Hbind & _ & _ & _ & _ & Hreturn & _).
  injection Hbind as <- <-. exact (Hreturn (Num 1) _ eq_refl).
Defined.

Lemma captureFreeVars_spec boundFreeVars captured : ∀ ark,
  Forall2 (fun (loc : nat * nat) val =>
             ∃ level, fst loc = S level
                      ∧ stackIndex (stack ark) level (snd loc) ark = Ok val)
          boundFreeVars captured →
  captureFreeVars boundFreeVars ark
  = (Ok (Object <$> seq (length (heap ark)) (length captured)),
     mkState (stack ark) (arrays ark) (heap ark ++ (ValRef <$> captured))).
Proof.
  intros ark H. revert ark H.
  induction boundFreeVars as [|[level index] bfv IH] in captured |- *; intros ark H.
  - apply Forall2_nil_inv_l in H as ->. destruct ark. simpl. by rewrite app_nil_r.
  - apply Forall2_cons_inv_l in H as (val & captured' & (l & Hl & Hval) & H & ->).
    simpl in Hl. subst level. simpl in Hval.
    unfold captureFreeVars in *. cbn [mapM]. unfold bind at 1. cbn [fst snd].
    assert (is_Some (stack ark !! l)) as [frame Hframe].
    { unfold stackIndex in Hval. by destruct (stack ark !! l). }
    change ((0%nat :: stack ark) !! S l) with (stack ark !! l).
    rewrite Hframe, Hval. unfold new at 1. unfold bind at 1.
    rewrite IH with (captured := captured').
    + unfold ret. simpl. rewrite length_app. simpl. rewrite Nat.add_1_r.
      by rewrite <- app_assoc.
    + simpl. eapply Forall2_impl; [exact H|]. intros [lv ix] v (l' & ? & Hv).
      exists l'. split; [done|]. rewrite <- Hv. by apply stackIndex_arrays.
Qed.


(** ** Closures *)

(** X16: a closure captures the entries of the enclosing frames.
    Evaluating an [Fexpr] makes, for each of its bound free variables, a
    new [ValRef] that holds what the enclosing stack has at the variable's
    place (level [1] being the innermost frame of the enclosing stack), and
    then the closure with an array of these references as its free
    variables.  In a later call of the closure, whose stack has that array
    as its second frame, the reference [StackRefRef(1, index)] gives the
    entry that was captured for variable [index]: the entry itself, for a
    variable its [ValRef], and not a copy of what it held. *)
Theorem closure_captures_the_frame_entries
    fuel id isFn params boundFreeVars body ark captured :
  heap ark !! id = Some (Fexpr isFn params boundFreeVars body) →
  Forall2 (fun (loc : nat * nat) val =>
             ∃ level, fst loc = S level
                      ∧ stackIndex (stack ark) level (snd loc) ark = Ok val)
          boundFreeVars captured →
  let n := length (heap ark) in
  let freeVars := length (arrays ark) in
  let refs := Object <$> seq n (length captured) in
  eval (S fuel) (Object id) ark
  = (Ok (Object (n + length captured)),
     mkState (stack ark) (arrays ark ++ [refs])
       (heap ark ++ (ValRef <$> captured)
        ++ [FexprClosure isFn params freeVars body]))
  ∧ ∀ index val ark' frame outer ref fuel',
      captured !! index = Some val →
      arrays ark' !! freeVars = Some refs →
      heap ark' !! (n + index)%nat = Some (ValRef val) →
      heap ark' !! ref = Some (StackRefRef 1 index) →
      Ref_get (S (S fuel')) (frame :: freeVars :: outer) (Object ref) ark'
      = (Ok val, ark').
Proof.
  intros Hnode Hcap n freeVars refs. split.
  - cbn [eval]. rewrite Hnode. unfold bind at 1.
    rewrite (captureFreeVars_spec _ _ _ Hcap).
    unfold bind, newArray, new. simpl. rewrite length_app, length_fmap.
    by rewrite <- app_assoc.
  - intros index val ark' frame outer ref fuel' Hi Harr Hval Href.
    cbn [Ref_get]. rewrite Href. unfold stackIndex. simpl. rewrite Harr.
    subst refs. rewrite list_lookup_fmap, lookup_seq_lt by (by eapply lookup_lt_Some).
    simpl. by rewrite Hval.
Qed.

(** A function with one free variable, the first of the enclosing
    frame. *)
Lemma closure_captures_the_frame_entries_witness :
  let ark := mkState [0%nat] [[Object 1]] [Fexpr true [] [(1, 0)%nat] Null; ValRef Null] in
  eval 1 (Object 0) ark
  = (Ok (Object 3),
     mkState [0%nat] [[Object 1]; [Object 2]]
       [Fexpr true [] [(1, 0)%nat] Null; ValRef Null; ValRef (Object 1);
        FexprClosure true [] 1 Null]).
Proof.
  intros ark.
  refine (proj1 (closure_captures_the_frame_entries 0 0 true [] [(1, 0)%nat] Null ark
                   [Object 1] eq_refl _)).
  constructor; [by exists 0%nat|constructor].
Defined.

Lemma mapGet_mapSet prop' prop val m :
  mapGet prop' (mapSet prop val m)
  = if decide (prop' = prop) then Some val else mapGet prop' m.
Proof.
  induction m as [|[k v] m IH]; simpl.
  - destruct (decide (prop = prop')), (decide (prop' = prop)); congruence.
  - destruct (decide (k = prop)) as [->|Hk]; simpl.
    + destruct (decide (prop = prop')), (decide (prop' = prop)); congruence.
    + destruct (decide (k = prop')) as [->|Hk'].
      * by destruct (decide (prop' = prop)).
      * exact IH.
Qed.

Lemma classVal_setClassVal node m m' :
  classVal node = Some m → classVal (setClassVal node m') = Some m'.
Proof. by destruct node. Qed.


(** ** Properties, dictionaries and lists *)

(** X17: a property that was set is read back.  On an object with a
    property map, setting property [prop] through a [PropRef] returns the
    value and succeeds whether the property was there or not; reading
    [prop] then gives that value, every other property reads as before,
    and every other object is left alone.  Reading a property that the
    object does not have gives null and fails in no case. *)
Theorem property_set_then_get id node m prop val ark :
  heap ark !! id = Some node →
  classVal node = Some m →
  let ark' := snd (PropRef_set (Object id) prop val ark) in
  PropRef_set (Object id) prop val ark = (Ok val, ark')
  ∧ PropRef_get (Object id) prop ark' = (Ok val, ark')
  ∧ (∀ prop', prop' ≠ prop →
       fst (PropRef_get (Object id) prop' ark')
       = fst (PropRef_get (Object id) prop' ark))
  ∧ (mapGet prop m = None → PropRef_get (Object id) prop ark = (Ok Null, ark))
  ∧ (∀ val', mapGet prop m = Some val' →
       PropRef_get (Object id) prop ark = (Ok val', ark))
  ∧ (∀ id', id' ≠ id → heap ark' !! id' = heap ark !! id')
  ∧ stack ark' = stack ark ∧ arrays ark' = arrays ark.
Proof.
  intros Hnode Hm. pose proof (lookup_lt_Some _ _ _ Hnode) as Hlt.
  unfold PropRef_set, PropRef_get. rewrite Hnode, Hm. simpl.
  rewrite list_lookup_insert_eq by done. simpl.
  rewrite (classVal_setClassVal _ _ _ Hm). simpl. rewrite Hm. simpl.
  split; [done|]. split.
  { rewrite mapGet_mapSet. by rewrite decide_True. }
  split.
  { intros prop' Hne. rewrite mapGet_mapSet. by rewrite decide_False. }
  split; [by intros ->|]. split; [by intros val' ->|]. split; [|done].
  intros id' Hne. by rewrite list_lookup_insert_ne.
Qed.

(** Setting and reading [p] on the empty object. *)
Lemma property_set_then_get_witness :
  PropRef_get (Object 0) "p" (snd (PropRef_set (Object 0) "p" (Num 1) (mkState [] [] [Obj []])))
  = (Ok (Num 1), snd (PropRef_set (Object 0) "p" (Num 1) (mkState [] [] [Obj []]))).
Proof.
  exact (proj1 (proj2 (property_set_then_get 0 (Obj []) [] "p" (Num 1)
                         (mkState [] [] [Obj []]) eq_refl eq_refl))).
Defined.

Lemma dictGet_dictSet index' index val m :
  dictGet index' (dictSet index val m)
  = if decide (index' = index) then Some val else dictGet index' m.
Proof.
  induction m as [|[k v] m IH]; simpl.
  - destruct (decide (index = index')), (decide (index' = index)); congruence.
  - destruct (decide (k = index)) as [->|Hk]; simpl.
    + destruct (decide (index = index')), (decide (index' = index)); congruence.
    + destruct (decide (k = index')) as [->|Hk'].
      * by destruct (decide (index' = index)).
      * exact IH.
Qed.

(** X18: the natives of a dictionary.  [set] puts the value under the key
    and returns the value; [get] of that key then gives it, and [get] of
    every other key gives what it gave before.  Keys are the same when
    they are the same object (for interned scalars: the same raw value).
    [get] of a key that is not in the dictionary gives null. *)
Theorem dictionary_set_then_get fuel this props map index val ark :
  heap ark !! this = Some (Dict props map) →
  let ark' := snd (callNative (S fuel) (Dict_set this) [index; val] ark) in
  callNative (S fuel) (Dict_set this) [index; val] ark = (Ok val, ark')
  ∧ callNative (S fuel) (Dict_get this) [index] ark' = (Ok val, ark')
  ∧ (∀ index', index' ≠ index →
       fst (callNative (S fuel) (Dict_get this) [index'] ark')
       = fst (callNative (S fuel) (Dict_get this) [index'] ark))
  ∧ (dictGet index map = None →
     callNative (S fuel) (Dict_get this) [index] ark = (Ok Null, ark))
  ∧ heap ark' !! this = Some (Dict props (dictSet index val map))
  ∧ (∀ id, id ≠ this → heap ark' !! id = heap ark !! id).
Proof.
  intros Hnode. pose proof (lookup_lt_Some _ _ _ Hnode) as Hlt.
  cbn [callNative]. rewrite Hnode. unfold bind, setNode, ret. simpl.
  rewrite list_lookup_insert_eq by done.
  split; [done|]. split.
  { rewrite dictGet_dictSet. by rewrite decide_True. }
  split.
  { intros index' Hne. simpl. rewrite dictGet_dictSet. by rewrite decide_False. }
  split; [by intros ->|]. split; [done|].
  intros id Hne. by rewrite list_lookup_insert_ne.
Qed.

(** Setting and getting the key ["k"] on the empty dictionary. *)
Lemma dictionary_set_then_get_witness :
  let ark := mkState [] [] [Dict [] []] in
  callNative 1 (Dict_get 0) [Str "k"]
    (snd (callNative 1 (Dict_set 0) [Str "k"; Num 1] ark))
  = (Ok (Num 1), snd (callNative 1 (Dict_set 0) [Str "k"; Num 1] ark)).
Proof.
  exact (proj1 (proj2 (dictionary_set_then_get 0 0 [] [] (Str "k") (Num 1)
                         (mkState [] [] [Dict [] []]) eq_refl))).
Defined.

(** X19: the [length] of a list is its length when it was made.  A new
    list has the property [length], the number of its elements; its [get]
    gives the element at an index within the list, and the host's
    [undefined] past the end.  [set] at the index one past the last
    element appends the value, which [get] then finds there, but the
    property [length] still holds the old number. *)
Theorem list_length_is_fixed_at_construction fuel items val ark :
  let this := (length (heap ark) + 2)%nat in
  let ark1 := snd (newList items ark) in
  let n := Z.of_nat (length items) in
  newList items ark = (Ok (Object this), ark1)
  ∧ PropRef_get (Object this) "length" ark1 = (Ok (Num n), ark1)
  ∧ (∀ index,
       callNative (S fuel) (List_get this) [Num (Z.of_nat index)] ark1
       = (match items !! index with Some elem => Ok elem | None => HostUndefined end,
          ark1))
  ∧ let ark2 := snd (callNative (S fuel) (List_set this) [Num n; val] ark1) in
    callNative (S fuel) (List_set this) [Num n; val] ark1 = (Ok val, ark2)
    ∧ callNative (S fuel) (List_get this) [Num n] ark2 = (Ok val, ark2)
    ∧ PropRef_get (Object this) "length" ark2 = (Ok (Num n), ark2).
Proof.
  intros this ark1 n.
  assert (heap ark1 !! this
          = Some (List [("get", Object (length (heap ark)));
                        ("set", Object (length (heap ark) + 1));
                        ("length", Num n)] items)) as Hthis.
  { subst ark1 this. unfold newList, bind, new, ret. simpl.
    rewrite lookup_app_r by (rewrite !length_app; simpl; lia).
    rewrite !length_app. simpl.
    replace (_ - _)%nat with 0%nat by lia. simpl.
    by rewrite Nat.add_1_r. }
  pose proof (lookup_lt_Some _ _ _ Hthis) as Hlt.
  split.
  { subst ark1 this. unfold newList, bind, new, ret. simpl.
    rewrite !length_app. simpl. do 3 f_equal. lia. }
  split.
  { unfold PropRef_get. by rewrite Hthis. }
  split.
  { intros index. cbn [callNative]. rewrite Hthis. unfold List_index, Num.
    destruct (Z.of_nat index <? 0)%Z eqn:Hneg; [apply Z.ltb_lt in Hneg; lia|].
    by rewrite Nat2Z.id. }
  intros ark2.
  assert (callNative (S fuel) (List_set this) [Num n; val] ark1
          = (Ok val, mkState (stack ark1) (arrays ark1)
                       (<[this := List [("get", Object (length (heap ark)));
                                        ("set", Object (length (heap ark) + 1));
                                        ("length", Num n)] (items ++ [val])]>
                          (heap ark1)))) as Hset.
  { cbn [callNative]. rewrite Hthis. unfold List_assign, Num.
    destruct (n <? 0)%Z eqn:Hneg; [apply Z.ltb_lt in Hneg; lia|].
    subst n. rewrite Nat2Z.id, Nat.ltb_irrefl, Nat.eqb_refl. done. }
  subst ark2. rewrite Hset. simpl. split; [done|].
  split.
  - cbn [callNative]. simpl. rewrite list_lookup_insert_eq by done.
    unfold List_index, Num.
    destruct (n <? 0)%Z eqn:Hneg; [apply Z.ltb_lt in Hneg; lia|].
    subst n. rewrite Nat2Z.id. by rewrite lookup_app_r, Nat.sub_diag by lia.
  - unfold PropRef_get. simpl. by rewrite list_lookup_insert_eq by done.
Qed.

Lemma callNative_loop fuel body rest ark :
  callNative (S fuel) loop_body (body :: rest) ark =
  match eval fuel body ark with
  | (Ok _, ark') | (HostUndefined, ark') => callNative fuel loop_body (body :: rest) ark'
  | (Throw (BreakException val), ark') => (Ok val, ark')
  | (Throw (ContinueException _), ark') => callNative fuel loop_body (body :: rest) ark'
  | r => r
  end.
Proof. reflexivity. Qed.


(** ** The natives [loop], [break] and [continue] *)

(** X20: the loop of the early interpreter ends only by what its body
    throws.  If [loop] gives a value, a turn of the body threw a break
    exception with that value; if it throws, it throws what a turn of its
    body threw, which is neither a break nor a continue exception. *)
Theorem loop_native_ends_by_break body rest : ∀ fuel ark,
  (∀ val ark',
     callNative fuel loop_body (body :: rest) ark = (Ok val, ark') →
     ∃ fuel' ark1,
       (fuel' < fuel)%nat
       ∧ eval fuel' body ark1 = (Throw (BreakException val), ark'))
  ∧ (∀ e ark',
       callNative fuel loop_body (body :: rest) ark = (Throw e, ark') →
       (∀ val, e ≠ BreakException val ∧ e ≠ ContinueException val)
       ∧ ∃ fuel' ark1,
           (fuel' < fuel)%nat ∧ eval fuel' body ark1 = (Throw e, ark')).
Proof.
  induction fuel as [|fuel IH]; intros ark; [by split; intros|].
  rewrite callNative_loop.
  destruct (eval fuel body ark) as [[res|e0| | |] ark1] eqn:Hb.
  - destruct (IH ark1) as [IH1 IH2]. split.
    + intros val ark' H. destruct (IH1 _ _ H) as (f & a & ? & ?).
      exists f, a. split; [lia|done].
    + intros e ark' H. destruct (IH2 _ _ H) as (? & f & a & ? & ?).
      split; [done|]. exists f, a. split; [lia|done].
  - destruct e0 as [v|v|v|m|m| |].
    + split; [|done]. intros val ark' [= <- <-]. exists fuel, ark. split; [lia|done].
    + split; [done|]. intros e ark' [= <- <-]. split; [done|].
      exists fuel, ark. split; [lia|done].
    + destruct (IH ark1) as [IH1 IH2]. split.
      * intros val ark' H. destruct (IH1 _ _ H) as (f & a & ? & ?).
        exists f, a. split; [lia|done].
      * intros e ark' H. destruct (IH2 _ _ H) as (? & f & a & ? & ?).
        split; [done|]. exists f, a. split; [lia|done].
    + split; [done|]. intros e ark' [= <- <-]. split; [done|].
      exists fuel, ark. split; [lia|done].
    + split; [done|]. intros e ark' [= <- <-]. split; [done|].
      exists fuel, ark. split; [lia|done].
    + split; [done|]. intros e ark' [= <- <-]. split; [done|].
      exists fuel, ark. split; [lia|done].
    + split; [done|]. intros e ark' [= <- <-]. split; [done|].
      exists fuel, ark. split; [lia|done].
  - destruct (IH ark1) as [IH1 IH2]. split.
    + intros val ark' H. destruct (IH1 _ _ H) as (f & a & ? & ?).
      exists f, a. split; [lia|done].
    + intros e ark' H. destruct (IH2 _ _ H) as (? & f & a & ? & ?).
      split; [done|]. exists f, a. split; [lia|done].
  - by split.
  - by split.
Qed.

(** The loop whose body is [break(5)]. *)
Lemma loop_native_ends_by_break_witness :
  let program :=
    [Call (Object 1) [Num 5]; NativeFexpr true "break" break_body] in
  ∃ fuel' ark1,
    (fuel' < 4)%nat
    ∧ eval fuel' (Object 0) ark1
      = (Throw (BreakException (Num 5)), mkState [0%nat] [[]] program).
Proof.
  intros program.
  exact (proj1 (loop_native_ends_by_break (Object 0) [] 4 (mkState [0%nat] [[]] program))
           (Num 5) _ eq_refl).
Defined.

Lemma linkSymrefs_spec val symrefs : ∀ ark,
  NoDup symrefs →
  Forall (fun symref => ∃ s ref, symref = Object s ∧ heap ark !! s = Some (SymRef ref))
         symrefs →
  ∃ ark',
    linkSymrefs val symrefs ark = (Ok tt, ark')
    ∧ stack ark' = stack ark ∧ arrays ark' = arrays ark
    ∧ (∀ id node, heap ark !! id = Some node → Object id ∉ symrefs →
         heap ark' !! id = Some node)
    ∧ (∀ id node, heap ark !! id = Some node → (∀ ref, node ≠ SymRef ref) →
         heap ark' !! id = Some node)
    ∧ (∀ id ref, heap ark !! id = Some (SymRef ref) →
         ∃ ref', heap ark' !! id = Some (SymRef ref'))
    ∧ (∀ symref, symref ∈ symrefs →
         ∃ s r, symref = Object s
                ∧ heap ark' !! s = Some (SymRef (Some (Object r)))
                ∧ heap ark' !! r = Some (ValRef val)).
Proof.
  induction symrefs as [|symref rest IH]; intros ark Hnd Hall.
  - exists ark. repeat split; try done.
    + intros id ref H. by eexists.
    + intros symref Hin. by apply elem_of_nil in Hin.
  - apply NoDup_cons in Hnd as [Hnotin Hnd].
    apply Forall_cons in Hall as [(s & ref & -> & Hs) Hall].
    pose proof (lookup_lt_Some _ _ _ Hs) as Hlt.
    set (ark2 := mkState (stack ark) (arrays ark)
                   (<[s := SymRef (Some (Object (length (heap ark))))]>
                      (heap ark ++ [ValRef val]))).
    assert (∀ id node, heap ark !! id = Some node → id ≠ s →
              heap ark2 !! id = Some node) as Hkeep.
    { intros id node Hid Hne. simpl. rewrite list_lookup_insert_ne by done.
      by apply lookup_app_l_Some. }
    assert (heap ark2 !! s = Some (SymRef (Some (Object (length (heap ark)))))) as Hs2.
    { simpl. apply list_lookup_insert_eq. rewrite length_app. lia. }
    assert (heap ark2 !! length (heap ark) = Some (ValRef val)) as Hr2.
    { simpl. rewrite list_lookup_insert_ne by lia.
      by rewrite lookup_app_r, Nat.sub_diag by lia. }
    destruct (IH ark2 Hnd) as (ark' & Hlink & Hst & Harr & F1 & F2 & F3 & L).
    { eapply Forall_impl; [exact Hall|]. intros x (s' & ref' & -> & Hs').
      exists s'. destruct (decide (s' = s)) as [->|Hne].
      - eexists. split; [done|exact Hs2].
      - exists ref'. split; [done|]. by apply Hkeep. }
    exists ark'. split.
    { cbn [linkSymrefs]. unfold bind at 1. unfold new at 1. simpl.
      rewrite (lookup_app_l_Some _ _ _ _ Hs). unfold bind at 1. unfold setNode at 1.
      simpl. exact Hlink. }
    split; [done|]. split; [done|]. split; [|split; [|split]].
    + intros id node Hid Hni. apply not_elem_of_cons in Hni as [Hne Hni].
      apply F1; [|done]. apply Hkeep; [done|]. congruence.
    + intros id node Hid Hns. apply F2; [|done]. apply Hkeep; [done|].
      intros ->. rewrite Hs in Hid. injection Hid as <-. by destruct (Hns ref).
    + intros id ref0 Hid. destruct (decide (id = s)) as [->|Hne].
      * by eapply F3.
      * eapply F3. by apply Hkeep.
    + intros x [->|Hin]%elem_of_cons; [|by apply L].
      exists s, (length (heap ark)). split; [done|]. split.
      * by apply F1.
      * by apply F2.
Qed.

Lemma linkFreeVars_spec env freeVars : ∀ ark,
  NoDup (concat (freeVars.*2)) →
  Forall (fun symref => ∃ s ref, symref = Object s ∧ heap ark !! s = Some (SymRef ref))
         (concat (freeVars.*2)) →
  Forall (fun name => is_Some (env !! name)) (freeVars.*1) →
  ∃ ark',
    linkFreeVars freeVars env ark = (Ok tt, ark')
    ∧ stack ark' = stack ark ∧ arrays ark' = arrays ark
    ∧ (∀ id node, heap ark !! id = Some node → Object id ∉ concat (freeVars.*2) →
         heap ark' !! id = Some node)
    ∧ (∀ id node, heap ark !! id = Some node → (∀ ref, node ≠ SymRef ref) →
         heap ark' !! id = Some node)
    ∧ (∀ id ref, heap ark !! id = Some (SymRef ref) →
         ∃ ref', heap ark' !! id = Some (SymRef ref'))
    ∧ (∀ name symrefs symref,
         (name, symrefs) ∈ freeVars → symref ∈ symrefs →
         ∃ val s r, env !! name = Some val ∧ symref = Object s
                    ∧ heap ark' !! s = Some (SymRef (Some (Object r)))
                    ∧ heap ark' !! r = Some (ValRef val)).
Proof.
  induction freeVars as [|[name symrefs] rest IH]; intros ark Hnd Hall Henv.
  - exists ark. repeat split; try done.
    + intros id ref H. by eexists.
    + intros name symrefs symref Hin. by apply elem_of_nil in Hin.
  - simpl in *. apply NoDup_app in Hnd as (Hnd1 & Hdisj & Hnd2).
    apply Forall_app in Hall as [Hall1 Hall2].
    apply Forall_cons in Henv as [[val Hval] Henv].
    destruct (linkSymrefs_spec val symrefs ark Hnd1 Hall1)
      as (ark1 & Hlink1 & Hst1 & Harr1 & F1 & F2 & F3 & L1).
    destruct (IH ark1 Hnd2) as (ark' & Hlink & Hst & Harr & G1 & G2 & G3 & L); [|done|].
    { eapply Forall_impl; [exact Hall2|]. intros x (s & ref & -> & Hs).
      destruct (F3 _ _ Hs) as [ref' Hs']. by exists s, ref'. }
    exists ark'. split.
    { rewrite Hval. unfold bind. by rewrite Hlink1. }
    split; [congruence|]. split; [congruence|]. split; [|split; [|split]].
    + intros id node Hid Hni. apply not_elem_of_app in Hni as [Hni1 Hni2].
      apply G1; [|done]. by apply F1.
    + intros id node Hid Hns. apply G2; [|done]. by apply F2.
    + intros id ref Hid. destruct (F3 _ _ Hid) as [ref' Hid']. by eapply G3.
    + intros name' symrefs' symref [[= -> ->]|Hin]%elem_of_cons Hsym.
      * destruct (L1 _ Hsym) as (s & r & -> & Hs & Hr).
        exists val, s, r. split; [done|]. split; [done|]. split.
        -- apply G1; [done|]. by apply Hdisj.
        -- by apply G2.
      * by eapply L.
Qed.


(** ** Linking *)

(** X21: [link] binds every free variable to the value the environment
    has for its name, or fails at the first name the environment does not
    have.  When the [SymRef]s of the free variables are pairwise different
    objects and the environment has every name, [link] succeeds, returns
    the compiled value and leaves the stack alone, and every [SymRef] of a
    free variable then evaluates to the environment's value for its name.
    When a name is missing, [link] fails with "undefined symbol" and the
    name, after the variables before it have been linked. *)
Theorem link_binds_the_free_variables val freeVars env ark :
  (NoDup (concat (freeVars.*2)) →
   Forall (fun symref => ∃ s ref, symref = Object s ∧ heap ark !! s = Some (SymRef ref))
          (concat (freeVars.*2)) →
   Forall (fun name => is_Some (env !! name)) (freeVars.*1) →
   ∃ ark',
     link (val, freeVars) env ark = (Ok val, ark')
     ∧ stack ark' = stack ark ∧ arrays ark' = arrays ark
     ∧ ∀ name symrefs symref fuel,
         (name, symrefs) ∈ freeVars → symref ∈ symrefs →
         ∃ v, env !! name = Some v
              ∧ eval (S (S (S fuel))) symref ark' = (Ok v, ark'))
  ∧ (∀ linked name symrefs rest ark1,
       freeVars = linked ++ (name, symrefs) :: rest →
       linkFreeVars linked env ark = (Ok tt, ark1) →
       env !! name = None →
       link (val, freeVars) env ark
       = (Throw (Error ("undefined symbol " ++ name)), ark1)).
Proof.
  split.
  - intros Hnd Hall Henv.
    destruct (linkFreeVars_spec env freeVars ark Hnd Hall Henv)
      as (ark' & Hlink & Hst & Harr & _ & _ & _ & L).
    exists ark'. split; [by unfold link, bind; simpl; rewrite Hlink|].
    split; [done|]. split; [done|].
    intros name symrefs symref fuel Hin Hsym.
    destruct (L _ _ _ Hin Hsym) as (v & s & r & Hv & -> & Hs & Hr).
    exists v. split; [done|].
    cbn [eval]. rewrite Hs. unfold bind, getStack. cbn [Ref_get]. by rewrite Hs, Hr.
  - intros linked name symrefs rest ark1 -> Hlinked Hnone.
    unfold link, bind. simpl.
    assert (∀ l a, linkFreeVars l env a = (Ok tt, ark1) →
              linkFreeVars (l ++ (name, symrefs) :: rest) env a
              = (Throw (Error ("undefined symbol " ++ name)), ark1)) as H.
    { clear Hlinked. induction l as [|[n ss] l IH]; intros a; simpl.
      - intros [= <-]. by rewrite Hnone.
      - destruct (env !! n); [|done]. unfold bind.
        destruct (linkSymrefs v ss a) as [[[]| | | |] a1]; try done. apply IH. }
    by rewrite (H _ _ Hlinked).
Qed.

(** Linking the free variable [pi] with and without a binding for it. *)
Lemma link_binds_the_free_variables_witness :
  let ark := mkState [0%nat] [[]] [SymRef None] in
  (∃ ark', link (Object 0, [("pi", [Object 0])]) {["pi" := Num 3]} ark = (Ok (Object 0), ark')
           ∧ eval 3 (Object 0) ark' = (Ok (Num 3), ark'))
  ∧ link (Object 0, [("pi", [Object 0])]) ∅ ark
    = (Throw (Error "undefined symbol pi"), ark).
Proof.
  intros ark. split.
  - destruct (proj1 (link_binds_the_free_variables (Object 0) [("pi", [Object 0])]
                       {["pi" := Num 3]} ark)) as (ark' & Hlink & _ & _ & Heval).
    + simpl. apply NoDup_singleton.
    + simpl. apply Forall_singleton. by exists 0%nat, None.
    + simpl. apply Forall_singleton. by rewrite lookup_singleton_eq.
    + exists ark'. split; [exact Hlink|].
      destruct (Heval "pi" [Object 0] (Object 0) 0%nat) as (v & Hv & Hv').
      * apply list_elem_of_singleton. reflexivity.
      * apply list_elem_of_singleton. reflexivity.
      * rewrite lookup_singleton_eq in Hv. injection Hv as <-. exact Hv'.
  - exact (proj2 (link_binds_the_free_variables (Object 0) [("pi", [Object 0])] ∅ ark)
             [] "pi" [Object 0] [] _ eq_refl eq_refl eq_refl).
Defined.


(** ** Native functions *)

(** X22: the call of a native function.  A [NativeFexpr] that is no
    [NativeFn] is applied to the argument expressions as they are; a
    [NativeFn] is applied to the values of the arguments, evaluated from
    left to right in the state the callee left, and when an argument
    throws the call throws the same and the native is not applied.  When
    the callee is neither a closure nor a native function the call fails
    with "invalid Call", and no argument is evaluated. *)
Theorem Call_of_a_native fuel id fn args ark fnVal ark1 :
  heap ark !! id = Some (Call fn args) →
  eval fuel fn ark = (Ok fnVal, ark1) →
  (∀ f name body,
     fnVal = Object f →
     heap ark1 !! f = Some (NativeFexpr false name body) →
     eval (S fuel) (Object id) ark = callNative fuel body args ark1)
  ∧ (∀ f name body vals ark2,
       fnVal = Object f →
       heap ark1 !! f = Some (NativeFexpr true name body) →
       mapM (eval fuel) args ark1 = (Ok vals, ark2) →
       eval (S fuel) (Object id) ark = callNative fuel body vals ark2)
  ∧ (∀ f name body args1 arg args2 vals ark2 e ark3,
       fnVal = Object f →
       heap ark1 !! f = Some (NativeFexpr true name body) →
       args = args1 ++ arg :: args2 →
       mapM (eval fuel) args1 ark1 = (Ok vals, ark2) →
       eval fuel arg ark2 = (Throw e, ark3) →
       eval (S fuel) (Object id) ark = (Throw e, ark3))
  ∧ ((match fnVal with
      | ConcreteVal _ => True
      | Object f =>
          match heap ark1 !! f with
          | Some (FexprClosure _ _ _ _ | NativeFexpr _ _ _) | None => False
          | Some _ => True
          end
      end) →
     eval (S fuel) (Object id) ark = (Throw (Error "invalid Call"), ark1)).
Proof.
  intros Hnode Hfn.
  assert (∀ k undefined,
            eval (S fuel) (Object id) ark = bindOr (eval fuel fn) k undefined ark →
            eval (S fuel) (Object id) ark = k fnVal ark1)
    as Hstep.
  { intros k undefined ->. unfold bindOr. by rewrite Hfn. }
  split; [|split; [|split]].
  - intros f name body -> Hf. erewrite Hstep; [|cbn [eval]; by rewrite Hnode].
    cbv beta iota. rewrite Hf. done.
  - intros f name body vals ark2 -> Hf Hargs.
    erewrite Hstep; [|cbn [eval]; by rewrite Hnode].
    cbv beta iota. rewrite Hf. unfold bind. by rewrite Hargs.
  - intros f name body args1 arg args2 vals ark2 e ark3 -> Hf -> Hargs Harg.
    erewrite Hstep; [|cbn [eval]; by rewrite Hnode].
    cbv beta iota. rewrite Hf. unfold bind.
    assert (∀ l a ys a1, mapM (eval fuel) l a = (Ok ys, a1) →
              mapM (eval fuel) (l ++ arg :: args2) a
              = match eval fuel arg a1 with
                | (Ok y, a2) =>
                    match mapM (eval fuel) args2 a2 with
                    | (Ok zs, a3) => (Ok (ys ++ y :: zs), a3)
                    | (Throw e, a3) => (Throw e, a3)
                    | (HostUndefined, a3) => (Unmodelled, a3)
                    | (Unmodelled, a3) => (Unmodelled, a3)
                    | (OutOfFuel, a3) => (OutOfFuel, a3)
                    end
                | (Throw e, a2) => (Throw e, a2)
                | (HostUndefined, a2) => (Unmodelled, a2)
                | (Unmodelled, a2) => (Unmodelled, a2)
                | (OutOfFuel, a2) => (OutOfFuel, a2)
                end) as Happ.
    { induction l as [|x l IH]; intros a ys a1; simpl.
      - intros [= <- <-]. unfold bind, ret.
        by destruct (eval fuel arg a) as [[] ?].
      - unfold bind. destruct (eval fuel x a) as [[y| | | |] a0]; try done.
        destruct (mapM (eval fuel) l a0) as [[ys0| | | |] a0'] eqn:Hm; try done.
        intros [= <- <-]. rewrite (IH _ _ _ Hm). unfold ret.
        destruct (eval fuel arg a0') as [[] ?]; try done.
        by destruct (mapM (eval fuel) args2 _) as [[] ?]. }
    rewrite (Happ _ _ _ _ Hargs), Harg. done.
  - intros Hinvalid. erewrite Hstep; [|cbn [eval]; by rewrite Hnode].
    cbv beta iota. destruct fnVal as [|f]; [done|].
    by destruct (heap ark1 !! f) as [[]|].
Qed.

(** Calling the number [1]. *)
Lemma Call_of_a_native_witness :
  let program := [Call (Num 1) [Object 0]] in
  eval 2 (Object 0) (mkState [0%nat] [[]] program)
  = (Throw (Error "invalid Call"), mkState [0%nat] [[]] program).
Proof.
  intros program.
  exact (proj2 (proj2 (proj2 (Call_of_a_native 1 0 (Num 1) [Object 0]
                                (mkState [0%nat] [[]] program) (Num 1)
                                (mkState [0%nat] [[]] program) eq_refl eq_refl))) I).
Defined.


(** ** Assignment *)

(** X23: what is assigned is read back.  An assignment evaluates its
    target and then its right-hand side.  When the target is a [ValRef]
    the assignment stores the value in it, changes nothing else and gives
    the value; a [Get] of an expression that evaluates to that reference
    then gives the value.  When the target is neither a [Ref] nor a
    [SymRef] the assignment fails with "assignment to non-Ref/SymRef",
    after the right-hand side has been evaluated. *)
Theorem assignment_then_read fuel id refExp valExp ark target ark1 res ark2 :
  heap ark !! id = Some (Ass refExp valExp) →
  eval fuel refExp ark = (Ok target, ark1) →
  eval fuel valExp ark1 = (Ok res, ark2) →
  (∀ ref old,
     target = Object ref →
     heap ark2 !! ref = Some (ValRef old) →
     let ark3 :=
       mkState (stack ark2) (arrays ark2) (<[ref := ValRef res]> (heap ark2)) in
     eval (S fuel) (Object id) ark = (Ok res, ark3)
     ∧ ∀ get refExp',
         heap ark3 !! get = Some (Get refExp') →
         eval fuel refExp' ark3 = (Ok (Object ref), ark3) →
         eval (S fuel) (Object get) ark3 = (Ok res, ark3))
  ∧ (isRefOrSymRef target ark2 = false →
     eval (S fuel) (Object id) ark
     = (Throw (AssException "assignment to non-Ref/SymRef"), ark2)).
Proof.
  intros Hnode Href Hval.
  assert (∃ fuel', fuel = S fuel') as [fuel' Hfuel].
  { destruct fuel; [done|by eexists]. }
  split.
  - intros ref old -> Hold ark3. split.
    + cbn [eval]. rewrite Hnode. unfold bindOr at 1. rewrite Href.
      unfold bind at 1. rewrite Hval. unfold isRefOrSymRef. rewrite Hold.
      unfold bind at 1. unfold getStack at 1. unfold bind at 1.
      rewrite Hfuel. cbn [Ref_set]. rewrite Hold. done.
    + intros get refExp' Hget Href'.
      cbn [eval]. rewrite Hget.
      unfold bindOr at 1. rewrite Href'. unfold bind, getStack.
      rewrite Hfuel. cbn [Ref_get]. subst ark3. simpl.
      rewrite list_lookup_insert_eq by (by eapply lookup_lt_Some). done.
  - intros Hnot. cbn [eval]. rewrite Hnode. unfold bindOr at 1. rewrite Href.
    unfold bind at 1. rewrite Hval. by rewrite Hnot.
Qed.

(** Assigning [7] to a reference that holds null. *)
Lemma assignment_then_read_witness :
  let program := [Ass (Object 1) (Num 7); ValRef Null] in
  eval 2 (Object 0) (mkState [0%nat] [[]] program)
  = (Ok (Num 7), mkState [0%nat] [[]] [Ass (Object 1) (Num 7); ValRef (Num 7)]).
Proof.
  intros program.
  exact (proj1 (proj1 (assignment_then_read 1 0 (Object 1) (Num 7)
                         (mkState [0%nat] [[]] program) (Object 1)
                         (mkState [0%nat] [[]] program) (Num 7)
                         (mkState [0%nat] [[]] program) eq_refl eq_refl eq_refl)
                  1%nat Null eq_refl eq_refl)).
Defined.

(** ** The constructor of [Fexpr] *)

Lemma rebound_refl touched heap : rebound touched heap heap.
Proof.
  repeat split; try done.
  - intros id ref H. by eexists.
  - intros id node H1 H2. congruence.
Qed.

Lemma rebound_trans touched1 touched2 heap1 heap2 heap3 :
  rebound touched1 heap1 heap2 → rebound touched2 heap2 heap3 →
  rebound (touched1 ++ touched2) heap1 heap3.
Proof.
  intros (F1 & F2 & F3 & F4) (G1 & G2 & G3 & G4). repeat split.
  - intros id node H Hni. apply not_elem_of_app in Hni as [Hn1 Hn2].
    apply G1; [by apply F1|done].
  - intros id node H Hns. apply G2; [by apply F2|done].
  - intros id ref H. destruct (F3 _ _ H) as [ref' H']. by eapply G3.
  - intros id node H1 H3. destruct (heap2 !! id) as [node'|] eqn:H2.
    + destruct (F4 _ _ H1 H2) as [index ->].
      rewrite (G2 _ _ H2) in H3 by done. injection H3 as <-. by eexists.
    + by eapply G4.
Qed.

Lemma rebound_target touched heap heap' l :
  rebound touched heap heap' →
  match heap !! l with
  | Some (StackRef level index) => heap' !! l = Some (StackRef level index)
  | Some (StackRefRef level index) => heap' !! l = Some (StackRefRef level index)
  | Some _ =>
      ∃ node, heap' !! l = Some node
              ∧ (∀ level index, node ≠ StackRef level index)
              ∧ (∀ level index, node ≠ StackRefRef level index)
  | None => ∀ level index, heap' !! l ≠ Some (StackRef level index)
  end.
Proof.
  intros (F1 & F2 & F3 & F4). destruct (heap !! l) as [node|] eqn:Hn.
  - destruct node; try (by apply F2); try (eexists; split; [by apply F2|done]).
    destruct (F3 _ _ Hn) as [ref' Hn']. eexists. by split.
  - intros level index H. by destruct (F4 _ _ Hn H).
Qed.

Lemma rebound_stackLoc touched heap heap' symref :
  rebound touched heap heap' → symref ∉ touched →
  bindable heap symref →
  stackLoc heap' symref = stackLoc heap symref ∧ bindable heap' symref.
Proof.
  intros Hre Hni (s & loc & -> & Hs & Hloc).
  pose proof (proj1 Hre _ _ Hs Hni) as Hs'.
  unfold stackLoc, bindable. rewrite Hs, Hs'.
  destruct loc as [r|l].
  - split; [done|]. by exists s, (ConcreteVal r).
  - pose proof (rebound_target _ _ _ l Hre) as Hl.
    destruct (heap !! l) as [node|] eqn:Hn; [|done].
    assert ((∃ level index, node = StackRef level index ∧ level ≠ 0%nat)
            ∨ (match node with StackRef _ _ | StackRefRef _ _ => False | _ => True end))
      as [(level & index & -> & Hlevel)|Hother].
    { destruct node; try (by right); try done. left. by eexists _, _. }
    + rewrite Hl. split; [done|]. exists s, (Object l). by rewrite Hl.
    + assert (∃ node', heap' !! l = Some node'
                       ∧ (∀ level index, node' ≠ StackRef level index)
                       ∧ (∀ level index, node' ≠ StackRefRef level index))
        as (node' & Hn' & Hn1 & Hn2) by (by destruct node).
      rewrite Hn'. split.
      * destruct node; try done; destruct node'; try done; by destruct (Hn1 level index).
      * exists s, (Object l). split; [done|]. split; [done|]. rewrite Hn'.
        destruct node'; try done.
        -- by destruct (Hn1 level index).
        -- by destruct (Hn2 level index).
Qed.

Lemma rebound_rest touched heap heap' rest :
  rebound touched heap heap' →
  (∀ x, x ∈ rest → x ∉ touched) →
  Forall (bindable heap) rest →
  Forall (bindable heap') rest
  ∧ omap (stackLoc heap') rest = omap (stackLoc heap) rest.
Proof.
  intros Hre. induction rest as [|x rest IH]; intros Hni Hall; [done|].
  apply Forall_cons in Hall as [Hx Hall].
  destruct (rebound_stackLoc _ _ _ x Hre) as [Hx1 Hx2]; [|done|].
  { apply Hni. by apply elem_of_cons; left. }
  destruct IH as [IH1 IH2]; [|done|].
  { intros y Hy. apply Hni. by apply elem_of_cons; right. }
  split; [by apply Forall_cons|]. cbn [omap list_omap].
  change (list_omap ?f ?l) with (omap f l). by rewrite Hx1, IH2.
Qed.

Lemma bindSymrefs_spec symrefs :
  ∀ (isStackFreeVar : bool) (boundFreeVars : list (nat * nat)) ark,
  NoDup symrefs →
  Forall (bindable (heap ark)) symrefs →
  let first := head (omap (stackLoc (heap ark)) symrefs) in
  let boundFreeVars' :=
    if isStackFreeVar then boundFreeVars else boundFreeVars ++ option_list first in
  ∃ isStackFreeVar' ark',
    bindSymrefs symrefs isStackFreeVar boundFreeVars ark
    = (Ok (isStackFreeVar', boundFreeVars'), ark')
    ∧ stack ark' = stack ark ∧ arrays ark' = arrays ark
    ∧ rebound symrefs (heap ark) (heap ark')
    ∧ (∀ symref loc,
         symref ∈ symrefs → stackLoc (heap ark) symref = Some loc →
         ∃ s r, symref = Object s
                ∧ heap ark' !! s = Some (SymRef (Some (Object r)))
                ∧ heap ark' !! r = Some (StackRefRef 1 (length boundFreeVars' - 1)))
    ∧ (∀ s node,
         Object s ∈ symrefs → stackLoc (heap ark) (Object s) = None →
         heap ark !! s = Some node → heap ark' !! s = Some node).
Proof.
  induction symrefs as [|symref rest IH]; intros flag bound ark Hnd Hall first bound'.
  - exists flag, ark. subst bound' first. simpl.
    split; [by destruct flag; rewrite ?app_nil_r|].
    split; [done|]. split; [done|]. split; [apply rebound_refl|].
    split; [|done]. intros symref loc Hin. by apply elem_of_nil in Hin.
  - apply NoDup_cons in Hnd as [Hni Hnd].
    apply Forall_cons in Hall as [Hb Hall].
    destruct (Hb) as (s & loc & -> & Hs & Hloc).
    destruct (stackLoc (heap ark) (Object s)) as [[level index]|] eqn:Hsl.
    + (* the [SymRef] refers to a [StackRef] *)
      assert (∃ l, loc = Object l ∧ heap ark !! l = Some (StackRef level index))
        as (l & -> & Hl).
      { unfold stackLoc in Hsl. rewrite Hs in Hsl. destruct loc as [|l]; [done|].
        exists l. split; [done|]. by destruct (heap ark !! l) as [[]|]; simplify_eq. }
      rewrite Hl in Hloc.
      assert (first = Some (level, index)) as Hfirst.
      { subst first. cbn [omap list_omap]. by rewrite Hsl. }
      set (boundX := if flag then bound else bound ++ [(level, index)]).
      set (ark2 := mkState (stack ark) (arrays ark)
                     (<[s := SymRef (Some (Object (length (heap ark))))]>
                        (heap ark ++ [StackRefRef 1 (length boundX - 1)]))).
      pose proof (lookup_lt_Some _ _ _ Hs) as Hlt.
      assert (rebound [Object s] (heap ark) (heap ark2)) as Hre.
      { repeat split.
        - intros id node Hid Hne. simpl.
          rewrite list_lookup_insert_ne; [by apply lookup_app_l_Some|].
          intros <-. apply Hne, list_elem_of_singleton. done.
        - intros id node Hid Hns. simpl.
          rewrite list_lookup_insert_ne; [by apply lookup_app_l_Some|].
          intros <-. rewrite Hs in Hid. injection Hid as <-. by destruct (Hns (Some (Object l))).
        - intros id ref Hid. simpl. destruct (decide (id = s)) as [->|Hne].
          + rewrite list_lookup_insert_eq by (rewrite length_app; lia). by eexists.
          + rewrite list_lookup_insert_ne by done. eexists. by apply lookup_app_l_Some.
        - intros id node Hid Hid'. simpl in Hid'.
          apply lookup_ge_None in Hid.
          rewrite list_lookup_insert_ne in Hid' by lia.
          rewrite lookup_app_r in Hid' by done.
          destruct (id - length (heap ark))%nat; [|done].
          injection Hid' as <-. by eexists. }
      destruct (rebound_rest [Object s] _ _ rest Hre) as [Hall2 Homap]; [|done|].
      { intros x Hx ->%list_elem_of_singleton. done. }
      destruct (IH true boundX ark2 Hnd Hall2)
        as (flag' & ark' & Hrun & Hst & Harr & Hre' & L & U).
      exists flag', ark'. split.
      { cbn [bindSymrefs]. rewrite Hs, Hl.
        destruct (level =? 0)%nat eqn:Hz; [by apply Nat.eqb_eq in Hz|].
        unfold bind at 1. unfold new at 1. simpl. unfold bind at 1. unfold setNode at 1.
        simpl. fold boundX. fold ark2. rewrite Hrun. subst bound' boundX.
        rewrite Hfirst. by destruct flag. }
      split; [done|]. split; [done|]. split.
      { apply (rebound_trans [Object s] rest _ _ _ Hre Hre'). }
      assert (bound' = boundX) as Hbound.
      { subst bound' boundX. rewrite Hfirst. by destruct flag. }
      split.
      * intros x loc' [->|Hin]%elem_of_cons Hx.
        -- exists s, (length (heap ark)). split; [done|]. rewrite Hbound. split.
           ++ apply (proj1 Hre'); [|done]. simpl.
              apply list_lookup_insert_eq. rewrite length_app. lia.
           ++ apply (proj1 (proj2 Hre')); [|done]. simpl.
              rewrite list_lookup_insert_ne by lia.
              by rewrite lookup_app_r, Nat.sub_diag by lia.
        -- rewrite Hbound.
           assert (stackLoc (heap ark2) x = Some loc') as Hx2.
           { destruct (rebound_stackLoc _ _ _ x Hre) as [-> _]; [|..|done].
             - intros ->%list_elem_of_singleton. done.
             - eapply Forall_forall in Hall; [exact Hall|done]. }
           destruct (L _ _ Hin Hx2) as (s' & r & -> & H1 & H2). by exists s', r.
      * intros s' node [[= ->]|Hin]%elem_of_cons Hx Hnode; [congruence|].
        apply U; [done| |].
        -- destruct (rebound_stackLoc _ _ _ (Object s') Hre) as [-> _]; [|..|done].
           ++ intros [= ->]%list_elem_of_singleton. done.
           ++ eapply Forall_forall in Hall; [exact Hall|done].
        -- apply (proj1 Hre); [done|]. intros [= ->]%list_elem_of_singleton. done.
    + (* the [SymRef] does not refer to a [StackRef] *)
      assert (first = head (omap (stackLoc (heap ark)) rest)) as Hfirst.
      { subst first. cbn [omap list_omap]. by rewrite Hsl. }
      destruct (IH flag bound ark Hnd Hall)
        as (flag' & ark' & Hrun & Hst & Harr & Hre' & L & U).
      exists flag', ark'. split.
      { cbn [bindSymrefs]. rewrite Hs. subst bound'. rewrite Hfirst.
        unfold stackLoc in Hsl. rewrite Hs in Hsl.
        destruct loc as [|l]; [exact Hrun|].
        destruct (heap ark !! l) as [node|]; [|done].
        destruct node; try done; exact Hrun. }
      split; [done|]. split; [done|]. split.
      { destruct Hre' as (F1 & F2 & F3 & F4). repeat split; try done.
        intros id node Hid Hne. apply F1; [done|].
        intros Hin. apply Hne. by apply elem_of_cons; right. }
      assert (bound' = if flag then bound
                       else bound ++ option_list (head (omap (stackLoc (heap ark)) rest)))
        as Hbound.
      { subst bound'. by rewrite Hfirst. }
      rewrite Hbound. split.
      * intros x loc' [->|Hin]%elem_of_cons Hx; [congruence|]. by eapply L.
      * intros s' node [[= ->]|Hin]%elem_of_cons Hx Hnode; [|by apply U].
        apply (proj1 Hre'); done.
Qed.

Lemma omap_ext_in {A B} (f g : A → option B) (l : list A) :
  (∀ x, x ∈ l → f x = g x) → omap f l = omap g l.
Proof.
  induction l as [|x l IH]; intros H; [done|]. cbn [omap list_omap].
  change (list_omap ?f ?l) with (omap f l).
  rewrite (H x) by (by apply elem_of_cons; left).
  rewrite IH; [done|]. intros y Hy. apply H. by apply elem_of_cons; right.
Qed.

Lemma head_omap_is_Some {A B} (f : A → option B) (l : list A) x y :
  x ∈ l → f x = Some y → is_Some (head (omap f l)).
Proof.
  induction l as [|a l IH]; intros Hin Hx; [by apply elem_of_nil in Hin|].
  cbn [omap list_omap]. change (list_omap ?f ?l) with (omap f l).
  destruct (f a) eqn:Ha; [by eexists|].
  apply elem_of_cons in Hin as [->|Hin]; [congruence|]. by apply IH.
Qed.

Lemma elem_of_concat_fmap_snd {A B} (l : list (A * list B)) a bs b :
  (a, bs) ∈ l → b ∈ bs → b ∈ concat (l.*2).
Proof.
  induction l as [|[a' bs'] l IH]; intros Hin Hb; [by apply elem_of_nil in Hin|].
  simpl. apply elem_of_app. apply elem_of_cons in Hin as [[= -> ->]|Hin].
  - by left.
  - right. by apply IH.
Qed.

Lemma bindFreeVars_spec freeVars : ∀ (boundFreeVars : list (nat * nat)) ark,
  NoDup (concat (freeVars.*2)) →
  Forall (bindable (heap ark)) (concat (freeVars.*2)) →
  let firsts :=
    omap (fun fv : string * list Val => head (omap (stackLoc (heap ark)) (snd fv)))
         freeVars in
  ∃ ark',
    bindFreeVars freeVars boundFreeVars ark = (Ok (boundFreeVars ++ firsts), ark')
    ∧ stack ark' = stack ark ∧ arrays ark' = arrays ark
    ∧ rebound (concat (freeVars.*2)) (heap ark) (heap ark')
    ∧ (∀ name symrefs symref loc,
         (name, symrefs) ∈ freeVars → symref ∈ symrefs →
         stackLoc (heap ark) symref = Some loc →
         ∃ s r index,
           symref = Object s
           ∧ heap ark' !! s = Some (SymRef (Some (Object r)))
           ∧ heap ark' !! r = Some (StackRefRef 1 index)
           ∧ (boundFreeVars ++ firsts) !! index
             = head (omap (stackLoc (heap ark)) symrefs))
    ∧ (∀ s node,
         Object s ∈ concat (freeVars.*2) → stackLoc (heap ark) (Object s) = None →
         heap ark !! s = Some node → heap ark' !! s = Some node).
Proof.
  induction freeVars as [|[name symrefs] rest IH]; intros bound ark Hnd Hall firsts.
  - exists ark. subst firsts. simpl. rewrite app_nil_r.
    split; [done|]. split; [done|]. split; [done|]. split; [apply rebound_refl|].
    split.
    + intros n ss x loc Hin. by apply elem_of_nil in Hin.
    + intros s node Hin. by apply elem_of_nil in Hin.
  - simpl in Hnd, Hall. apply NoDup_app in Hnd as (Hnd1 & Hdisj & Hnd2).
    apply Forall_app in Hall as [Hall1 Hall2].
    destruct (bindSymrefs_spec symrefs false bound ark Hnd1 Hall1)
      as (flag' & ark1 & Hrun1 & Hst1 & Harr1 & Hre1 & L1 & U1).
    set (first := head (omap (stackLoc (heap ark)) symrefs)) in *.
    destruct (rebound_rest symrefs _ _ (concat (rest.*2)) Hre1) as [Hall2' _];
      [|done|].
    { intros x Hx Hin. by apply (Hdisj x). }
    assert (∀ x, x ∈ concat (rest.*2) →
              stackLoc (heap ark1) x = stackLoc (heap ark) x) as Hsame.
    { intros x Hx. apply (rebound_stackLoc symrefs); [done| |].
      - intros Hin. by apply (Hdisj x).
      - eapply Forall_forall in Hall2; [exact Hall2|done]. }
    assert (∀ n ss, (n, ss) ∈ rest →
              omap (stackLoc (heap ark1)) ss = omap (stackLoc (heap ark)) ss) as Hsame'.
    { intros n ss Hin. apply omap_ext_in. intros x Hx. apply Hsame.
      by eapply elem_of_concat_fmap_snd. }
    destruct (IH (bound ++ option_list first) ark1 Hnd2 Hall2')
      as (ark' & Hrun & Hst & Harr & Hre & L & U).
    assert (omap (fun fv : string * list Val =>
                    head (omap (stackLoc (heap ark1)) (snd fv))) rest
            = omap (fun fv : string * list Val =>
                      head (omap (stackLoc (heap ark)) (snd fv))) rest) as Hfirsts.
    { apply omap_ext_in. intros [n ss] Hin. simpl. by rewrite (Hsame' n ss). }
    rewrite Hfirsts in *.
    assert (bound ++ firsts
            = (bound ++ option_list first)
              ++ omap (fun fv : string * list Val =>
                         head (omap (stackLoc (heap ark)) (snd fv))) rest) as Hbound.
    { subst firsts. cbn [omap list_omap]. change (list_omap ?f ?l) with (omap f l).
      simpl. fold first. rewrite <- app_assoc. by destruct first. }
    exists ark'. split.
    { simpl. unfold bind. rewrite Hrun1. simpl. rewrite Hrun. by rewrite Hbound. }
    split; [congruence|]. split; [congruence|]. split.
    { simpl. by eapply rebound_trans. }
    split.
    + intros n ss x loc [[= -> ->]|Hin]%elem_of_cons Hx Hloc.
      * destruct (L1 _ _ Hx Hloc) as (s & r & -> & Hs & Hr).
        destruct (head_omap_is_Some _ _ _ _ Hx Hloc) as [f Hf]. fold first in Hf.
        rewrite Hf in Hr. simpl in Hr.
        exists s, r, (length bound). split; [done|].
        split; [apply (proj1 Hre); [done|by apply Hdisj]|].
        split.
        -- apply (proj1 (proj2 Hre)); [|done].
           by rewrite length_app, Nat.add_1_r, Nat.sub_1_r in Hr.
        -- rewrite Hbound, Hf. simpl. rewrite <- app_assoc.
           by rewrite lookup_app_r, Nat.sub_diag by lia.
      * assert (stackLoc (heap ark1) x = Some loc) as Hloc1.
        { rewrite Hsame; [done|]. by eapply elem_of_concat_fmap_snd. }
        destruct (L _ _ _ _ Hin Hx Hloc1) as (s & r & index & -> & Hs & Hr & Hi).
        exists s, r, index. split; [done|]. split; [done|]. split; [done|].
        rewrite Hbound, Hi. by rewrite (Hsame' n ss).
    + intros s node Hin Hnone Hnode. simpl in Hin.
      apply elem_of_app in Hin as [Hin|Hin].
      * apply (proj1 Hre); [by apply U1|by apply Hdisj].
      * apply U; [done|by rewrite Hsame|].
        apply (proj1 Hre1); [done|]. intros Hin'. by apply (Hdisj (Object s)).
Qed.

(** X24: the constructor of [Fexpr] gives every free variable that lives
    on the stack its place among the bound free variables.  When the
    [SymRef]s of the free variables are pairwise different objects on
    which no assertion fails, the constructor succeeds.  The bound free
    variables are, in the order of the free variables, the [StackRef] of
    the first [SymRef] of each variable that has one; every [SymRef] that
    referred to a [StackRef] now refers to a [StackRefRef(1, index)], with
    [index] the place of its variable among the bound free variables; and
    every other [SymRef] is as it was. *)
Theorem Fexpr_binds_the_stack_variables isFn params freeVars body ark :
  NoDup (concat (freeVars.*2)) →
  Forall (bindable (heap ark)) (concat (freeVars.*2)) →
  let boundFreeVars :=
    omap (fun fv : string * list Val => head (omap (stackLoc (heap ark)) (snd fv)))
         freeVars in
  ∃ this ark',
    newFexpr isFn params freeVars body ark = (Ok (Object this), ark')
    ∧ heap ark' !! this = Some (Fexpr isFn params boundFreeVars body)
    ∧ stack ark' = stack ark ∧ arrays ark' = arrays ark
    ∧ (∀ name symrefs symref loc,
         (name, symrefs) ∈ freeVars → symref ∈ symrefs →
         stackLoc (heap ark) symref = Some loc →
         ∃ s r index,
           symref = Object s
           ∧ heap ark' !! s = Some (SymRef (Some (Object r)))
           ∧ heap ark' !! r = Some (StackRefRef 1 index)
           ∧ boundFreeVars !! index = head (omap (stackLoc (heap ark)) symrefs))
    ∧ (∀ s node,
         Object s ∈ concat (freeVars.*2) → stackLoc (heap ark) (Object s) = None →
         heap ark !! s = Some node → heap ark' !! s = Some node).
Proof.
  intros Hnd Hall bfv.
  destruct (bindFreeVars_spec freeVars [] ark Hnd Hall)
    as (ark1 & Hrun & Hst & Harr & Hre & L & U).
  simpl in Hrun, L. fold bfv in Hrun, L.
  eexists _, _. split.
  { unfold newFexpr, bind. rewrite Hrun. unfold new. reflexivity. }
  simpl. split; [by rewrite lookup_app_r, Nat.sub_diag by lia|].
  split; [done|]. split; [done|]. split.
  - intros name symrefs symref loc Hin Hsym Hloc.
    destruct (L _ _ _ _ Hin Hsym Hloc) as (s & r & index & -> & Hs & Hr & Hi).
    exists s, r, index. split; [done|].
    split; [by apply lookup_app_l_Some|]. split; [by apply lookup_app_l_Some|done].
  - intros s node Hin Hnone Hnode. apply lookup_app_l_Some. by apply U.
Qed.

(** A function with one free variable, which two [SymRef]s name and which
    is the first of the enclosing frame. *)
Lemma Fexpr_binds_the_stack_variables_witness :
  let ark :=
    mkState [0%nat] [[]] [SymRef (Some (Object 1)); StackRef 1 0; SymRef (Some (Object 1))] in
  ∃ this ark',
    newFexpr true [] [("x", [Object 0; Object 2])] Null ark = (Ok (Object this), ark')
    ∧ heap ark' !! this = Some (Fexpr true [] [(1, 0)%nat] Null).
Proof.
  intros ark.
  destruct (Fexpr_binds_the_stack_variables true [] [("x", [Object 0; Object 2])] Null ark)
    as (this & ark' & Hnew & Hthis & _).
  - simpl. apply NoDup_cons. split; [|apply NoDup_singleton].
    intros Hin. apply list_elem_of_singleton in Hin. discriminate Hin.
  - simpl. apply Forall_cons. split; [|apply Forall_singleton].
    + exists 0%nat, (Object 1). split; [reflexivity|]. split; [reflexivity|]. simpl. lia.
    + exists 2%nat, (Object 1). split; [reflexivity|]. split; [reflexivity|]. simpl. lia.
  - exists this, ark'. split; [exact Hnew|exact Hthis].
Defined.

End EvalFacts.
